(** * N-Queens CSP solver: a shallow embedding of [p2_n_queens/n_queens.py]

    The Python class [NQueensCSP] keeps three fields.  [self.n] and
    [self.partial_assignment] are written once by [__init__]; only
    [self.domains] is mutated afterwards.  Every method is therefore
    rendered as a function that receives [n] (and the partial assignment
    where the method reads it) together with the current domain map, and
    returns the new domain map next to its Python return value.

    Python integers are [Z]; a [dict] is a [gmap]; a [set] of columns is a
    [gset Z].  In-place mutation of the set stored under a row is [alter]
    on the domain map, which, like the Python code, never creates a key.
    A row missing from the domain map reads as the empty set, where Python
    would raise [KeyError]; the map [__init__] builds holds exactly the
    rows [0 .. n-1] ([NQueensCSP_dom]) and no method adds or removes a
    row. *)

From stdpp Require Import gmap list sorting strings pretty.
From Stdlib Require Import ZArith Lia Ascii.

Local Open Scope Z_scope.

(** ** Types of the data model *)

Abbreviation assignment := (gmap Z Z) (only parsing).
Abbreviation domain_map := (gmap Z (gset Z)) (only parsing).
Abbreviation pruning := (gmap Z (list Z)) (only parsing).

(** What a call hands back: a dict, Python's [None], an exception that
    leaves the call, or (for the fuelled recursion of this embedding only)
    an exhausted recursion budget, which never happens
    ([solve_fuel_suffices]). *)
Inductive result : Type :=
  | Solution (a : assignment)
  | NoSolution
  | Raised
  | OutOfFuel.

#[export] Instance result_eq_dec : EqDecision result.
Proof. solve_decision. Defined.

(** ** Iteration order of a Python set

    The language leaves the order in which a [set] is iterated open.  The
    embedding is parametric in it: an instance of [SetIter] enumerates every
    set, each element once, in an order that depends on the elements only.
    Results that do not depend on the order are proved for every instance;
    concrete runs use [ascending], the order CPython produces for the sets
    of this program (small non-negative integers, built by
    [set(range(n))] and only shrunk or refilled afterwards). *)
Class SetIter := {
  set_iter : gset Z → list Z;
  set_iter_perm : ∀ X, set_iter X ≡ₚ elements X
}.

Definition ascending_iter (X : gset Z) : list Z := merge_sort Z.le (elements X).

#[export] Program Instance ascending : SetIter := {| set_iter := ascending_iter |}.
Next Obligation. intros X. apply merge_sort_Permutation. Qed.

(** ** Python built-ins used by the solver *)

(** [range(n)] *)
Definition range (n : Z) : list Z := seqZ 0 n.

(** [len(d)] of a dict *)
Definition len {A} (d : gmap Z A) : Z := Z.of_nat (size d).

(** [min(l, key=key)]: the first element whose key is smallest;
    [None] stands for the [ValueError] raised on an empty sequence. *)
Definition py_min {A} (key : A → nat) (l : list A) : option A :=
  match l with
  | [] => None
  | x :: l' => Some (foldl (λ best y, if (key y <? key best)%nat then y else best) x l')
  end.

(** [list.sort(key=key)] is stable: equal keys keep their order. *)
Fixpoint insert_by_key {A} (key : A → nat) (x : A) (l : list A) : list A :=
  match l with
  | [] => [x]
  | y :: l' => if (key x <=? key y)%nat then x :: l else y :: insert_by_key key x l'
  end.

Definition stable_sort {A} (key : A → nat) (l : list A) : list A :=
  foldr (insert_by_key key) [] l.

(** The [random] module.  A source of randomness is an infinite sequence of
    raw draws [rnd : nat → nat]; the solver threads the index [k] of the
    next unused draw.  [random.choice(seq)] picks [seq[r mod len(seq)]]
    ([None]: the [IndexError] on an empty sequence), and
    [random.randint(0, hi)] picks [r mod (hi + 1)] ([None]: the
    [ValueError] on an empty range).  Every element can be picked. *)
Definition choice {A} (r : nat) (seq : list A) : option A :=
  seq !! (r `mod` length seq)%nat.

Definition randint0 (r : nat) (hi : Z) : option Z :=
  if decide (0 ≤ hi) then Some (Z.of_nat r `mod` (hi + 1)) else None.

(** ** The queens constraint

    Every conflict test of the source has the shape
    [c1 == c2 or abs(r1 - r2) == abs(c1 - c2)]. *)
Definition Attacks (r1 c1 r2 c2 : Z) : Prop :=
  c1 = c2 ∨ Z.abs (r1 - r2) = Z.abs (c1 - c2).

#[export] Instance Attacks_dec r1 c1 r2 c2 : Decision (Attacks r1 c1 r2 c2).
Proof. unfold Attacks. apply _. Defined.

(** ** Domain store: [__init__] and [initialize_domains] *)

(** The three guarded [remove] calls that [initialize_domains] (lines
    124-132) and the singleton branch of [revise] (lines 183-194) apply to
    one row's set: the column itself, then [col + diag_diff] when it is
    below [n], then [col - diag_diff] when it is not negative.  The boolean
    is the [revised] flag of [revise]. *)
Definition discard_attacked (n col diag_diff : Z) (d : gset Z) : gset Z * bool :=
  let s1 := if decide (col ∈ d) then (d ∖ {[col]}, true) else (d, false) in
  let s2 := if decide (col + diag_diff < n ∧ col + diag_diff ∈ s1.1)
            then (s1.1 ∖ {[col + diag_diff]}, true) else s1 in
  if decide (0 ≤ col - diag_diff ∧ col - diag_diff ∈ s2.1)
  then (s2.1 ∖ {[col - diag_diff]}, true) else s2.

(** The loop of [__init__] (lines 103-110). *)
Definition fresh_domains (n : Z) (partial_assignment : assignment) : domain_map :=
  foldl (λ D row,
           match partial_assignment !! row with
           | Some col => <[row := {[col]}]> D
           | None => <[row := list_to_set (range n)]> D
           end) ∅ (range n).

(** [initialize_domains] (lines 115-132).  The dict is walked in some
    order; the removals commute, so [map_to_list]'s order serves. *)
Definition initialize_domains (n : Z) (partial_assignment : assignment)
    (D : domain_map) : domain_map :=
  foldl (λ D rc,
           foldl (λ D other_row,
                    if decide (other_row ≠ rc.1 ∧ partial_assignment !! other_row = None)
                    then alter (λ d, (discard_attacked n rc.2 (Z.abs (other_row - rc.1)) d).1)
                               other_row D
                    else D) D (range n))
        D (map_to_list partial_assignment).

(** [NQueensCSP(n, partial_assignment)]: the domain map after [__init__]. *)
Definition NQueensCSP (n : Z) (partial_assignment : assignment) : domain_map :=
  initialize_domains n partial_assignment (fresh_domains n partial_assignment).

(** ** Constraint propagation: [revise] and [ac3] *)

Section Propagation.
Context `{SetIter}.

(** The general branch of [revise] (lines 198-214): walk a snapshot of
    row_i's set and remove each column that conflicts with every column
    of row_j's set. *)
Definition revise_general (D : domain_map) (row_i row_j : Z) : bool * domain_map :=
  let r := foldl (λ acc col_i,
                    if decide (Forall (λ col_j, Attacks row_i col_i row_j col_j)
                                      (set_iter (D !!! row_j)))
                    then (acc.1 ∖ {[col_i]}, true)
                    else acc)
                 (D !!! row_i, false) (set_iter (D !!! row_i)) in
  (r.2, alter (λ _, r.1) row_i D).

(** [revise] (lines 164-214). *)
Definition revise (n : Z) (D : domain_map) (row_i row_j : Z) : bool * domain_map :=
  if decide (size (D !!! row_j) = 1%nat) then
    match set_iter (D !!! row_j) with
    | col_j :: _ =>
        let r := discard_attacked n col_j (Z.abs (row_i - row_j)) (D !!! row_i) in
        (r.2, alter (λ _, r.1) row_i D)
    | [] => (false, D)
    end
  else revise_general D row_i row_j.

(** The initial work queue of [ac3] (lines 142-146). *)
Definition arcs (n : Z) : list (Z * Z) :=
  i ← range n; j ← range n; if decide (i ≠ j) then [(i, j)] else [].

(** The pairs re-enqueued after row_i changed (lines 158-160). *)
Definition neighbours (n row_i row_j : Z) : list (Z * Z) :=
  k ← range n; if decide (k ≠ row_i ∧ k ≠ row_j) then [(k, row_i)] else [].

(** The [while queue] loop of [ac3] (lines 148-162); one unit of fuel per
    popped pair, [None] when the fuel is used up. *)
Fixpoint ac3_loop (fuel : nat) (n : Z) (queue : list (Z * Z)) (D : domain_map)
  : option (bool * domain_map) :=
  match queue with
  | [] => Some (true, D)
  | (row_i, row_j) :: queue' =>
      match fuel with
      | O => None
      | S fuel' =>
          let '(revised, D') := revise n D row_i row_j in
          if revised then
            if decide (D' !!! row_i = ∅) then Some (false, D')
            else ac3_loop fuel' n (queue' ++ neighbours n row_i row_j) D'
          else ac3_loop fuel' n queue' D'
      end
  end.

(** Sum of the domain sizes of the board's rows: the quantity that
    bounds the number of re-enqueueings. *)
Definition total_size (n : Z) (D : domain_map) : nat :=
  sum_list ((λ row, size (D !!! row)) <$> range n).

(** Enough fuel for [ac3] on [D] (see [ac3_loop_fuel]). *)
Definition ac3_fuel (n : Z) (D : domain_map) : nat :=
  S (length (arcs n) + Z.to_nat n * total_size n D).

(** [ac3] (lines 134-162). *)
Definition ac3 (n : Z) (D : domain_map) : option (bool * domain_map) :=
  ac3_loop (ac3_fuel n D) n (arcs n) D.
End Propagation.

(** ** Variable and value ordering, consistency, forward checking *)

Section Search.
Context `{SetIter}.

(** The list comprehension of [select_unassigned_variable] (line 228). *)
Definition unassigned (n : Z) (a : assignment) : list Z :=
  filter (λ row, a !! row = None) (range n).

(** [select_unassigned_variable] (lines 216-231), the MRV heuristic. *)
Definition select_unassigned_variable (n : Z) (D : domain_map) (a : assignment)
  : option Z :=
  py_min (λ row, size (D !!! row)) (unassigned n a).

(** The [conflicts] counter of [order_domain_values] for one column
    (lines 249-258). *)
Definition lcv_conflicts (n : Z) (D : domain_map) (row : Z) (a : assignment)
    (col : Z) : nat :=
  foldl (λ conflicts other_row,
           if decide (other_row ≠ row ∧ a !! other_row = None)
           then foldl (λ conflicts other_col,
                         if decide (Attacks row col other_row other_col)
                         then S conflicts else conflicts)
                      conflicts (set_iter (D !!! other_row))
           else conflicts) 0%nat (range n).

(** [order_domain_values] (lines 233-265), the LCV heuristic. *)
Definition order_domain_values (n : Z) (D : domain_map) (row : Z) (a : assignment)
  : list Z :=
  let value_conflicts :=
    (λ col, (col, lcv_conflicts n D row a col)) <$> set_iter (D !!! row) in
  fst <$> stable_sort snd value_conflicts.

(** [is_consistent] (lines 267-283). *)
Definition is_consistent (row col : Z) (a : assignment) : bool :=
  bool_decide (map_Forall (λ r c, ¬ Attacks r c row col) a).

(** The body of the loop of [forward_check] for one [other_row] that
    passed the test of line 299 (lines 301-313): prune the attacked
    columns from its set and log them under [other_row]. *)
Definition prune_row (row col other_row : Z) (D : domain_map) (pruned : pruning)
  : domain_map * pruning :=
  let r := foldl (λ acc other_col,
                    if decide (Attacks row col other_row other_col)
                    then (acc.1 ∖ {[other_col]}, acc.2 ++ [other_col])
                    else acc)
                 (D !!! other_row, []) (set_iter (D !!! other_row)) in
  (alter (λ _, r.1) other_row D,
   if decide (r.2 = []) then pruned
   else <[other_row := pruned !!! other_row ++ r.2]> pruned).

(** The loop of [forward_check] over the rows still to visit. *)
Fixpoint forward_check_loop (rows : list Z) (row col : Z) (a : assignment)
    (D : domain_map) (pruned : pruning) : bool * domain_map * pruning :=
  match rows with
  | [] => (true, D, pruned)
  | other_row :: rows' =>
      if decide (other_row ≠ row ∧ a !! other_row = None) then
        let '(D', pruned') := prune_row row col other_row D pruned in
        if decide (D' !!! other_row = ∅) then (false, D', pruned')
        else forward_check_loop rows' row col a D' pruned'
      else forward_check_loop rows' row col a D pruned
  end.

(** [forward_check] (lines 285-319). *)
Definition forward_check (n row col : Z) (a : assignment) (D : domain_map)
    (pruned : pruning) : bool * domain_map * pruning :=
  forward_check_loop (range n) row col a D pruned.

(** The restoring loop of [backtrack] (lines 373-374):
    [self.domains[r].update(cols)] for every logged row. *)
Definition restore (local_pruned : pruning) (D : domain_map) : domain_map :=
  foldl (λ D rc, alter (λ d, d ∪ list_to_set rc.2) rc.1 D) D (map_to_list local_pruned).

(** ** Backtracking search

    [backtrack] mutates the one [assignment] dict it was given and, on
    success, returns that very object; the embedding threads the dict
    and the domain map through every call and hands both back.  The
    parameter [pruned_domains] of the source is only passed along and
    never read, so it is left out. *)

(** One pass of the body of the [for col] loop (lines 358-376) for a
    candidate [col], with [rec] standing for the recursive call.  A
    result other than [NoSolution] is the [return result] of line 370
    (or an exception passing through); [NoSolution] means that the
    branch failed, or was never entered, and the loop goes on. *)
Definition attempt (rec : assignment → domain_map → result * assignment * domain_map)
    (n row col : Z) (a : assignment) (D : domain_map)
  : result * assignment * domain_map :=
  if is_consistent row col a then
    let a1 := <[row := col]> a in
    let '(ok, D1, local_pruned) := forward_check n row col a1 D ∅ in
    let '(res, a2, D2) := if ok then rec a1 D1 else (NoSolution, a1, D1) in
    match res with
    | NoSolution => (NoSolution, delete row a2, restore local_pruned D2)
    | _ => (res, a2, D2)
    end
  else (NoSolution, a, D).

(** The [for col in ...] loop of [backtrack] (lines 357-378). *)
Fixpoint try_values (rec : assignment → domain_map → result * assignment * domain_map)
    (n row : Z) (cols : list Z) (a : assignment) (D : domain_map)
  : result * assignment * domain_map :=
  match cols with
  | [] => (NoSolution, a, D)
  | col :: cols' =>
      let '(res, a', D') := attempt rec n row col a D in
      match res with
      | NoSolution => try_values rec n row cols' a' D'
      | _ => (res, a', D')
      end
  end.

(** [backtrack] (lines 338-378); [fuel] bounds the recursion depth. *)
Fixpoint backtrack (fuel : nat) (n : Z) (a : assignment) (D : domain_map)
  : result * assignment * domain_map :=
  match fuel with
  | O => (OutOfFuel, a, D)
  | S fuel' =>
      if decide (len a = n) then (Solution a, a, D)
      else
        match select_unassigned_variable n D a with
        | None => (Raised, a, D)
        | Some row =>
            try_values (backtrack fuel' n) n row (order_domain_values n D row a) a D
        end
  end.

(** [backtrack_search] (lines 321-336).  Each recursive call commits one
    more row of the board, so [n + 1] levels are enough. *)
Definition backtrack_search (n : Z) (partial_assignment : assignment)
    (D : domain_map) : result :=
  match ac3 n D with
  | None => OutOfFuel
  | Some (false, _) => NoSolution
  | Some (true, D') => (backtrack (S (Z.to_nat n)) n partial_assignment D').1.1
  end.

(** ** Min-conflicts local search *)

(** [count_conflicts] (lines 462-482). *)
Definition count_conflicts (row col : Z) (a : assignment) : nat :=
  length (filter (λ rc, rc.1 ≠ row ∧ Attacks rc.1 rc.2 row col) (map_to_list a)).

(** The running minimum kept by both column loops of [min_conflicts]
    (lines 399-408 and 436-454); [None] is [float('inf')]. *)
Definition best_cols_of (conflicts_of : Z → nat) (cols : list Z) : list Z :=
  (foldl (λ acc col,
            let conflicts := conflicts_of col in
            match acc.1 with
            | None => (Some conflicts, [col])
            | Some min_conflicts =>
                if (conflicts <? min_conflicts)%nat then (Some conflicts, [col])
                else if (conflicts =? min_conflicts)%nat then (acc.1, acc.2 ++ [col])
                else acc
            end) (None, []) cols).2.

(** The seeding loop (lines 394-414); [None] is an exception. *)
Fixpoint seed (rows : list Z) (n : Z) (D : domain_map) (a : assignment)
    (rnd : nat → nat) (k : nat) : option (assignment * nat) :=
  match rows with
  | [] => Some (a, k)
  | row :: rows' =>
      if decide (a !! row = None) then
        match set_iter (D !!! row) with
        | [] =>
            col ← randint0 (rnd k) (n - 1);
            seed rows' n D (<[row := col]> a) rnd (S k)
        | cols =>
            col ← choice (rnd k) (best_cols_of (λ col, count_conflicts row col a) cols);
            seed rows' n D (<[row := col]> a) rnd (S k)
        end
      else seed rows' n D a rnd k
  end.

(** The list [conflicted_rows] of one repair step (lines 422-427);
    [None] is the [KeyError] of [assignment[row]]. *)
Fixpoint conflicted_rows (rows : list Z) (fixed_rows : gset Z) (a : assignment)
  : option (list Z) :=
  match rows with
  | [] => Some []
  | row :: rows' =>
      if decide (row ∉ fixed_rows) then
        col ← a !! row;
        rest ← conflicted_rows rows' fixed_rows a;
        Some (if decide (0 < count_conflicts row col a)%nat then row :: rest else rest)
      else conflicted_rows rows' fixed_rows a
  end.

(** The repair loop [for step in range(max_steps)] (lines 420-460). *)
Fixpoint repair (steps : nat) (n : Z) (fixed_rows : gset Z) (a : assignment)
    (rnd : nat → nat) (k : nat) : result :=
  match steps with
  | O => NoSolution
  | S steps' =>
      match conflicted_rows (range n) fixed_rows a with
      | None => Raised
      | Some [] => Solution a
      | Some rows =>
          match choice (rnd k) rows with
          | None => Raised
          | Some row =>
              let best_cols :=
                best_cols_of (λ col, count_conflicts row col (<[row := col]> a)) (range n) in
              match choice (rnd (S k)) best_cols with
              | None => Raised
              | Some col => repair steps' n fixed_rows (<[row := col]> a) rnd (S (S k))
              end
          end
      end
  end.

(** [min_conflicts] (lines 380-460). *)
Definition min_conflicts (n : Z) (partial_assignment : assignment) (D : domain_map)
    (max_steps : Z) (rnd : nat → nat) : result :=
  match seed (range n) n D partial_assignment rnd 0 with
  | None => Raised
  | Some (a, k) => repair (Z.to_nat max_steps) n (dom partial_assignment) a rnd k
  end.

(** [solve] (lines 484-503) on a freshly built [NQueensCSP(n,
    partial_assignment)]; the timing and printing are left out. *)
Definition solve (n : Z) (partial_assignment : assignment) (rnd : nat → nat) : result :=
  let D := NQueensCSP n partial_assignment in
  if decide (n ≤ 100) then backtrack_search n partial_assignment D
  else min_conflicts n partial_assignment D (n * 100) rnd.
End Search.

(** ** Input parsing: [read_input] (lines 27-56)

    The file is given by the list [f.readlines()] returns.  Python's
    [str.strip] and [int] are parameters of the embedding; [int line = None]
    stands for the [ValueError] that the [except] clause swallows. *)

Section ReadInput.
Variable strip : string → string.
Variable int : string → option Z.

(** The list comprehension of line 43. *)
Definition stripped_lines (lines : list string) : list string :=
  strip <$> filter (λ line, strip line ≠ EmptyString) lines.

Definition read_input (lines : list string) : assignment * Z :=
  let lines := stripped_lines lines in
  let n := Z.of_nat (length lines) in
  let partial_assignment :=
    foldl (λ (pa : assignment) (rl : Z * string),
             match int rl.2 with
             | Some col => if decide (0 ≤ col < n) then <[rl.1 := col]> pa else pa
             | None => pa
             end) ∅ (zip (range n) lines) in
  (partial_assignment, n).
End ReadInput.

(** Stand-ins for [str.strip] and [int] on plain ASCII input, used to run
    [read_input] on examples: [ascii_int] reads an optionally signed
    decimal numeral. *)
Fixpoint lstrip (s : string) : string :=
  match s with
  | String c s' => if Ascii.is_space c then lstrip s' else s
  | EmptyString => EmptyString
  end.

Definition ascii_strip (s : string) : string :=
  String.rev (lstrip (String.rev (lstrip s))).

Fixpoint digits_value (s : string) (acc : Z) : option Z :=
  match s with
  | EmptyString => Some acc
  | String c s' => d ← Ascii.is_nat c; digits_value s' (10 * acc + Z.of_nat d)
  end.

(** A line as [readlines] returns it, with its newline. *)
Definition with_newline (s : string) : string :=
  s +:+ String "010"%char EmptyString.

Definition ascii_int (s : string) : option Z :=
  match s with
  | EmptyString => None
  | String "-"%char EmptyString => None
  | String "+"%char EmptyString => None
  | String "-"%char s' => Z.opp <$> digits_value s' 0
  | String "+"%char s' => digits_value s' 0
  | _ => digits_value s 0
  end.

(** ** Output: [print_solution] (lines 59-83) and [main] (lines 506-537)

    Standard output is the list of the texts handed to [print], one entry
    per call, in order ([print] ends each with a newline of its own).
    [str] of an [int], which the f-strings apply, is [pretty]: the decimal
    numeral, with a leading minus sign below zero. *)

Definition newline : string := String "010"%char EmptyString.

(** The f-string of line 71. *)
Definition row_line (row col : Z) : string :=
  "Row " +:+ pretty row +:+ " -> Column " +:+ pretty col.

(** The inner loop of lines 77-82 for a row whose queen is at [queen]. *)
Definition board_line (n queen : Z) : string :=
  foldl (λ line col, line +:+ (if decide (queen = col) then "Q " else ". "))
        EmptyString (range n).

(** A loop [for row in range(n): print(text(row, solution[row]))] (lines
    70-71 and 76-83): the output so far, and the row whose lookup raised
    [KeyError], if one did. *)
Fixpoint print_each (text : Z → Z → string) (rows : list Z) (solution : assignment)
    (out : list string) : list string * option Z :=
  match rows with
  | [] => (out, None)
  | row :: rows' =>
      match solution !! row with
      | Some col => print_each text rows' solution (out ++ [text row col])
      | None => (out, Some row)
      end
  end.

(** [print_solution] (lines 59-83). *)
Definition print_solution (solution : assignment) (n : Z) : list string * option Z :=
  let out := [newline +:+ "Solution for " +:+ pretty n +:+ "x" +:+ pretty n +:+ " board:"] in
  match print_each row_line (range n) solution out with
  | (out, Some row) => (out, Some row)
  | (out, None) =>
      if decide (n ≤ 50) then
        print_each (λ _ col, board_line n col) (range n) solution
                   (out ++ [newline +:+ "Visual representation:"])
      else (out, None)
  end.

(** [repr] of the dict [read_input] builds, as the f-string of line 520
    prints it.  A dict is shown in insertion order, and [read_input]
    inserts the rows in increasing order. *)
Definition dict_repr (a : assignment) : string :=
  "{" +:+ String.concat ", "
            ((λ row, pretty row +:+ ": " +:+ pretty (a !!! row)) <$>
               ascending_iter (dom a)) +:+ "}".

Section Main.
Context `{SetIter}.
(** [str.strip] and [int], as for [read_input]. *)
Variable strip : string → string.
Variable int : string → option Z.
(** The file system: [open(filename).readlines()], or the text of the
    exception that opening or reading the file raised. *)
Variable readlines : string → string + list string.
(** The text [f"{end_time - start_time:.2f}"] of the line [solve] prints. *)
Variable elapsed : string.
(** [str(e)] of an exception leaving [solve]. *)
Variable error_text : string.

(** [main] (lines 506-537) for [sys.argv = argv]; the line
    [Solved in ... seconds] is the one [solve] prints before it returns
    (line 501).  An empty dict is falsy, so [if solution:] sends it to
    the [else] branch. *)
Definition main (argv : list string) (rnd : nat → nat) : list string :=
  match argv with
  | [_; input_file] =>
      ["Reading input from " +:+ input_file] ++
      match readlines input_file with
      | inl message => ["Error: " +:+ message]
      | inr lines =>
          let partial_assignment := (read_input strip int lines).1 in
          let n := (read_input strip int lines).2 in
          ["Board size: " +:+ pretty n +:+ "x" +:+ pretty n;
           "Partial assignment: " +:+ dict_repr partial_assignment] ++
          (if decide (n < 10 ∨ 1000 < n)
           then ["Warning: Board size n=" +:+ pretty n +:+
                 " is outside the specified constraints (10 <= n <= 1000)"]
           else []) ++
          match solve n partial_assignment rnd with
          | Solution solution =>
              ["Solved in " +:+ elapsed +:+ " seconds"] ++
              (if decide (solution = ∅) then ["No solution found."]
               else (print_solution solution n).1 ++
                    match (print_solution solution n).2 with
                    | Some row => ["Error: " +:+ pretty row]
                    | None => []
                    end)
          | NoSolution => ["Solved in " +:+ elapsed +:+ " seconds"; "No solution found."]
          | Raised | OutOfFuel => ["Error: " +:+ error_text]
          end
      end
  | _ => ["Usage: python n_queens.py <input_file>"]
  end.
End Main.

(** ** The oracle of the test suite

    [is_valid_solution] of [test_n_queens.py] (lines 137-149): two nested
    loops over the items of the dict, [False] at the first pair of
    distinct rows that share a column or a diagonal. *)
Definition is_valid_solution (a : assignment) : bool :=
  forallb (λ rc1,
    forallb (λ rc2,
      negb (bool_decide (rc1.1 ≠ rc2.1 ∧ Attacks rc1.1 rc1.2 rc2.1 rc2.2)))
      (map_to_list a))
    (map_to_list a).

(** * Vocabulary of the specification *)

(** The column [x] is none of the three columns that the guarded removals
    of [discard_attacked] take out for a queen at column [col] and row
    distance [diag_diff]. *)
Definition spared (n col diag_diff x : Z) : Prop :=
  x ≠ col ∧ ¬ (x = col + diag_diff ∧ col + diag_diff < n) ∧
  ¬ (x = col - diag_diff ∧ 0 ≤ col - diag_diff).

(** No two queens of [a] share a column or a diagonal. *)
Definition zero_conflicts (a : assignment) : Prop :=
  ∀ r1 c1 r2 c2, a !! r1 = Some c1 → a !! r2 = Some c2 → r1 ≠ r2 →
    c1 ≠ c2 ∧ Z.abs (r1 - r2) ≠ Z.abs (c1 - c2).

(** [a] assigns exactly the rows [0 .. n-1]. *)
Definition complete (n : Z) (a : assignment) : Prop :=
  dom a = list_to_set (range n).

(** Every column of [a] lies in [0 .. n-1]. *)
Definition on_board (n : Z) (a : assignment) : Prop :=
  ∀ r c, a !! r = Some c → 0 ≤ c < n.

(** Every row of [a] lies in [0 .. n-1]. *)
Definition rows_on_board (n : Z) (a : assignment) : Prop :=
  ∀ r, is_Some (a !! r) → 0 ≤ r < n.

(** A valid complete n-queens placement. *)
Definition is_solution (n : Z) (a : assignment) : Prop :=
  complete n a ∧ on_board n a ∧ zero_conflicts a.

(** The domain map offers only columns of the board. *)
Definition domains_on_board (n : Z) (D : domain_map) : Prop :=
  ∀ r c, c ∈ D !!! r → 0 ≤ c < n.

(** The placement [S] is still possible: on every row of the board that
    [a] leaves free, the column [S] gives it is in that row's set. *)
Definition offers (n : Z) (D : domain_map) (a S : assignment) : Prop :=
  ∀ r c, 0 ≤ r < n → a !! r = None → S !! r = Some c → c ∈ D !!! r.

(** The domain map [D] together with the log [pruned] accounts for the
    map [D0] the frame started from: putting the logged columns back
    gives [D0]. *)
Definition accounts_for (D0 D : domain_map) (pruned : pruning) : Prop :=
  ∀ r, D0 !! r = (λ d, d ∪ list_to_set (pruned !!! r)) <$> D !! r.

(** What a frame of [backtrack] owes its caller: on failure the assignment
    and the domain map are exactly as they were on entry; on success the
    returned dict is the assignment store itself and extends the one
    received. *)
Definition frame_post (a : assignment) (D : domain_map)
    (out : result * assignment * domain_map) : Prop :=
  match out.1.1 with
  | NoSolution => out.1.2 = a ∧ out.2 = D
  | Solution A => A = out.1.2 ∧ a ⊆ out.1.2
  | _ => True
  end.

Definition frame_ok (rec : assignment → domain_map → result * assignment * domain_map)
  : Prop := ∀ a D, frame_post a D (rec a D).

(** A board whose first two rows are fixed at columns beyond the board:
    [NQueensCSP(4, {0: 6, 1: 5})]. *)
Definition off_board_pair : domain_map := NQueensCSP 4 {[0 := 6; 1 := 5]}.

(** A known placement for each board size (even columns first, then odd
    ones, with the usual adjustment when [n mod 6] is 2 or 3).  It is not
    part of the program; it serves to show that a valid placement exists. *)
Definition staircase (n : Z) : list Z :=
  let ev := (λ i, 2 * i + 2) <$> seqZ 0 (n / 2) in
  let od := (λ i, 2 * i + 1) <$> seqZ 0 ((n + 1) / 2) in
  let cols :=
    if decide (n `mod` 6 = 2)
    then ev ++ [3; 1] ++ filter (λ x, x ∉ [1; 3; 5]) od ++ [5]
    else if decide (n `mod` 6 = 3)
    then filter (λ x, x ≠ 2) ev ++ [2] ++ filter (λ x, x ∉ [1; 3]) od ++ [1; 3]
    else ev ++ od in
  (λ c, c - 1) <$> cols.

Definition placement (n : Z) : assignment := list_to_map (zip (range n) (staircase n)).

(** A boolean test of [is_solution]. *)
Definition check_solution (n : Z) (a : assignment) : bool :=
  bool_decide (dom a = list_to_set (range n)) &&
  forallb (λ r1,
             match a !! r1 with
             | None => false
             | Some c1 =>
                 (0 <=? c1) && (c1 <? n) &&
                 forallb (λ r2,
                            match a !! r2 with
                            | None => false
                            | Some c2 =>
                                (r1 =? r2) ||
                                (negb (c1 =? c2) &&
                                 negb (Z.abs (r1 - r2) =? Z.abs (c1 - c2)))
                            end) (range n)
             end) (range n).

(** The random source whose every draw is 0: [random.choice] then always
    returns the first element of its sequence. *)
Definition first_pick : nat → nat := λ _, 0%nat.

(** The assignment [min_conflicts] has built on the empty 101-board when
    its seeding loop ends, under [first_pick] and CPython's ascending set
    order. *)
Definition seeded_101 : assignment :=
  Eval vm_compute in
    (default (∅, 0%nat) (seed (range 101) 101 (NQueensCSP 101 ∅) ∅ first_pick 0)).1.

(** The same run two repair moves later: row 0 has gone to column 72 and
    row 1 to column 68. *)
Definition stuck_101 : assignment := <[1 := 68]> (<[0 := 72]> seeded_101).

(** The partial assignment that fixes every row of the board at column 0. *)
Definition column_0 (n : Z) : assignment := list_to_map ((λ r, (r, 0)) <$> range n).

(** A deterministic random source under which min-conflicts converges on
    the 101-board with rows 0 and 1 fixed on one diagonal. *)
Definition half_pick : nat → nat := λ k, (k / 2)%nat.

(** Whether a call returned a dict. *)
Definition is_Solution (res : result) : bool :=
  match res with Solution _ => true | _ => false end.

(** The pair of rows [(i, j)] is arc consistent: every column left to
    row [i] can be paired with a column of row [j] that it does not
    attack. *)
Definition arc_consistent (D : domain_map) (i j : Z) : Prop :=
  ∀ x, x ∈ D !!! i → ∃ w, w ∈ D !!! j ∧ ¬ Attacks i x j w.

(** An input file for the examples: a queen at column 1 of row 0 and
    three free rows. *)
Definition one_queen_file : list string := with_newline <$> ["1"; "-1"; "-1"; "-1"].

(** * Verification *)

Arguments revise : simpl never.
Arguments revise_general : simpl never.
Arguments prune_row : simpl never.
Arguments forward_check : simpl never.
Arguments restore : simpl never.
Arguments attempt : simpl never.
Arguments order_domain_values : simpl never.
Arguments select_unassigned_variable : simpl never.
Arguments is_consistent : simpl never.
Arguments count_conflicts : simpl never.
Arguments best_cols_of : simpl never.
Arguments NQueensCSP : simpl never.

(** ** Built-ins *)

Lemma elem_of_range n x : x ∈ range n ↔ 0 ≤ x < n.
Proof. unfold range. rewrite elem_of_seqZ. lia. Qed.

Lemma NoDup_range n : NoDup (range n).
Proof. apply NoDup_seqZ. Qed.

Lemma length_range n : length (range n) = Z.to_nat n.
Proof. apply length_seqZ. Qed.

Lemma insert_by_key_perm {A} (key : A → nat) x l : insert_by_key key x l ≡ₚ x :: l.
Proof.
  induction l as [|y l IH]; simpl; [done|].
  destruct (key x <=? key y)%nat; [done|].
  rewrite IH. apply Permutation_swap.
Qed.

Lemma stable_sort_perm {A} (key : A → nat) l : stable_sort key l ≡ₚ l.
Proof.
  induction l as [|x l IH]; simpl; [done|].
  rewrite insert_by_key_perm. by f_equiv.
Qed.

Lemma py_min_elem_of {A} (key : A → nat) l x : py_min key l = Some x → x ∈ l.
Proof.
  destruct l as [|y l]; simpl; [done|].
  intros [= <-]. revert y. induction l as [|z l IH]; intros y; simpl.
  - left.
  - destruct (key z <? key y)%nat.
    + right. apply IH.
    + specialize (IH y). apply elem_of_cons in IH as [->|IH]; [left|right; by right].
Qed.

Lemma py_min_is_Some {A} (key : A → nat) l : l ≠ [] → is_Some (py_min key l).
Proof. destruct l; [done|]. simpl. eauto. Qed.

Section SetIterFacts.
Context `{SetIter}.

Lemma elem_of_set_iter X x : x ∈ set_iter X ↔ x ∈ X.
Proof. rewrite set_iter_perm. apply elem_of_elements. Qed.

Lemma NoDup_set_iter X : NoDup (set_iter X).
Proof. rewrite set_iter_perm. apply NoDup_elements. Qed.

Lemma length_set_iter X : length (set_iter X) = size X.
Proof. by rewrite set_iter_perm. Qed.

Lemma set_iter_nil X : set_iter X = [] ↔ X = ∅.
Proof.
  split.
  - intros E. apply set_eq. intros x. rewrite <- elem_of_set_iter, E. set_solver.
  - intros ->. apply Permutation_nil_r. rewrite set_iter_perm.
    by rewrite elements_empty.
Qed.

Lemma set_iter_singleton X c l : size X = 1%nat → set_iter X = c :: l → X = {[c]} ∧ l = [].
Proof.
  intros Hs E. apply size_1_elem_of in Hs as [x Hx]. apply leibniz_equiv in Hx.
  subst X. pose proof (length_set_iter {[x]}) as Hl.
  rewrite E, size_singleton in Hl. destruct l; [|done]. split; [|done].
  assert (c ∈ set_iter {[x]}) as Hc by (rewrite E; left).
  apply elem_of_set_iter in Hc. set_solver.
Qed.
End SetIterFacts.

(** ** In-place updates of one row's set *)

Lemma alter_const_total (D : domain_map) i X :
  X ⊆ D !!! i → alter (λ _, X) i D !!! i = X.
Proof.
  intros HX. rewrite lookup_total_alter_eq. rewrite lookup_total_alt in HX.
  destruct (D !! i); simpl in *; [done|]. set_solver.
Qed.

Lemma alter_const_id (D : domain_map) i : alter (λ _, D !!! i) i D = D.
Proof.
  apply map_eq. intros r. rewrite lookup_alter. case_decide; [subst|done].
  rewrite lookup_total_alt. by destruct (D !! r).
Qed.

Lemma alter_total_ne (D : domain_map) f i r : r ≠ i → alter f i D !!! r = D !!! r.
Proof. intros. by apply lookup_total_alter_ne. Qed.

(** ** The removal loops *)

Lemma discard_attacked_elem n c d X x :
  x ∈ (discard_attacked n c d X).1 ↔
  x ∈ X ∧ x ≠ c ∧ ¬ (x = c + d ∧ c + d < n) ∧ ¬ (x = c - d ∧ 0 ≤ c - d).
Proof.
  unfold discard_attacked.
  repeat (destruct (decide _); simpl); set_solver by lia.
Qed.

Lemma discard_attacked_subseteq n c d X : (discard_attacked n c d X).1 ⊆ X.
Proof. intros x. rewrite discard_attacked_elem. tauto. Qed.

Lemma discard_attacked_false n c d X :
  (discard_attacked n c d X).2 = false → (discard_attacked n c d X).1 = X.
Proof. unfold discard_attacked. repeat (destruct (decide _); simpl); done. Qed.

Lemma discard_attacked_true n c d X :
  (discard_attacked n c d X).2 = true → (discard_attacked n c d X).1 ≠ X.
Proof.
  intros Hb E. pose proof (discard_attacked_elem n c d X) as HE. rewrite E in HE.
  clear E. revert Hb. unfold discard_attacked.
  destruct (decide (c ∈ X)) as [Hc|Hc]; simpl.
  { intros _. apply HE in Hc. tauto. }
  destruct (decide (c + d < n ∧ c + d ∈ X)) as [[? Hc']|?]; simpl.
  { intros _. apply HE in Hc'. tauto. }
  destruct (decide (0 ≤ c - d ∧ c - d ∈ X)) as [[? Hc']|?]; simpl; [|done].
  intros _. apply HE in Hc'. tauto.
Qed.

Lemma removal_loop_spec (P : Z → Prop) `{∀ x, Decision (P x)} l (X0 : gset Z) b0 :
  let r := foldl (λ acc x, if decide (P x) then (acc.1 ∖ {[x]}, true) else acc) (X0, b0) l in
  (∀ x, x ∈ r.1 ↔ x ∈ X0 ∧ ¬ (x ∈ l ∧ P x)) ∧
  (r.2 = true ↔ b0 = true ∨ ∃ x, x ∈ l ∧ P x).
Proof.
  revert X0 b0. induction l as [|y l IH]; intros X0 b0; simpl.
  - split; [set_solver|]. split; [by left|]. intros [?|(x & Hx & _)]; [done|].
    by apply elem_of_nil in Hx.
  - destruct (decide (P y)) as [Hy|Hy]; simpl.
    + destruct (IH (X0 ∖ {[y]}) true) as [IH1 IH2]. split.
      * intros x. rewrite IH1. set_solver.
      * rewrite IH2. split; [|by left]. intros _. right. exists y. split; [left|done].
    + destruct (IH X0 b0) as [IH1 IH2]. split.
      * intros x. rewrite IH1. set_solver.
      * rewrite IH2. set_solver.
Qed.

(** ** [revise] *)

Section PropagationFacts.
Context `{SetIter}.

(** Both branches of [revise] replace row_i's set by a subset of it,
    and the flag tells whether the subset is proper. *)
Lemma revise_general_shape D i j :
  ∃ X, revise_general D i j = ((revise_general D i j).1, alter (λ _, X) i D) ∧
       (∀ x, x ∈ X ↔ x ∈ D !!! i ∧ ¬ ∀ w, w ∈ D !!! j → Attacks i x j w) ∧
       ((revise_general D i j).1 = true ↔
          ∃ x, x ∈ D !!! i ∧ ∀ w, w ∈ D !!! j → Attacks i x j w).
Proof.
  unfold revise_general.
  set (P := λ col_i, Forall (λ col_j, Attacks i col_i j col_j) (set_iter (D !!! j))).
  pose proof (removal_loop_spec P (set_iter (D !!! i)) (D !!! i) false) as Hloop.
  cbv zeta in Hloop. fold P. set (r := foldl _ _ _) in *.
  destruct Hloop as [H1 H2]. exists r.1. split; [reflexivity|]. simpl.
  assert (∀ x, P x ↔ ∀ w, w ∈ D !!! j → Attacks i x j w) as HP.
  { intros x. unfold P. rewrite Forall_forall. by setoid_rewrite elem_of_set_iter. }
  split.
  - intros x. rewrite H1, elem_of_set_iter, HP. tauto.
  - rewrite H2. split.
    + intros [?|(x & Hx & HPx)]; [done|]. exists x.
      by rewrite <- elem_of_set_iter, <- HP.
    + intros (x & Hx & HPx). right. exists x.
      by rewrite elem_of_set_iter, HP.
Qed.

Lemma revise_shape n D i j :
  ∃ X, revise n D i j = ((revise n D i j).1, alter (λ _, X) i D) ∧
       X ⊆ D !!! i ∧
       ((revise n D i j).1 = false → X = D !!! i) ∧
       ((revise n D i j).1 = true → X ≠ D !!! i).
Proof.
  unfold revise. destruct (decide (size (D !!! j) = 1%nat)) as [Hs|Hs].
  - destruct (set_iter (D !!! j)) as [|c l] eqn:E.
    + exists (D !!! i). simpl. rewrite alter_const_id. done.
    + eexists. split; [reflexivity|]. simpl.
      split; [apply discard_attacked_subseteq|].
      split; [apply discard_attacked_false|apply discard_attacked_true].
  - destruct (revise_general_shape D i j) as (X & E & HX & Hb).
    exists X. split; [done|]. split; [set_solver|]. split.
    + intros Hf. apply set_eq. intros x. rewrite HX. split; [tauto|].
      intros Hx. split; [done|]. intros Hall.
      assert ((revise_general D i j).1 = true) as Ht by (apply Hb; eauto).
      congruence.
    + intros Ht E'. apply Hb in Ht as (x & Hx & Hall).
      rewrite <- E' in Hx. apply HX in Hx. tauto.
Qed.

Lemma revise_spec n D i j b D' :
  revise n D i j = (b, D') →
  D' !!! i ⊆ D !!! i ∧
  (∀ r, r ≠ i → D' !!! r = D !!! r) ∧
  (b = false → D' = D) ∧
  (b = true → D' !!! i ≠ D !!! i).
Proof.
  intros E. destruct (revise_shape n D i j) as (X & E' & HX & Hf & Ht).
  rewrite E in E', Hf, Ht. simpl in *. injection E' as ->.
  rewrite alter_const_total by done. repeat split.
  - done.
  - intros r Hr. by apply alter_total_ne.
  - intros Hb. rewrite (Hf Hb). apply alter_const_id.
  - done.
Qed.

(** A pair of columns that do not attack each other survives. *)
Lemma revise_keeps n D i j b D' x w :
  revise n D i j = (b, D') →
  x ∈ D !!! i → w ∈ D !!! j → ¬ Attacks i x j w → x ∈ D' !!! i.
Proof.
  unfold revise. intros E Hx Hw Hna.
  destruct (decide (size (D !!! j) = 1%nat)) as [Hs|Hs].
  - destruct (set_iter (D !!! j)) as [|c l] eqn:Ej.
    + by simplify_eq.
    + destruct (set_iter_singleton _ _ _ Hs Ej) as [Hj _].
      injection E as _ <-. rewrite alter_const_total by apply discard_attacked_subseteq.
      apply discard_attacked_elem. rewrite Hj in Hw.
      apply elem_of_singleton in Hw as ->. unfold Attacks in Hna.
      split; [done|]. lia.
  - destruct (revise_general_shape D i j) as (X & E' & HX & _).
    rewrite E in E'. injection E' as ->.
    rewrite alter_const_total by set_solver. apply HX. split; [done|].
    intros Hall. apply Hna, Hall, Hw.
Qed.
End PropagationFacts.

(** ** Termination of [ac3] *)

Lemma sum_list_fmap_le {A} (f g : A → nat) (l : list A) :
  (∀ y, y ∈ l → (f y ≤ g y)%nat) → (sum_list (f <$> l) ≤ sum_list (g <$> l))%nat.
Proof.
  induction l as [|z l IH]; csimpl; intros Hl; [lia|].
  pose proof (Hl z (list_elem_of_here _ _)).
  assert (sum_list (f <$> l) ≤ sum_list (g <$> l))%nat; [|lia].
  apply IH. intros y Hy. apply Hl. by right.
Qed.

Lemma sum_list_fmap_lt {A} (f g : A → nat) (l : list A) x :
  x ∈ l → (∀ y, y ∈ l → (f y ≤ g y)%nat) → (f x < g x)%nat →
  (sum_list (f <$> l) < sum_list (g <$> l))%nat.
Proof.
  intros Hx Hle Hlt.
  induction l as [|z l IH]; [by apply elem_of_nil in Hx|]. csimpl.
  apply elem_of_cons in Hx as [<-|Hx].
  - assert (sum_list (f <$> l) ≤ sum_list (g <$> l))%nat; [|lia].
    apply sum_list_fmap_le. intros y Hy. apply Hle. by right.
  - pose proof (Hle z (list_elem_of_here _ _)).
    assert (sum_list (f <$> l) < sum_list (g <$> l))%nat; [|lia].
    apply IH; [done|]. intros y Hy. apply Hle. by right.
Qed.

Lemma length_bind_le {A B} (f : A → list B) (l : list A) :
  (∀ x, (length (f x) ≤ 1)%nat) → (length (l ≫= f) ≤ length l)%nat.
Proof.
  intros Hf. induction l as [|x l IH]; csimpl; [done|].
  rewrite length_app. specialize (Hf x). lia.
Qed.

Section TerminationFacts.
Context `{SetIter}.

Lemma elem_of_arcs n i j : (i, j) ∈ arcs n ↔ i ∈ range n ∧ j ∈ range n ∧ i ≠ j.
Proof.
  unfold arcs. rewrite list_elem_of_bind. split.
  - intros (i' & Hin & Hi'). apply list_elem_of_bind in Hin as (j' & Hin & Hj').
    destruct (decide (i' ≠ j')); [|by apply elem_of_nil in Hin].
    apply list_elem_of_singleton in Hin. by simplify_eq.
  - intros (Hi & Hj & Hne). exists i. split; [|done].
    apply list_elem_of_bind. exists j. split; [|done].
    rewrite decide_True by done. by apply list_elem_of_singleton.
Qed.

Lemma elem_of_neighbours n i j k r :
  (k, r) ∈ neighbours n i j ↔ k ∈ range n ∧ r = i ∧ k ≠ i ∧ k ≠ j.
Proof.
  unfold neighbours. rewrite list_elem_of_bind. split.
  - intros (k' & Hin & Hk'). destruct (decide (k' ≠ i ∧ k' ≠ j)) as [[??]|?];
      [|by apply elem_of_nil in Hin].
    apply list_elem_of_singleton in Hin. by simplify_eq.
  - intros (Hk & -> & ? & ?). exists k. split; [|done].
    rewrite decide_True by done. by apply list_elem_of_singleton.
Qed.

Lemma length_neighbours n i j : (length (neighbours n i j) ≤ Z.to_nat n)%nat.
Proof.
  unfold neighbours. rewrite <- length_range. apply length_bind_le.
  intros k. destruct (decide _); simpl; lia.
Qed.

(** A revision that reports a change lowers the sum of the domain sizes. *)
Lemma revise_total_size n D i j D' :
  i ∈ range n → revise n D i j = (true, D') →
  (total_size n D' < total_size n D)%nat.
Proof.
  intros Hi E. destruct (revise_spec _ _ _ _ _ _ E) as (Hsub & Hne & _ & Hlt).
  specialize (Hlt eq_refl). unfold total_size.
  apply sum_list_fmap_lt with (x := i); [done| |].
  - intros r _. destruct (decide (r = i)) as [->|Hr].
    + by apply subseteq_size.
    + by rewrite Hne.
  - apply subset_size. split; [done|]. intros Hsup. apply Hlt. set_solver.
Qed.

(** Fuel above [length queue + n * total_size] is never used up, and a
    negative answer comes with an emptied row. *)
Lemma ac3_loop_fuel n fuel queue D :
  Forall (λ p, p.1 ∈ range n) queue →
  (length queue + Z.to_nat n * total_size n D < fuel)%nat →
  ∃ b D', ac3_loop fuel n queue D = Some (b, D') ∧
          (b = false → ∃ row, row ∈ range n ∧ D' !!! row = ∅).
Proof.
  revert queue D. induction fuel as [|fuel IH]; intros queue D Hq Hfuel; [lia|].
  destruct queue as [|[i j] queue]; simpl.
  { exists true, D. split; [done|]. discriminate. }
  apply Forall_cons in Hq as [Hi Hq]. simpl in Hi, Hfuel.
  destruct (revise n D i j) as [[] D'] eqn:E.
  - destruct (decide (D' !!! i = ∅)) as [Hemp|Hemp].
    { exists false, D'. split; [done|]. eauto. }
    apply IH.
    + apply Forall_app. split; [done|]. apply Forall_forall.
      intros [k r] Hk. apply elem_of_neighbours in Hk. simpl. tauto.
    + pose proof (revise_total_size _ _ _ _ _ Hi E).
      pose proof (length_neighbours n i j). rewrite length_app. nia.
  - destruct (revise_spec _ _ _ _ _ _ E) as (_ & _ & Hsame & _).
    rewrite (Hsame eq_refl). apply IH; [done|lia].
Qed.

Lemma ac3_loop_mono n fuel fuel' queue D r :
  ac3_loop fuel n queue D = Some r → (fuel ≤ fuel')%nat →
  ac3_loop fuel' n queue D = Some r.
Proof.
  revert fuel' queue D. induction fuel as [|fuel IH]; intros fuel' queue D.
  - destruct queue as [|[i j] queue]; simpl; [|done]. by destruct fuel'.
  - destruct queue as [|[i j] queue]; simpl; [by destruct fuel'|].
    destruct fuel' as [|fuel']; [lia|]. intros E Hle. simpl.
    destruct (revise n D i j) as [[] D'].
    + destruct (decide (D' !!! i = ∅)); [done|]. apply IH; [done|lia].
    + apply IH; [done|lia].
Qed.

Lemma arcs_in_range n : Forall (λ p, p.1 ∈ range n) (arcs n).
Proof. apply Forall_forall. intros [i j] Hin. apply elem_of_arcs in Hin. simpl. tauto. Qed.

Lemma ac3_is_Some n D : is_Some (ac3 n D).
Proof.
  destruct (ac3_loop_fuel n (ac3_fuel n D) (arcs n) D) as (b & D' & E & _).
  - apply arcs_in_range.
  - unfold ac3_fuel. lia.
  - by exists (b, D').
Qed.
End TerminationFacts.

(** C10.  [ac3] terminates on every board size and every domain map: the
    loop answers within [ac3_fuel n D] pops (and gives the same answer with
    any larger budget), either [True] with the queue empty or [False] with
    the set of some row of the board empty. *)
Theorem ac3_terminates `{SetIter} (n : Z) (D : domain_map) :
  ∃ b D', ac3 n D = Some (b, D') ∧
          (∀ fuel, (ac3_fuel n D ≤ fuel)%nat → ac3_loop fuel n (arcs n) D = Some (b, D')) ∧
          (b = false → ∃ row, row ∈ range n ∧ D' !!! row = ∅).
Proof.
  destruct (ac3_loop_fuel n (ac3_fuel n D) (arcs n) D) as (b & D' & E & Hb).
  { apply arcs_in_range. }
  { unfold ac3_fuel. lia. }
  exists b, D'. split; [done|]. split; [|done].
  intros fuel Hle. by apply ac3_loop_mono with (fuel := ac3_fuel n D).
Qed.

(** ** The singleton branch of [revise] against the general branch *)

(** C9, as stated, fails: on [NQueensCSP(4, {0: 6, 1: 5})] row 1 has the
    singleton set [{5}] and row 0 the set [{6}], on the diagonal of (1, 5).
    The singleton branch skips [5 + 1] because it is not below [n] and
    returns [False] with the map untouched; the general branch would remove
    6 from row 0 and return [True]. *)
Lemma revise_singleton_differs_off_board :
  off_board_pair !!! 1 = {[5]} ∧
  revise 4 off_board_pair 0 1 = (false, off_board_pair) ∧
  revise_general off_board_pair 0 1 = (true, <[0 := ∅]> off_board_pair) ∧
  revise 4 off_board_pair 0 1 ≠ revise_general off_board_pair 0 1.
Proof.
  assert (revise 4 off_board_pair 0 1 = (false, off_board_pair)) as E1
    by (vm_compute; reflexivity).
  assert (revise_general off_board_pair 0 1 = (true, <[0 := ∅]> off_board_pair)) as E2
    by (vm_compute; reflexivity).
  split; [vm_compute; reflexivity|]. split; [exact E1|]. split; [exact E2|].
  rewrite E1, E2. intros [=].
Qed.

(** C9, amended.  When row_j's set is a singleton and every column in
    row_i's set lies on the board, [revise] (which takes the singleton
    branch) leaves the same domain map and returns the same flag as the
    general branch alone. *)
Theorem revise_singleton_is_general `{SetIter} (n : Z) (D : domain_map)
    (row_i row_j c : Z) :
  D !!! row_j = {[c]} →
  (∀ x, x ∈ D !!! row_i → 0 ≤ x < n) →
  revise n D row_i row_j = revise_general D row_i row_j.
Proof.
  intros Hj Hrange.
  destruct (revise_general_shape D row_i row_j) as (X & E & HX & Hb).
  assert (size (D !!! row_j) = 1%nat) as Hs by (by rewrite Hj, size_singleton).
  unfold revise. rewrite decide_True by done.
  destruct (set_iter (D !!! row_j)) as [|c' l] eqn:Ej.
  { apply set_iter_nil in Ej. rewrite Ej in Hs. by rewrite size_empty in Hs. }
  destruct (set_iter_singleton _ _ _ Hs Ej) as [Hc _].
  assert (c' = c) as -> by set_solver.
  set (d := Z.abs (row_i - row_j)).
  assert ((discard_attacked n c d (D !!! row_i)).1 = X) as HeqX.
  { apply set_eq. intros x. rewrite discard_attacked_elem, HX, Hj. split.
    - intros (Hx & ? & ? & ?). split; [done|]. intros Hall.
      specialize (Hall c ltac:(set_solver)). specialize (Hrange x Hx).
      unfold Attacks in Hall. lia.
    - intros [Hx Hall]. split; [done|].
      assert (¬ Attacks row_i x row_j c) as Hna.
      { intros Ha. apply Hall. intros w Hw. by apply elem_of_singleton in Hw as ->. }
      unfold Attacks in Hna. lia. }
  rewrite E, HeqX. f_equal.
  destruct (discard_attacked n c d (D !!! row_i)).2 eqn:Eb1,
           (revise_general D row_i row_j).1 eqn:Eb2; try done.
  - apply discard_attacked_true in Eb1. rewrite HeqX in Eb1.
    exfalso. apply Eb1. apply set_eq. intros x. rewrite HX. split; [tauto|].
    intros Hx. split; [done|]. intros Hall.
    assert (false = true) as Ht by (apply Hb; eauto). done.
  - apply discard_attacked_false in Eb1. rewrite HeqX in Eb1.
    destruct (proj1 Hb eq_refl) as (x & Hx & Hall).
    rewrite <- Eb1 in Hx. apply HX in Hx. tauto.
Qed.

(** The amended C9 at the start of propagation on a plain 4-board with
    row 1 fixed at column 2. *)
Lemma revise_singleton_is_general_witness :
  revise 4 (NQueensCSP 4 {[1 := 2]}) 0 1 = revise_general (NQueensCSP 4 {[1 := 2]}) 0 1.
Proof.
  apply (revise_singleton_is_general 4 (NQueensCSP 4 {[1 := 2]}) 0 1 2).
  - vm_compute. done.
  - intros x Hx.
    assert (x ∈ elements (NQueensCSP 4 {[1 := 2]} !!! 0)) as Hin by by apply elem_of_elements.
    vm_compute in Hin. set_solver by lia.
Defined.

(** ** Forward checking and its undoing *)

Lemma prune_loop_spec (P : Z → Prop) `{∀ x, Decision (P x)} l (X0 : gset Z) l0 :
  let r := foldl (λ acc x, if decide (P x) then (acc.1 ∖ {[x]}, acc.2 ++ [x]) else acc)
                 (X0, l0) l in
  (∀ x, x ∈ r.1 ↔ x ∈ X0 ∧ ¬ (x ∈ l ∧ P x)) ∧ r.2 = l0 ++ filter P l.
Proof.
  revert X0 l0. induction l as [|y l IH]; intros X0 l0; simpl.
  - split; [set_solver|]. by rewrite app_nil_r.
  - rewrite filter_cons. destruct (decide (P y)) as [Hy|Hy]; simpl.
    + destruct (IH (X0 ∖ {[y]}) (l0 ++ [y])) as [IH1 IH2]. split.
      * intros x. rewrite IH1. set_solver.
      * rewrite IH2. by rewrite <- app_assoc.
    + destruct (IH X0 l0) as [IH1 IH2]. split; [|done].
      intros x. rewrite IH1. set_solver.
Qed.

Section ForwardCheckFacts.
Context `{SetIter}.

Lemma prune_row_spec row col o D pruned D' pruned' :
  prune_row row col o D pruned = (D', pruned') →
  D' = alter (λ d, d ∖ list_to_set
                (filter (λ c, Attacks row col o c) (set_iter (D !!! o)))) o D ∧
  pruned' !!! o = pruned !!! o ++ filter (λ c, Attacks row col o c) (set_iter (D !!! o)) ∧
  (∀ r, r ≠ o → pruned' !!! r = pruned !!! r).
Proof.
  unfold prune_row. intros E.
  set (pv := filter (λ c, Attacks row col o c) (set_iter (D !!! o))).
  pose proof (prune_loop_spec (λ c, Attacks row col o c) (set_iter (D !!! o))
                (D !!! o) []) as Hloop.
  cbv zeta in Hloop. set (r := foldl _ _ _) in *. destruct Hloop as [H1 H2].
  simpl in H2. fold pv in H2. injection E as <- <-. rewrite H2. split; [|split].
  - apply map_eq. intros k. rewrite !lookup_alter. case_decide; [subst k|done].
    destruct (D !! o) as [d|] eqn:Ed; simpl; [|done].
    f_equal. apply set_eq. intros x. rewrite H1, elem_of_difference, elem_of_list_to_set.
    unfold pv. rewrite list_elem_of_filter, (lookup_total_correct _ _ _ Ed). tauto.
  - destruct (decide (pv = [])) as [->|?].
    + by rewrite app_nil_r.
    + by rewrite lookup_total_insert_eq.
  - intros k Hk. destruct (decide (pv = [])); [done|].
    by rewrite lookup_total_insert_ne.
Qed.

Lemma prune_row_total row col o D pruned D' pruned' x :
  prune_row row col o D pruned = (D', pruned') →
  x ∈ D' !!! o ↔ x ∈ D !!! o ∧ ¬ Attacks row col o x.
Proof.
  intros E. destruct (prune_row_spec _ _ _ _ _ _ _ E) as (-> & _ & _).
  rewrite lookup_total_alter_eq, lookup_total_alt.
  destruct (D !! o) as [d|]; simpl; [|set_solver].
  rewrite elem_of_difference, elem_of_list_to_set, list_elem_of_filter, elem_of_set_iter.
  tauto.
Qed.

Lemma prune_row_total_ne row col o D pruned D' pruned' r :
  prune_row row col o D pruned = (D', pruned') → r ≠ o → D' !!! r = D !!! r.
Proof.
  intros E Hr. destruct (prune_row_spec _ _ _ _ _ _ _ E) as (-> & _ & _).
  by apply alter_total_ne.
Qed.

Lemma prune_row_accounts D0 row col o D pruned D' pruned' :
  accounts_for D0 D pruned →
  prune_row row col o D pruned = (D', pruned') →
  accounts_for D0 D' pruned'.
Proof.
  intros Hacc E r. destruct (prune_row_spec _ _ _ _ _ _ _ E) as (-> & Ho & Hne).
  rewrite (Hacc r), lookup_alter. case_decide as Hr.
  - subst r. rewrite Ho. destruct (D !! o) as [d|] eqn:Ed; simpl; [|done].
    f_equal. apply set_eq. intros x.
    rewrite (lookup_total_correct _ _ _ Ed).
    rewrite !elem_of_union, elem_of_difference, !elem_of_list_to_set, elem_of_app,
      list_elem_of_filter, elem_of_set_iter.
    destruct (decide (Attacks row col o x)); tauto.
  - by rewrite Hne.
Qed.

Lemma forward_check_loop_cons o rows row col a D pruned :
  forward_check_loop (o :: rows) row col a D pruned =
  if decide (o ≠ row ∧ a !! o = None) then
    if decide ((prune_row row col o D pruned).1 !!! o = ∅)
    then (false, (prune_row row col o D pruned).1, (prune_row row col o D pruned).2)
    else forward_check_loop rows row col a (prune_row row col o D pruned).1
           (prune_row row col o D pruned).2
  else forward_check_loop rows row col a D pruned.
Proof. cbn [forward_check_loop]. by destruct (prune_row row col o D pruned). Qed.

Lemma forward_check_loop_accounts D0 rows row col a D pruned ok D' pruned' :
  accounts_for D0 D pruned →
  forward_check_loop rows row col a D pruned = (ok, D', pruned') →
  accounts_for D0 D' pruned'.
Proof.
  revert D pruned. induction rows as [|o rows IH]; intros D pruned Hacc.
  - simpl. intros ?. by simplify_eq.
  - rewrite forward_check_loop_cons.
    destruct (decide (o ≠ row ∧ a !! o = None)); [|by apply IH].
    destruct (prune_row row col o D pruned) as [D1 p1] eqn:E. simpl.
    pose proof (prune_row_accounts _ _ _ _ _ _ _ _ Hacc E).
    destruct (decide (D1 !!! o = ∅)); [intros ?; by simplify_eq|by apply IH].
Qed.

Lemma restore_list_lookup (l : list (Z * list Z)) (D : domain_map) r :
  NoDup l.*1 →
  foldl (λ D rc, alter (λ d, d ∪ list_to_set rc.2) rc.1 D) D l !! r =
  (λ d, d ∪ list_to_set (default [] ((list_to_map l : pruning) !! r))) <$> D !! r.
Proof.
  revert D. induction l as [|[k cols] l IH]; intros D Hnd; simpl.
  - rewrite lookup_empty. simpl. destruct (D !! r) as [d|]; simpl; [|done].
    f_equal. set_solver.
  - apply NoDup_cons in Hnd as [Hk Hnd]. rewrite IH by done.
    rewrite lookup_alter, lookup_insert. case_decide as Hr.
    + subst r. rewrite (not_elem_of_list_to_map_1 _ _ Hk). simpl.
      destruct (D !! k) as [d|]; simpl; [|done]. f_equal. set_solver.
    + done.
Qed.

Lemma restore_lookup pruned D r :
  restore pruned D !! r = (λ d, d ∪ list_to_set (pruned !!! r)) <$> D !! r.
Proof.
  unfold restore. rewrite restore_list_lookup by apply NoDup_fst_map_to_list.
  by rewrite list_to_map_to_list, lookup_total_alt.
Qed.

Lemma restore_accounts D0 D pruned : accounts_for D0 D pruned → restore pruned D = D0.
Proof. intros Hacc. apply map_eq. intros r. by rewrite restore_lookup, Hacc. Qed.

Lemma accounts_for_empty D : accounts_for D D ∅.
Proof.
  intros r. rewrite lookup_total_empty. destruct (D !! r) as [d|]; simpl; [|done].
  f_equal. set_solver.
Qed.

(** Undoing what one call of [forward_check] pruned gives back the map
    the call started from, whether the call succeeded or failed. *)
Lemma forward_check_restore n row col a D ok D1 local_pruned :
  forward_check n row col a D ∅ = (ok, D1, local_pruned) →
  restore local_pruned D1 = D.
Proof.
  intros E. apply restore_accounts.
  eapply forward_check_loop_accounts; [apply accounts_for_empty|exact E].
Qed.
End ForwardCheckFacts.

(** ** Search frames of [backtrack] *)

Section BacktrackFacts.
Context `{SetIter}.

Lemma try_values_cons rec n row col cols a D :
  try_values rec n row (col :: cols) a D =
  match (attempt rec n row col a D).1.1 with
  | NoSolution => try_values rec n row cols (attempt rec n row col a D).1.2
                    (attempt rec n row col a D).2
  | _ => attempt rec n row col a D
  end.
Proof.
  cbn [try_values]. destruct (attempt rec n row col a D) as [[[] ?] ?]; done.
Qed.

Lemma backtrack_S fuel n a D :
  backtrack (S fuel) n a D =
  if decide (len a = n) then (Solution a, a, D)
  else match select_unassigned_variable n D a with
       | None => (Raised, a, D)
       | Some row =>
           try_values (backtrack fuel n) n row (order_domain_values n D row a) a D
       end.
Proof. reflexivity. Qed.

(** The ways one pass of the loop body can end. *)
Lemma attempt_inv rec n row col a D res a' D' :
  attempt rec n row col a D = (res, a', D') →
  (is_consistent row col a = false ∧ res = NoSolution ∧ a' = a ∧ D' = D) ∨
  (is_consistent row col a = true ∧
   ∃ ok D1 lp,
     forward_check n row col (<[row := col]> a) D ∅ = (ok, D1, lp) ∧
     ((ok = false ∧ res = NoSolution ∧
       a' = delete row (<[row := col]> a) ∧ D' = restore lp D1) ∨
      (ok = true ∧
       ∃ res1 a2 D2,
         rec (<[row := col]> a) D1 = (res1, a2, D2) ∧
         ((res1 = NoSolution ∧ res = NoSolution ∧
           a' = delete row a2 ∧ D' = restore lp D2) ∨
          (res1 ≠ NoSolution ∧ res = res1 ∧ a' = a2 ∧ D' = D2))))).
Proof.
  unfold attempt. destruct (is_consistent row col a).
  2: { intros ?. simplify_eq. by left. }
  destruct (forward_check n row col (<[row:=col]> a) D ∅) as [[ok D1] lp] eqn:Efc.
  intros E. right. split; [done|]. exists ok, D1, lp. split; [done|].
  destruct ok.
  - right. split; [done|].
    destruct (rec (<[row:=col]> a) D1) as [[res1 a2] D2] eqn:Er.
    exists res1, a2, D2. split; [done|].
    destruct res1; simplify_eq; [right|left|right|right]; done.
  - left. by simplify_eq.
Qed.

Lemma attempt_frame rec n row col a D :
  frame_ok rec → a !! row = None → frame_post a D (attempt rec n row col a D).
Proof.
  intros Hrec Hrow.
  destruct (attempt rec n row col a D) as [[res a'] D'] eqn:E.
  apply attempt_inv in E as [(_ & -> & -> & ->)|(_ & ok & D1 & lp & Efc & Hcase)].
  { done. }
  pose proof (forward_check_restore _ _ _ _ _ _ _ _ Efc) as Hrest.
  destruct Hcase as [(_ & -> & -> & ->)|(_ & res1 & a2 & D2 & Er & Hcase)].
  { split; simpl; [by apply delete_insert_id|done]. }
  pose proof (Hrec (<[row:=col]> a) D1) as Hpost. rewrite Er in Hpost.
  unfold frame_post in *. simpl in *.
  destruct Hcase as [(-> & -> & -> & ->)|(Hne & -> & -> & ->)]; simpl.
  - destruct Hpost as [-> ->]. split; [by apply delete_insert_id|done].
  - destruct res1; try done. destruct Hpost as [-> Hsub]. split; [done|].
    etrans; [|exact Hsub]. by apply insert_subseteq.
Qed.

(** The loop over the candidate columns either sees every pass fail,
    each leaving the frame's state untouched, or ends with the first
    pass that does not fail. *)
Lemma try_values_inv rec n row cols a D res a' D' :
  frame_ok rec → a !! row = None →
  try_values rec n row cols a D = (res, a', D') →
  (res = NoSolution ∧ a' = a ∧ D' = D ∧
   ∀ col, col ∈ cols → attempt rec n row col a D = (NoSolution, a, D)) ∨
  (res ≠ NoSolution ∧ ∃ col, col ∈ cols ∧ attempt rec n row col a D = (res, a', D')).
Proof.
  intros Hrec Hrow. induction cols as [|col cols IH].
  - simpl. intros ?. simplify_eq. left. repeat split. intros col Hcol.
    by apply elem_of_nil in Hcol.
  - rewrite try_values_cons. pose proof (attempt_frame rec n row col a D Hrec Hrow) as Hpost.
    destruct (attempt rec n row col a D) as [[res1 a1] D1] eqn:E.
    unfold frame_post in Hpost. simpl in *.
    destruct res1.
    + intros ?. simplify_eq. right. split; [done|]. exists col. split; [left|done].
    + destruct Hpost as [-> ->]. intros Etv.
      destruct (IH Etv) as [(-> & -> & -> & Hall)|(Hne & c & Hc & Ec)].
      * left. repeat split. intros c Hc. apply elem_of_cons in Hc as [->|Hc]; auto.
      * right. split; [done|]. exists c. split; [by right|done].
    + intros ?. simplify_eq. right. split; [done|]. exists col. split; [left|done].
    + intros ?. simplify_eq. right. split; [done|]. exists col. split; [left|done].
Qed.

Lemma select_unassigned_variable_Some n D a row :
  select_unassigned_variable n D a = Some row → row ∈ range n ∧ a !! row = None.
Proof.
  unfold select_unassigned_variable, unassigned. intros E.
  apply py_min_elem_of in E. by apply list_elem_of_filter in E as [? ?].
Qed.

Lemma try_values_frame rec n row cols a D :
  frame_ok rec → a !! row = None → frame_post a D (try_values rec n row cols a D).
Proof.
  intros Hrec Hrow.
  destruct (try_values rec n row cols a D) as [[res a'] D'] eqn:E.
  destruct (try_values_inv _ _ _ _ _ _ _ _ _ Hrec Hrow E)
    as [(-> & -> & -> & _)|(_ & col & _ & Ea)]; [done|].
  rewrite <- Ea. by apply attempt_frame.
Qed.

Lemma backtrack_frame fuel n : frame_ok (backtrack fuel n).
Proof.
  induction fuel as [|fuel IH]; intros a D; [done|].
  rewrite backtrack_S. destruct (decide (len a = n)); [done|].
  destruct (select_unassigned_variable n D a) as [row|] eqn:Erow; [|done].
  apply select_unassigned_variable_Some in Erow as [_ Hrow].
  by apply try_values_frame.
Qed.
End BacktrackFacts.

(** C4.  Whenever the pass of the loop body of [backtrack] for a candidate
    column ends in failure (the column was inconsistent, forward checking
    emptied a set, or the recursive call returned [None]), the domain map
    after the restoring loop is equal, row by row and set by set, to the
    map before the candidate was tried; and when the row was uncommitted
    before, as it is for the row [backtrack] selects, so is the
    assignment. *)
Theorem failed_branch_restores_domains `{SetIter} (fuel : nat) (n row col : Z)
    (a a' : assignment) (D D' : domain_map) :
  attempt (backtrack fuel n) n row col a D = (NoSolution, a', D') →
  D' = D ∧ (a !! row = None → a' = a).
Proof.
  intros E.
  apply attempt_inv in E as [(_ & _ & -> & ->)|(_ & ok & D1 & lp & Efc & Hcase)].
  { done. }
  pose proof (forward_check_restore _ _ _ _ _ _ _ _ Efc) as Hrest.
  destruct Hcase as [(_ & _ & -> & ->)|(_ & res1 & a2 & D2 & Er & Hcase)].
  { split; [done|]. intros Hrow. by apply delete_insert_id. }
  destruct Hcase as [(-> & _ & -> & ->)|(Hne & Hres & _)]; [|congruence].
  pose proof (backtrack_frame fuel n (<[row:=col]> a) D1) as Hpost.
  rewrite Er in Hpost. destruct Hpost as [Ha HD]. simpl in *. subst a2 D2.
  split; [done|]. intros Hrow. by apply delete_insert_id.
Qed.

(** The failed first branch of the search on the empty 4-board: row 0 at
    column 0 leaves no room for the other three queens. *)
Lemma failed_branch_restores_domains_witness :
  attempt (backtrack 4 4) 4 0 0 ∅ (NQueensCSP 4 ∅) = (NoSolution, ∅, NQueensCSP 4 ∅) ∧
  NQueensCSP 4 ∅ = NQueensCSP 4 ∅ ∧ ((∅ : assignment) !! 0 = None → (∅ : assignment) = ∅).
Proof.
  assert (attempt (backtrack 4 4) 4 0 0 ∅ (NQueensCSP 4 ∅)
          = (NoSolution, ∅, NQueensCSP 4 ∅)) as E by (vm_compute; reflexivity).
  split; [exact E|].
  exact (failed_branch_restores_domains 4 4 0 0 ∅ ∅ (NQueensCSP 4 ∅) (NQueensCSP 4 ∅) E).
Defined.

(** ** The queens constraint *)

Lemma Attacks_sym r1 c1 r2 c2 : Attacks r1 c1 r2 c2 ↔ Attacks r2 c2 r1 c1.
Proof. unfold Attacks. lia. Qed.

Lemma zero_conflicts_not_Attacks a r1 c1 r2 c2 :
  zero_conflicts a → a !! r1 = Some c1 → a !! r2 = Some c2 → r1 ≠ r2 →
  ¬ Attacks r1 c1 r2 c2.
Proof. intros Hz H1 H2 Hne. destruct (Hz _ _ _ _ H1 H2 Hne). unfold Attacks. tauto. Qed.

Lemma is_consistent_true row col (a : assignment) :
  is_consistent row col a = true ↔ ∀ r c, a !! r = Some c → ¬ Attacks r c row col.
Proof. unfold is_consistent. rewrite bool_decide_eq_true. apply map_Forall_lookup. Qed.

Lemma zero_conflicts_insert (a : assignment) row col :
  zero_conflicts a → a !! row = None → is_consistent row col a = true →
  zero_conflicts (<[row := col]> a).
Proof.
  intros Hz Hrow Hc r1 c1 r2 c2 H1 H2 Hne.
  rewrite is_consistent_true in Hc.
  destruct (decide (r1 = row)) as [E1|Hr1]; destruct (decide (r2 = row)) as [E2|Hr2];
    [congruence|..].
  - subst r1. rewrite lookup_insert_eq in H1. rewrite lookup_insert_ne in H2 by done.
    injection H1 as ->. specialize (Hc _ _ H2). unfold Attacks in Hc. lia.
  - subst r2. rewrite lookup_insert_eq in H2. rewrite lookup_insert_ne in H1 by done.
    injection H2 as ->. specialize (Hc _ _ H1). unfold Attacks in Hc. lia.
  - rewrite lookup_insert_ne in H1, H2 by done. by apply (Hz r1 c1 r2 c2).
Qed.

Lemma complete_lookup n (a : assignment) r : complete n a → 0 ≤ r < n → is_Some (a !! r).
Proof.
  intros Hc Hr. apply elem_of_dom. rewrite Hc, elem_of_list_to_set. by apply elem_of_range.
Qed.

Lemma size_list_to_set_range n : size (list_to_set (range n) : gset Z) = Z.to_nat n.
Proof. rewrite size_list_to_set by apply NoDup_range. apply length_range. Qed.

Lemma complete_of_len n (a : assignment) : rows_on_board n a → len a = n → complete n a.
Proof.
  intros Hrows Hlen. unfold complete.
  apply set_subseteq_size_eq.
  - intros r Hr. apply elem_of_dom in Hr. rewrite elem_of_list_to_set, elem_of_range. auto.
  - rewrite size_list_to_set_range, size_dom. unfold len in Hlen. lia.
Qed.

Lemma len_of_complete n (a : assignment) : 0 ≤ n → complete n a → len a = n.
Proof.
  intros Hn Hc. unfold len. rewrite <- size_dom, Hc, size_list_to_set_range. lia.
Qed.

(** ** The candidates of a frame *)

Section OrderingFacts.
Context `{SetIter}.

Lemma elem_of_order_domain_values n D row a col :
  col ∈ order_domain_values n D row a ↔ col ∈ D !!! row.
Proof.
  unfold order_domain_values. rewrite stable_sort_perm, <- list_fmap_compose.
  rewrite list_elem_of_fmap. setoid_rewrite elem_of_set_iter. naive_solver.
Qed.

Lemma elem_of_unassigned n (a : assignment) r :
  r ∈ unassigned n a ↔ 0 ≤ r < n ∧ a !! r = None.
Proof. unfold unassigned. rewrite list_elem_of_filter, elem_of_range. tauto. Qed.

Lemma select_unassigned_variable_None n D (a : assignment) :
  select_unassigned_variable n D a = None → ∀ r, 0 ≤ r < n → is_Some (a !! r).
Proof.
  unfold select_unassigned_variable. intros E r Hr.
  destruct (a !! r) eqn:Er; [eauto|].
  assert (r ∈ unassigned n a) as Hin by by apply elem_of_unassigned.
  destruct (unassigned n a); [by apply elem_of_nil in Hin|done].
Qed.

Lemma length_filter_strict {A} (P Q : A → Prop) `{∀ x, Decision (P x)} `{∀ x, Decision (Q x)}
    (l : list A) x :
  (∀ y, P y → Q y) → x ∈ l → Q x → ¬ P x →
  (length (filter P l) < length (filter Q l))%nat.
Proof.
  intros HPQ Hx HQx HPx.
  assert (∀ l' : list A, (length (filter P l') ≤ length (filter Q l'))%nat) as Hle.
  { induction l' as [|y l' IH]; [done|]. rewrite !filter_cons.
    destruct (decide (P y)) as [HP|HP].
    - rewrite decide_True by auto. simpl. lia.
    - destruct (decide (Q y)); simpl; lia. }
  induction l as [|y l IH]; [by apply elem_of_nil in Hx|].
  rewrite !filter_cons. apply elem_of_cons in Hx as [<-|Hx].
  - rewrite decide_False, decide_True by done. simpl. specialize (Hle l). lia.
  - specialize (IH Hx). destruct (decide (P y)) as [HP|HP].
    + rewrite decide_True by auto. simpl. lia.
    + destruct (decide (Q y)); simpl; lia.
Qed.

Lemma unassigned_insert n (a : assignment) row col :
  0 ≤ row < n → a !! row = None →
  (length (unassigned n (<[row := col]> a)) < length (unassigned n a))%nat.
Proof.
  intros Hr Hrow. unfold unassigned.
  apply length_filter_strict with (x := row).
  - intros y Hy. rewrite lookup_insert in Hy. by case_decide.
  - by apply elem_of_range.
  - done.
  - by rewrite lookup_insert_eq.
Qed.

Lemma length_unassigned_le n a : (length (unassigned n a) ≤ Z.to_nat n)%nat.
Proof. unfold unassigned. rewrite <- length_range. apply length_filter. Qed.
End OrderingFacts.

(** ** Correctness of the backtracking search *)

Section SearchFacts.
Context `{SetIter}.

(** Forward checking only removes columns attacked by the committed
    queen, and reports failure only with an emptied row. *)
Lemma forward_check_loop_spec rows row col a D pruned ok D1 lp :
  forward_check_loop rows row col a D pruned = (ok, D1, lp) →
  (∀ r, D1 !!! r ⊆ D !!! r) ∧
  (∀ r c, c ∈ D !!! r → ¬ Attacks row col r c → c ∈ D1 !!! r) ∧
  (ok = false → ∃ o, o ∈ rows ∧ o ≠ row ∧ a !! o = None ∧ D1 !!! o = ∅).
Proof.
  revert D pruned. induction rows as [|o rows IH]; intros D pruned.
  - simpl. intros ?. simplify_eq. done.
  - rewrite forward_check_loop_cons.
    destruct (decide (o ≠ row ∧ a !! o = None)) as [[Ho Hfree]|Hskip].
    2: { intros E. destruct (IH _ _ E) as (H1 & H2 & H3). repeat split; [done..|].
         intros Hok. destruct (H3 Hok) as (o' & ? & ?). exists o'. split; [by right|done]. }
    destruct (prune_row row col o D pruned) as [D2 p2] eqn:Ep. simpl.
    assert (∀ r, D2 !!! r ⊆ D !!! r) as Hsub.
    { intros r. destruct (decide (r = o)) as [->|Hr].
      - intros x Hx. by apply (prune_row_total _ _ _ _ _ _ _ _ Ep) in Hx as [? _].
      - by rewrite (prune_row_total_ne _ _ _ _ _ _ _ _ Ep Hr). }
    assert (∀ r c, c ∈ D !!! r → ¬ Attacks row col r c → c ∈ D2 !!! r) as Hkeep.
    { intros r c Hc Hna. destruct (decide (r = o)) as [->|Hr].
      - by apply (prune_row_total _ _ _ _ _ _ _ _ Ep).
      - by rewrite (prune_row_total_ne _ _ _ _ _ _ _ _ Ep Hr). }
    destruct (decide (D2 !!! o = ∅)) as [Hemp|Hne].
    + intros ?. simplify_eq. repeat split; [done..|].
      intros _. exists o. split; [left|done].
    + intros E. destruct (IH _ _ E) as (H1 & H2 & H3). repeat split.
      * intros r. etrans; [apply H1|apply Hsub].
      * intros r c Hc Hna. apply H2; [|done]. by apply Hkeep.
      * intros Hok. destruct (H3 Hok) as (o' & ? & ?). exists o'. split; [by right|done].
Qed.

Lemma attempt_success rec n row col a D res a' D' :
  attempt rec n row col a D = (res, a', D') → res ≠ NoSolution →
  is_consistent row col a = true ∧
  ∃ D1 lp, forward_check n row col (<[row := col]> a) D ∅ = (true, D1, lp) ∧
           rec (<[row := col]> a) D1 = (res, a', D').
Proof.
  intros E Hne.
  apply attempt_inv in E as [(_ & -> & _)|(Hc & ok & D1 & lp & Efc & Hcase)]; [done|].
  split; [done|].
  destruct Hcase as [(_ & -> & _)|(-> & res1 & a2 & D2 & Er & Hcase)]; [done|].
  destruct Hcase as [(_ & -> & _)|(_ & -> & -> & ->)]; [done|]. eauto.
Qed.

Lemma attempt_failure rec n row col a D a' D' :
  attempt rec n row col a D = (NoSolution, a', D') →
  is_consistent row col a = false ∨
  (∃ D1 lp, forward_check n row col (<[row := col]> a) D ∅ = (false, D1, lp)) ∨
  (∃ D1 lp a2 D2, forward_check n row col (<[row := col]> a) D ∅ = (true, D1, lp) ∧
                  rec (<[row := col]> a) D1 = (NoSolution, a2, D2)).
Proof.
  intros E.
  apply attempt_inv in E as [(? & _)|(Hc & ok & D1 & lp & Efc & Hcase)]; [by left|].
  right. destruct Hcase as [(-> & _)|(-> & res1 & a2 & D2 & Er & Hcase)]; [left; eauto|].
  destruct Hcase as [(-> & _)|(? & ? & _)]; [|congruence]. right. eauto 10.
Qed.

(** The three ways a frame with fuel left can end. *)
Lemma backtrack_S_inv fuel n a D res a' D' :
  backtrack (S fuel) n a D = (res, a', D') →
  (len a = n ∧ res = Solution a ∧ a' = a ∧ D' = D) ∨
  (len a ≠ n ∧ select_unassigned_variable n D a = None ∧ res = Raised) ∨
  (len a ≠ n ∧
   ∃ row, 0 ≤ row < n ∧ a !! row = None ∧
     ((res = NoSolution ∧ a' = a ∧ D' = D ∧
       ∀ col, col ∈ D !!! row →
              attempt (backtrack fuel n) n row col a D = (NoSolution, a, D)) ∨
      (res ≠ NoSolution ∧
       ∃ col, col ∈ D !!! row ∧
              attempt (backtrack fuel n) n row col a D = (res, a', D')))).
Proof.
  rewrite backtrack_S. destruct (decide (len a = n)) as [Hlen|Hlen].
  { intros ?. simplify_eq. by left. }
  destruct (select_unassigned_variable n D a) as [row|] eqn:Erow; intros E.
  2: { simplify_eq. right. by left. }
  right. right. split; [done|]. exists row.
  destruct (select_unassigned_variable_Some _ _ _ _ Erow) as [Hr Hrow].
  apply elem_of_range in Hr. split; [done|]. split; [done|].
  destruct (try_values_inv _ _ _ _ _ _ _ _ _ (backtrack_frame fuel n) Hrow E)
    as [(-> & -> & -> & Hall)|(Hne & col & Hcol & Ea)].
  - left. repeat split. intros col Hcol. apply Hall.
    by apply elem_of_order_domain_values.
  - right. split; [done|]. exists col. split; [|done].
    by apply elem_of_order_domain_values in Hcol.
Qed.

(** Soundness: a returned dict is a valid complete placement. *)
Lemma backtrack_sound fuel n a D A a' D' :
  rows_on_board n a → on_board n a → zero_conflicts a → domains_on_board n D →
  backtrack fuel n a D = (Solution A, a', D') → is_solution n A.
Proof.
  revert a D. induction fuel as [|fuel IH]; intros a D Hrows Hcols Hz HD E; [done|].
  apply backtrack_S_inv in E
    as [(Hlen & ? & _)|[(_ & _ & ?)|(_ & row & Hr & Hrow & Hcase)]]; [|done|].
  { simplify_eq. split; [by apply complete_of_len|done]. }
  destruct Hcase as [(? & _)|(_ & col & Hcol & Ea)]; [done|].
  apply attempt_success in Ea as (Hc & D1 & lp & Efc & Er); [|done].
  destruct (forward_check_loop_spec _ _ _ _ _ _ _ _ _ Efc) as (Hsub & _ & _).
  apply (IH _ _) in Er; [done|..].
  - intros r Hr'. rewrite lookup_insert in Hr'. case_decide; [lia|auto].
  - intros r c Hrc. rewrite lookup_insert in Hrc. case_decide; [|eauto].
    simplify_eq. by eapply HD.
  - by apply zero_conflicts_insert.
  - intros r c Hc'. apply (HD r). by apply Hsub.
Qed.

(** The recursion budget: each level commits one more free row of the
    board, so a budget above the number of free rows is never used up,
    whatever the assignment and the domain map. *)
Lemma backtrack_fuel fuel n a D :
  (length (unassigned n a) < fuel)%nat → (backtrack fuel n a D).1.1 ≠ OutOfFuel.
Proof.
  revert a D. induction fuel as [|fuel IH]; intros a D Hfuel; [lia|].
  destruct (backtrack (S fuel) n a D) as [[res a'] D'] eqn:E. simpl.
  apply backtrack_S_inv in E
    as [(_ & -> & _)|[(_ & _ & ->)|(_ & row & Hr & Hrow & Hcase)]]; [done..|].
  destruct Hcase as [(-> & _)|(Hne & col & Hcol & Ea)]; [done|].
  apply attempt_success in Ea as (_ & D1 & lp & _ & Er); [|done].
  intros ->. apply (IH (<[row:=col]> a) D1).
  - pose proof (unassigned_insert n a row col Hr Hrow). lia.
  - by rewrite Er.
Qed.

(** With the rows of the assignment on the board the search raises
    nothing: [min] is never handed an empty list. *)
Lemma backtrack_no_raise fuel n a D :
  0 ≤ n → rows_on_board n a → (backtrack fuel n a D).1.1 ≠ Raised.
Proof.
  intros Hn. revert a D. induction fuel as [|fuel IH]; intros a D Hrows; [done|].
  destruct (backtrack (S fuel) n a D) as [[res a'] D'] eqn:E. simpl.
  apply backtrack_S_inv in E
    as [(_ & -> & _)|[(Hlen & Hsel & _)|(_ & row & Hr & Hrow & Hcase)]]; [done| |].
  { exfalso. apply Hlen. apply len_of_complete; [done|].
    apply set_eq. intros r. rewrite elem_of_dom, elem_of_list_to_set, elem_of_range.
    split; [apply Hrows|]. by apply select_unassigned_variable_None with (D := D). }
  destruct Hcase as [(-> & _)|(Hne & col & Hcol & Ea)]; [done|].
  apply attempt_success in Ea as (_ & D1 & lp & _ & Er); [|done].
  intros ->. apply (IH (<[row:=col]> a) D1).
  - intros r Hr'. rewrite lookup_insert in Hr'. case_decide; [lia|auto].
  - by rewrite Er.
Qed.

Lemma backtrack_total fuel n a D :
  0 ≤ n → rows_on_board n a → (length (unassigned n a) < fuel)%nat →
  (backtrack fuel n a D).1.1 ≠ Raised ∧ (backtrack fuel n a D).1.1 ≠ OutOfFuel.
Proof. intros. split; [by apply backtrack_no_raise|by apply backtrack_fuel]. Qed.

(** Completeness: a frame whose assignment can be extended to a valid
    placement that the domain map still offers does not fail. *)
Lemma backtrack_complete fuel n a D sol :
  is_solution n sol → a ⊆ sol → offers n D a sol →
  (backtrack fuel n a D).1.1 ≠ NoSolution.
Proof.
  intros (Hsc & Hsb & Hsz). revert a D.
  induction fuel as [|fuel IH]; intros a D Hsub Hoff; [done|].
  destruct (backtrack (S fuel) n a D) as [[res a'] D'] eqn:E. simpl.
  apply backtrack_S_inv in E
    as [(_ & -> & _)|[(_ & _ & ->)|(_ & row & Hr & Hrow & Hcase)]]; [done..|].
  destruct Hcase as [(_ & _ & _ & Hall)|(Hne & _)]; [|done].
  destruct (complete_lookup n sol row Hsc Hr) as [col Hscol].
  specialize (Hall col (Hoff _ _ Hr Hrow Hscol)). exfalso.
  assert (<[row:=col]> a ⊆ sol) as Hsub1 by by apply insert_subseteq_l.
  assert (∀ D1 lp ok, forward_check n row col (<[row:=col]> a) D ∅ = (ok, D1, lp) →
            ok = true ∧ offers n D1 (<[row:=col]> a) sol) as Hfc.
  { intros D1 lp ok Efc.
    destruct (forward_check_loop_spec _ _ _ _ _ _ _ _ _ Efc) as (_ & Hkeep & Hfail).
    assert (offers n D1 (<[row:=col]> a) sol) as Hoff1.
    { intros r c Hr' Hfree Hsr. rewrite lookup_insert in Hfree.
      case_decide as Hrr; [done|]. apply Hkeep; [by apply Hoff|].
      by apply (zero_conflicts_not_Attacks sol). }
    split; [|done]. destruct ok; [done|].
    destruct (Hfail eq_refl) as (o & Ho & _ & Hfree & Hemp).
    apply elem_of_range in Ho. destruct (complete_lookup n sol o Hsc Ho) as [c Hso].
    specialize (Hoff1 o c Ho Hfree Hso). rewrite Hemp in Hoff1. set_solver. }
  apply attempt_failure in Hall as [Hc|[(D1 & lp & Efc)|(D1 & lp & a2 & D2 & Efc & Er)]].
  - assert (is_consistent row col a = true) as Ht; [|congruence].
    apply is_consistent_true. intros r c Hrc.
    apply (zero_conflicts_not_Attacks sol); [done| |done|congruence].
    by apply (lookup_weaken a sol).
  - by destruct (Hfc _ _ _ Efc).
  - destruct (Hfc _ _ _ Efc) as [_ Hoff1].
    apply (IH _ _ Hsub1) in Hoff1. by rewrite Er in Hoff1.
Qed.
End SearchFacts.

(** ** The domain map built by [__init__] *)

Lemma fresh_domains_lookup n (P : assignment) r :
  fresh_domains n P !! r =
  if decide (0 ≤ r < n)
  then Some (match P !! r with Some c => {[c]} | None => list_to_set (range n) end)
  else None.
Proof.
  unfold fresh_domains.
  assert (∀ (l : list Z) (D0 : domain_map),
            foldl (λ D row, match P !! row with
                            | Some col => <[row := {[col]}]> D
                            | None => <[row := list_to_set (range n)]> D
                            end) D0 l !! r =
            if decide (r ∈ l)
            then Some (match P !! r with Some c => {[c]} | None => list_to_set (range n) end)
            else D0 !! r) as Hgen.
  { induction l as [|x l IH]; intros D0; cbn [foldl].
    - rewrite decide_False; [done|]. apply not_elem_of_nil.
    - rewrite IH. destruct (decide (r ∈ l)) as [Hin|Hin].
      + rewrite decide_True; [done|]. by right.
      + destruct (decide (r = x)) as [->|Hne].
        * rewrite decide_True by left. destruct (P !! x); by rewrite lookup_insert_eq.
        * rewrite decide_False by (rewrite elem_of_cons; tauto).
          destruct (P !! x); by rewrite lookup_insert_ne. }
  rewrite Hgen, lookup_empty.
  destruct (decide (r ∈ range n)) as [Hr|Hr], (decide (0 ≤ r < n)) as [Hr'|Hr'];
    rewrite elem_of_range in Hr; done.
Qed.

Lemma alter_discard_total (D : domain_map) n c k o :
  alter (λ d, (discard_attacked n c k d).1) o D !!! o = (discard_attacked n c k (D !!! o)).1.
Proof.
  rewrite lookup_total_alter_eq, lookup_total_alt.
  destruct (D !! o) as [d|]; simpl; [done|].
  apply set_eq. intros x. rewrite discard_attacked_elem. set_solver.
Qed.

(** What [initialize_domains] leaves in the set of row [r], exactly: a
    fixed row, or a row off the board, keeps its set; a free row of the
    board loses, for every fixed queen, the columns the three guarded
    removals name.  The right-hand side does not depend on the order in
    which the partial assignment is walked. *)
Lemma initialize_domains_elem n (P : assignment) (D : domain_map) r x :
  x ∈ initialize_domains n P D !!! r ↔
  x ∈ D !!! r ∧
  (0 ≤ r < n → P !! r = None →
   ∀ row col, P !! row = Some col → spared n col (Z.abs (r - row)) x).
Proof.
  unfold initialize_domains.
  set (inner := λ (D : domain_map) (rc : Z * Z),
         foldl (λ D other_row,
                  if decide (other_row ≠ rc.1 ∧ P !! other_row = None)
                  then alter (λ d, (discard_attacked n rc.2 (Z.abs (other_row - rc.1)) d).1)
                             other_row D
                  else D) D (range n)).
  assert (∀ rc (rows : list Z) (D : domain_map),
            x ∈ foldl (λ D other_row,
                  if decide (other_row ≠ rc.1 ∧ P !! other_row = None)
                  then alter (λ d, (discard_attacked n rc.2 (Z.abs (other_row - rc.1)) d).1)
                             other_row D
                  else D) D rows !!! r ↔
            x ∈ D !!! r ∧
            (r ∈ rows → r ≠ rc.1 → P !! r = None → spared n rc.2 (Z.abs (r - rc.1)) x))
    as Hinner.
  { intros [row col] rows. cbn [fst snd].
    induction rows as [|o rows IH]; intros D1; cbn [foldl].
    { split; [intros Hx; split; [done|by intros ?%elem_of_nil]|tauto]. }
    rewrite IH, elem_of_cons.
    destruct (decide (o ≠ row ∧ P !! o = None)) as [[Ho Hfree]|Hskip].
    - destruct (decide (r = o)) as [->|Hr].
      + rewrite alter_discard_total, discard_attacked_elem. unfold spared. tauto.
      + rewrite alter_total_ne by done. tauto.
    - split; [|tauto]. intros [Hx Hrows]. split; [done|].
      intros [->|Hin] Hne Hfree; [|by apply Hrows]. tauto. }
  assert (∀ (l : list (Z * Z)) (D : domain_map),
            x ∈ foldl inner D l !!! r ↔
            x ∈ D !!! r ∧
            (0 ≤ r < n → P !! r = None →
             ∀ rc, rc ∈ l → rc.1 ≠ r → spared n rc.2 (Z.abs (r - rc.1)) x)) as Houter.
  { induction l as [|rc l IH]; intros D1; cbn [foldl].
    { split; [intros Hx; split; [done|by intros ? ? ? ?%elem_of_nil]|tauto]. }
    rewrite IH, (Hinner rc (range n) D1 : x ∈ inner D1 rc !!! r ↔ _), elem_of_range.
    setoid_rewrite elem_of_cons. split.
    - intros [[Hx Hrc] Hl]. split; [done|]. intros Hr Hfree rc' [->|Hin] Hne; auto.
    - intros [Hx Hall]. split; [split; [done|]|]; intros Hr; auto. }
  rewrite Houter. split; intros [Hx Hall]; (split; [done|]); intros Hr Hfree.
  - intros row col HP. apply (Hall Hr Hfree (row, col)); [|simpl; congruence].
    by apply elem_of_map_to_list.
  - intros [row col] Hin _. apply elem_of_map_to_list in Hin. by apply Hall.
Qed.

Lemma initialize_domains_spec n (P : assignment) (D : domain_map) r :
  (is_Some (P !! r) → initialize_domains n P D !!! r = D !!! r) ∧
  initialize_domains n P D !!! r ⊆ D !!! r ∧
  (∀ c, c ∈ D !!! r →
        (∀ r' c', P !! r' = Some c' → r' ≠ r → ¬ Attacks r' c' r c) →
        c ∈ initialize_domains n P D !!! r).
Proof.
  split_and!.
  - intros [c Hc]. apply set_eq. intros x. rewrite initialize_domains_elem.
    split; [tauto|]. intros Hx. split; [done|]. congruence.
  - intros x. rewrite initialize_domains_elem. tauto.
  - intros c Hc Hna. apply initialize_domains_elem. split; [done|].
    intros Hr Hfree row col HP.
    assert (row ≠ r) as Hne by congruence.
    specialize (Hna row col HP Hne). unfold Attacks in Hna. unfold spared. lia.
Qed.

Lemma initialize_domains_dom n (P : assignment) (D : domain_map) :
  dom (initialize_domains n P D) = dom D.
Proof.
  unfold initialize_domains.
  assert (∀ rc (rows : list Z) (D : domain_map),
            dom (foldl (λ D other_row,
                  if decide (other_row ≠ rc.1 ∧ P !! other_row = None)
                  then alter (λ d, (discard_attacked n rc.2 (Z.abs (other_row - rc.1)) d).1)
                             other_row D
                  else D) D rows) = dom D) as Hinner.
  { intros rc rows. induction rows as [|o rows IH]; intros D1; cbn [foldl]; [done|].
    rewrite IH. destruct (decide _); [apply dom_alter_L|done]. }
  generalize (map_to_list P). intros l. revert D.
  induction l as [|rc l IH]; intros D1; cbn [foldl]; [done|]. by rewrite IH, Hinner.
Qed.

(** The map built by [__init__] has exactly the rows of the board. *)
Lemma NQueensCSP_dom n (P : assignment) : dom (NQueensCSP n P) = list_to_set (range n).
Proof.
  unfold NQueensCSP. rewrite initialize_domains_dom. apply set_eq. intros r.
  rewrite elem_of_dom, fresh_domains_lookup, elem_of_list_to_set, elem_of_range.
  destruct (decide (0 ≤ r < n)); [split; eauto|]. split; [by intros [? ?]|done].
Qed.

Lemma NQueensCSP_fixed n (P : assignment) r c :
  0 ≤ r < n → P !! r = Some c → NQueensCSP n P !!! r = {[c]}.
Proof.
  intros Hr HP. unfold NQueensCSP.
  destruct (initialize_domains_spec n P (fresh_domains n P) r) as (Hfix & _).
  rewrite Hfix by eauto.
  rewrite lookup_total_alt, fresh_domains_lookup, decide_True by done. by rewrite HP.
Qed.

Lemma NQueensCSP_on_board n (P : assignment) :
  on_board n P → domains_on_board n (NQueensCSP n P).
Proof.
  intros HP r c Hc. unfold NQueensCSP in Hc.
  destruct (initialize_domains_spec n P (fresh_domains n P) r) as (_ & Hsub & _).
  apply Hsub in Hc. rewrite lookup_total_alt, fresh_domains_lookup in Hc.
  destruct (decide (0 ≤ r < n)); simpl in Hc; [|set_solver].
  destruct (P !! r) as [c'|] eqn:E.
  - apply elem_of_singleton in Hc as ->. by apply (HP r).
  - by rewrite elem_of_list_to_set, elem_of_range in Hc.
Qed.

Lemma NQueensCSP_offers n (P sol : assignment) :
  is_solution n sol → P ⊆ sol → offers n (NQueensCSP n P) ∅ sol.
Proof.
  intros (Hc & Hb & Hz) Hsub r c Hr _ Hsol.
  destruct (P !! r) as [c'|] eqn:E.
  - rewrite (NQueensCSP_fixed n P r c') by done.
    rewrite (lookup_weaken _ _ _ _ E Hsub) in Hsol. set_solver.
  - unfold NQueensCSP.
    destruct (initialize_domains_spec n P (fresh_domains n P) r) as (_ & _ & Hkeep).
    apply Hkeep.
    + rewrite lookup_total_alt, fresh_domains_lookup, decide_True, E by done. simpl.
      rewrite elem_of_list_to_set, elem_of_range. by apply (Hb r).
    + intros r' c' HP Hne. apply (zero_conflicts_not_Attacks sol); [done| |done..].
      by apply (lookup_weaken P sol).
Qed.

(** ** What [ac3] keeps and what it detects *)

Section Ac3Facts.
Context `{SetIter}.

Lemma ac3_loop_cons fuel n i j queue D :
  ac3_loop (S fuel) n ((i, j) :: queue) D =
  if (revise n D i j).1 then
    if decide ((revise n D i j).2 !!! i = ∅) then Some (false, (revise n D i j).2)
    else ac3_loop fuel n (queue ++ neighbours n i j) (revise n D i j).2
  else ac3_loop fuel n queue (revise n D i j).2.
Proof. cbn [ac3_loop]. by destruct (revise n D i j) as [[] ?]. Qed.

Lemma ac3_loop_subseteq fuel n queue D b D' :
  ac3_loop fuel n queue D = Some (b, D') → ∀ r, D' !!! r ⊆ D !!! r.
Proof.
  revert queue D. induction fuel as [|fuel IH]; intros queue D.
  { destruct queue as [|[i j] queue]; simpl; [|done]. intros ?. by simplify_eq. }
  destruct queue as [|[i j] queue]; [simpl; intros ?; by simplify_eq|].
  rewrite ac3_loop_cons. destruct (revise n D i j) as [rv D1] eqn:E. simpl.
  destruct (revise_spec _ _ _ _ _ _ E) as (Hsub & Hne & _).
  assert (∀ r, D1 !!! r ⊆ D !!! r) as Hall.
  { intros r. destruct (decide (r = i)) as [->|Hr]; [done|]. by rewrite Hne. }
  destruct rv.
  - destruct (decide (D1 !!! i = ∅)).
    + intros ?. by simplify_eq.
    + intros E' r. etrans; [by eapply IH|apply Hall].
  - intros E' r. etrans; [by eapply IH|apply Hall].
Qed.

(** Propagation never discards a column of a valid placement that the
    domain map offers on every row, and so cannot report failure. *)
Lemma ac3_loop_keeps fuel n queue D b D' sol :
  Forall (λ p, 0 ≤ p.1 < n ∧ 0 ≤ p.2 < n ∧ p.1 ≠ p.2) queue →
  complete n sol → zero_conflicts sol → offers n D ∅ sol →
  ac3_loop fuel n queue D = Some (b, D') →
  b = true ∧ offers n D' ∅ sol.
Proof.
  intros Hq Hc Hz. revert queue D Hq. induction fuel as [|fuel IH]; intros queue D Hq Hoff.
  { destruct queue as [|[i j] queue]; simpl; [|done]. intros ?. by simplify_eq. }
  destruct queue as [|[i j] queue]; [simpl; intros ?; by simplify_eq|].
  apply Forall_cons in Hq as [(Hi & Hj & Hij) Hq]. simpl in Hi, Hj, Hij.
  rewrite ac3_loop_cons. destruct (revise n D i j) as [rv D1] eqn:E. simpl.
  assert (offers n D1 ∅ sol) as Hoff1.
  { intros r c Hr _ Hsol. destruct (decide (r = i)) as [->|Hne].
    - destruct (complete_lookup n sol j Hc Hj) as [w Hw].
      apply (revise_keeps _ _ _ _ _ _ _ w E); [by apply Hoff|by apply Hoff|].
      by apply (zero_conflicts_not_Attacks sol).
    - destruct (revise_spec _ _ _ _ _ _ E) as (_ & Hsame & _).
      rewrite Hsame by done. by apply Hoff. }
  destruct rv.
  - destruct (decide (D1 !!! i = ∅)) as [Hemp|Hne].
    + exfalso. destruct (complete_lookup n sol i Hc Hi) as [c Hci].
      specialize (Hoff1 i c Hi eq_refl Hci). rewrite Hemp in Hoff1. set_solver.
    + apply IH; [|done]. apply Forall_app. split; [done|].
      apply Forall_forall. intros [k r] Hk. apply elem_of_neighbours in Hk.
      destruct Hk as (Hk & -> & Hki & _). apply elem_of_range in Hk. done.
  - by apply IH.
Qed.

(** Two singleton rows whose queens the singleton branch of [revise]
    sees attacking each other make propagation fail. *)
Lemma ac3_loop_detects fuel n queue D i j ci cj b D' :
  (i, j) ∈ queue → D !!! i = {[ci]} → D !!! j = {[cj]} →
  (ci = cj ∨ (ci = cj + Z.abs (i - j) ∧ ci < n) ∨ (ci = cj - Z.abs (i - j) ∧ 0 ≤ ci)) →
  ac3_loop fuel n queue D = Some (b, D') → b = false.
Proof.
  intros Hin Hi Hj Hdet. revert queue D Hin Hi Hj.
  induction fuel as [|fuel IH]; intros queue D Hin Hi Hj.
  { destruct queue as [|[i' j'] queue]; simpl; [|done]. by apply elem_of_nil in Hin. }
  destruct queue as [|[i' j'] queue]; [by apply elem_of_nil in Hin|].
  rewrite ac3_loop_cons. destruct (revise n D i' j') as [rv D1] eqn:E. simpl.
  destruct (revise_spec _ _ _ _ _ _ E) as (Hsub & Hsame & Hfalse & Htrue).
  destruct rv.
  - specialize (Htrue eq_refl).
    destruct (decide (D1 !!! i' = ∅)) as [Hemp|Hne]; [intros ?; by simplify_eq|].
    assert (i' ≠ i ∧ i' ≠ j) as [Hi' Hj'].
    { split; intros ->.
      - rewrite Hi in Hsub, Htrue. apply Hne. apply set_eq. intros x. split; [|set_solver].
        intros Hx. exfalso. apply Htrue. apply set_eq. intros y. split; [set_solver|].
        intros Hy. apply elem_of_singleton in Hy as ->.
        specialize (Hsub _ Hx). by apply elem_of_singleton in Hsub as ->.
      - rewrite Hj in Hsub, Htrue. apply Hne. apply set_eq. intros x. split; [|set_solver].
        intros Hx. exfalso. apply Htrue. apply set_eq. intros y. split; [set_solver|].
        intros Hy. apply elem_of_singleton in Hy as ->.
        specialize (Hsub _ Hx). by apply elem_of_singleton in Hsub as ->. }
    apply IH.
    + apply elem_of_app. left. apply elem_of_cons in Hin as [?|?]; [congruence|done].
    + by rewrite Hsame.
    + by rewrite Hsame.
  - rewrite (Hfalse eq_refl) in *. apply elem_of_cons in Hin as [Heq|Hin]; [|by apply IH].
    exfalso. simplify_eq. unfold revise in E.
    assert (size (D !!! j') = 1%nat) as Hs by (by rewrite Hj, size_singleton).
    rewrite decide_True in E by done.
    destruct (set_iter (D !!! j')) as [|c l] eqn:Ej.
    { apply set_iter_nil in Ej. rewrite Ej in Hs. by rewrite size_empty in Hs. }
    destruct (set_iter_singleton _ _ _ Hs Ej) as [Hc _].
    assert (c = cj) as -> by set_solver.
    injection E as Eflag _. apply discard_attacked_false in Eflag.
    assert (ci ∈ (discard_attacked n cj (Z.abs (i' - j')) (D !!! i')).1) as Hci
      by (rewrite Eflag, Hi; set_solver).
    apply discard_attacked_elem in Hci. lia.
Qed.
End Ac3Facts.

(** ** Existence of placements *)

Lemma check_solution_sound n (a : assignment) : check_solution n a = true → is_solution n a.
Proof.
  unfold check_solution. rewrite andb_true_iff, bool_decide_eq_true, forallb_forall.
  intros [Hdom Hall].
  assert (∀ r c, a !! r = Some c → 0 ≤ r < n) as Hrows.
  { intros r c Hr. apply elem_of_range. rewrite <- (elem_of_list_to_set (C := gset Z)), <- Hdom.
    apply elem_of_dom. eauto. }
  split; [done|]. split.
  - intros r c Hr. specialize (Hall r). rewrite Hr in Hall.
    assert (In r (range n)) as Hin by (apply list_elem_of_In, elem_of_range; eauto).
    apply Hall in Hin. apply andb_true_iff in Hin as [Hin _]. lia.
  - intros r1 c1 r2 c2 H1 H2 Hne. specialize (Hall r1). rewrite H1 in Hall.
    assert (In r1 (range n)) as Hin1 by (apply list_elem_of_In, elem_of_range; eauto).
    apply Hall in Hin1. apply andb_true_iff in Hin1 as [_ Hin1].
    rewrite forallb_forall in Hin1. specialize (Hin1 r2). rewrite H2 in Hin1.
    assert (In r2 (range n)) as Hin2 by (apply list_elem_of_In, elem_of_range; eauto).
    apply Hin1 in Hin2. lia.
Qed.

Lemma placements_checked :
  forallb (λ n, check_solution n (placement n)) (seqZ 4 97) = true.
Proof. vm_compute. reflexivity. Qed.

(** Every board of size 4 to 100 has a valid placement. *)
Lemma placement_is_solution n : 4 ≤ n ≤ 100 → is_solution n (placement n).
Proof.
  intros Hn. apply check_solution_sound.
  pose proof placements_checked as Hall. rewrite forallb_forall in Hall.
  apply Hall. apply list_elem_of_In, elem_of_seqZ. lia.
Qed.

(** ** [backtrack_search] and the backtracking path of [solve] *)

Section BacktrackSearchFacts.
Context `{SetIter}.

Lemma arcs_proper n : Forall (λ p, 0 ≤ p.1 < n ∧ 0 ≤ p.2 < n ∧ p.1 ≠ p.2) (arcs n).
Proof.
  apply Forall_forall. intros [i j] Hin. apply elem_of_arcs in Hin.
  rewrite !elem_of_range in Hin. done.
Qed.

(** Two fixed rows of the board whose queens attack each other make the
    initial propagation fail. *)
Lemma ac3_detects_conflict n (P : assignment) r1 c1 r2 c2 b D' :
  0 ≤ r1 < n → 0 ≤ r2 < n → r1 ≠ r2 →
  P !! r1 = Some c1 → P !! r2 = Some c2 → Attacks r1 c1 r2 c2 →
  ac3 n (NQueensCSP n P) = Some (b, D') → b = false.
Proof.
  intros Hr1 Hr2 Hne H1 H2 Hatt Eac. unfold ac3 in Eac.
  pose proof (NQueensCSP_fixed n P r1 c1 Hr1 H1) as Hd1.
  pose proof (NQueensCSP_fixed n P r2 c2 Hr2 H2) as Hd2.
  assert ((c1 = c2 ∨ (c1 = c2 + Z.abs (r1 - r2) ∧ c1 < n)
                   ∨ (c1 = c2 - Z.abs (r1 - r2) ∧ 0 ≤ c1)) ∨
          (c2 = c1 ∨ (c2 = c1 + Z.abs (r2 - r1) ∧ c2 < n)
                   ∨ (c2 = c1 - Z.abs (r2 - r1) ∧ 0 ≤ c2))) as [Hdet|Hdet]
    by (unfold Attacks in Hatt; lia).
  - apply (ac3_loop_detects _ _ _ _ r1 r2 c1 c2 _ _) with (5 := Eac); [|done..].
    apply elem_of_arcs. rewrite !elem_of_range. done.
  - apply (ac3_loop_detects _ _ _ _ r2 r1 c2 c1 _ _) with (5 := Eac); [|done..].
    apply elem_of_arcs. rewrite !elem_of_range. done.
Qed.

(** The backtracking path is a decision procedure: it answers [None]
    only when no valid placement extends the partial assignment, and
    otherwise returns a valid placement that extends it. *)
Lemma backtrack_search_correct n (P : assignment) :
  0 ≤ n → rows_on_board n P → on_board n P →
  (backtrack_search n P (NQueensCSP n P) = NoSolution ∧
   ∀ sol, is_solution n sol → ¬ P ⊆ sol) ∨
  (∃ A, backtrack_search n P (NQueensCSP n P) = Solution A ∧ is_solution n A ∧ P ⊆ A).
Proof.
  intros Hn Hrows Hcols.
  destruct (ac3_is_Some n (NQueensCSP n P)) as [[b D'] Eac].
  unfold backtrack_search. rewrite Eac.
  assert (∀ sol, is_solution n sol → P ⊆ sol → b = true ∧ offers n D' P sol) as Hkeep.
  { intros sol Hsol Hsub. pose proof (NQueensCSP_offers n P sol Hsol Hsub) as Hoff.
    destruct Hsol as (Hc & _ & Hz). unfold ac3 in Eac.
    destruct (ac3_loop_keeps _ _ _ _ _ _ sol (arcs_proper n) Hc Hz Hoff Eac) as [-> Hoff'].
    split; [done|]. intros r c Hr _ Hsol. by apply Hoff'. }
  destruct b.
  2: { left. split; [done|]. intros sol Hsol Hsub. by destruct (Hkeep sol Hsol Hsub). }
  assert (zero_conflicts P) as Hz.
  { intros r1 c1 r2 c2 H1 H2 Hne.
    destruct (decide (Attacks r1 c1 r2 c2)) as [Hatt|Hna]; [|unfold Attacks in Hna; lia].
    assert (true = false); [|done].
    apply (ac3_detects_conflict n P r1 c1 r2 c2 true D'); eauto. }
  assert (domains_on_board n D') as HD.
  { intros r c Hc. unfold ac3 in Eac.
    apply (ac3_loop_subseteq _ _ _ _ _ _ Eac) in Hc. by apply (NQueensCSP_on_board n P Hcols r). }
  assert (length (unassigned n P) < S (Z.to_nat n))%nat as Hfuel.
  { pose proof (length_unassigned_le n P). lia. }
  destruct (backtrack_total (S (Z.to_nat n)) n P D' Hn Hrows Hfuel) as [Hnr Hnf].
  pose proof (backtrack_frame (S (Z.to_nat n)) n P D') as Hpost.
  destruct (backtrack (S (Z.to_nat n)) n P D') as [[res a'] D''] eqn:E.
  unfold frame_post in Hpost. simpl in Hpost, Hnr, Hnf |- *. destruct res; try done.
  - right. exists a. destruct Hpost as [-> Hsub]. split; [done|]. split; [|done].
    by apply (backtrack_sound _ _ _ _ _ _ _ Hrows Hcols Hz HD E).
  - left. split; [done|]. intros sol Hsol Hsub.
    destruct (Hkeep sol Hsol Hsub) as [_ Hoff].
    pose proof (backtrack_complete (S (Z.to_nat n)) n P D' sol Hsol Hsub Hoff) as Hc.
    by rewrite E in Hc.
Qed.

Lemma solve_small n (P : assignment) rnd :
  n ≤ 100 → solve n P rnd = backtrack_search n P (NQueensCSP n P).
Proof. intros Hn. unfold solve. by rewrite decide_True. Qed.

Lemma solve_large n (P : assignment) rnd :
  100 < n → solve n P rnd = min_conflicts n P (NQueensCSP n P) (n * 100) rnd.
Proof. intros Hn. unfold solve. rewrite decide_False; [done|lia]. Qed.
End BacktrackSearchFacts.

(** ** Min-conflicts: the pieces *)

Lemma choice_elem_of {A} (r : nat) (l : list A) x : choice r l = Some x → x ∈ l.
Proof. unfold choice. apply list_elem_of_lookup_2. Qed.

Lemma choice_is_Some {A} (r : nat) (l : list A) : l ≠ [] → is_Some (choice r l).
Proof.
  intros Hl. unfold choice. apply lookup_lt_is_Some.
  apply Nat.mod_upper_bound. by destruct l.
Qed.

Lemma randint0_spec r hi : 0 ≤ hi → ∃ c, randint0 r hi = Some c ∧ 0 ≤ c ≤ hi.
Proof.
  intros Hhi. unfold randint0. rewrite decide_True by done. eexists. split; [done|].
  pose proof (Z.mod_pos_bound (Z.of_nat r) (hi + 1)). lia.
Qed.

Lemma count_conflicts_zero row col (a : assignment) :
  count_conflicts row col a = 0%nat ↔
  ∀ r c, a !! r = Some c → r ≠ row → ¬ Attacks r c row col.
Proof.
  unfold count_conflicts. rewrite length_zero_iff_nil. split.
  - intros Hnil r c Hrc Hne Hatt.
    assert ((r, c) ∈ filter (λ rc : Z * Z, rc.1 ≠ row ∧ Attacks rc.1 rc.2 row col)
                       (map_to_list a)) as Hin.
    { apply list_elem_of_filter. split; [done|]. by apply elem_of_map_to_list. }
    rewrite Hnil in Hin. by apply elem_of_nil in Hin.
  - intros Hall. apply elem_of_nil_inv. intros [r c] Hin.
    apply list_elem_of_filter in Hin as [[Hne Hatt] Hin]. simpl in *.
    apply elem_of_map_to_list in Hin. by apply (Hall r c).
Qed.

Lemma best_cols_of_spec (f : Z → nat) (cols : list Z) :
  (∀ x, x ∈ best_cols_of f cols → x ∈ cols) ∧ (cols ≠ [] → best_cols_of f cols ≠ []).
Proof.
  unfold best_cols_of.
  set (step := λ (acc : option nat * list Z) (col : Z),
         match acc.1 with
         | None => (Some (f col), [col])
         | Some m =>
             if (f col <? m)%nat then (Some (f col), [col])
             else if (f col =? m)%nat then (acc.1, acc.2 ++ [col])
             else acc
         end).
  assert (∀ (l : list Z) acc,
            (∀ x, x ∈ (foldl step acc l).2 → x ∈ acc.2 ∨ x ∈ l) ∧
            ((acc.1 = None → l ≠ []) → (is_Some acc.1 → acc.2 ≠ []) →
             (foldl step acc l).2 ≠ [])) as Hgen.
  { induction l as [|y l IH]; intros acc; simpl.
    { split; [auto|]. intros H1 H2.
      destruct acc.1; [apply H2; eauto|by destruct (H1 eq_refl)]. }
    destruct (IH (step acc y)) as [IH1 IH2]. split.
    - intros x Hx. apply IH1 in Hx as [Hx|Hx]; [|right; by right].
      unfold step in Hx. destruct acc.1 as [m|]; simpl in Hx.
      + destruct (f y <? m)%nat; simpl in Hx.
        { apply list_elem_of_singleton in Hx as ->. right. left. }
        destruct (f y =? m)%nat; simpl in Hx; [|by left].
        apply elem_of_app in Hx as [Hx|Hx]; [by left|].
        apply list_elem_of_singleton in Hx as ->. right. left.
      + apply list_elem_of_singleton in Hx as ->. right. left.
    - intros _ H2. apply IH2.
      + unfold step. destruct acc.1 as [m|] eqn:E; [|done].
        destruct (f y <? m)%nat; [done|]. destruct (f y =? m)%nat; simpl; congruence.
      + intros _. unfold step. destruct acc.1 as [m|] eqn:E; simpl; [|done].
        destruct (f y <? m)%nat; [done|]. destruct (f y =? m)%nat; simpl.
        * by destruct acc.2.
        * apply H2. eauto. }
  destruct (Hgen cols (None, [])) as [H1 H2]. split.
  - intros x Hx. apply H1 in Hx as [Hx|Hx]; [by apply elem_of_nil in Hx|done].
  - intros Hne. apply H2; [done|]. simpl. by intros [? ?].
Qed.

Section MinConflictsFacts.
Context `{SetIter}.

Lemma seed_cons row rows n D (a : assignment) rnd k :
  seed (row :: rows) n D a rnd k =
  if decide (a !! row = None) then
    col ← (if decide (D !!! row = ∅) then randint0 (rnd k) (n - 1)
           else choice (rnd k)
                  (best_cols_of (λ col, count_conflicts row col a) (set_iter (D !!! row))));
    seed rows n D (<[row := col]> a) rnd (S k)
  else seed rows n D a rnd k.
Proof.
  cbn [seed]. destruct (decide (a !! row = None)); [|done].
  destruct (set_iter (D !!! row)) as [|c l] eqn:E.
  - apply set_iter_nil in E. by rewrite decide_True.
  - rewrite decide_False; [done|]. intros Hemp. apply set_iter_nil in Hemp. congruence.
Qed.

(** Seeding only adds rows, assigns every row it walks, and picks the
    columns from the row's set or, for an empty set, from the board. *)
Lemma seed_spec rows n D (a : assignment) rnd k a' k' :
  seed rows n D a rnd k = Some (a', k') →
  a ⊆ a' ∧
  (∀ r, r ∈ rows → is_Some (a' !! r)) ∧
  (∀ r, is_Some (a' !! r) → is_Some (a !! r) ∨ r ∈ rows) ∧
  (domains_on_board n D → on_board n a → on_board n a').
Proof.
  revert a k. induction rows as [|row rows IH]; intros a k.
  { simpl. intros ?. simplify_eq. split_and!; [done| |auto|done].
    intros r Hr. by apply elem_of_nil in Hr. }
  rewrite seed_cons. destruct (decide (a !! row = None)) as [Hfree|Hfixed].
  - destruct (if decide (D !!! row = ∅) then _ else _) as [col|] eqn:Ecol; [|done].
    simpl. intros E. destruct (IH _ _ E) as (IH1 & IH2 & IH3 & IH4).
    assert (a ⊆ <[row:=col]> a) as Hsub by by apply insert_subseteq.
    split_and!.
    + by etrans.
    + intros r Hr. apply elem_of_cons in Hr as [->|Hr]; [|by apply IH2].
      exists col. apply (lookup_weaken (<[row:=col]> a)); [|done]. apply lookup_insert_eq.
    + intros r Hr. apply IH3 in Hr as [Hr|Hr]; [|right; by right].
      rewrite lookup_insert in Hr. case_decide; [subst; right; left|by left].
    + intros HD Ha. apply IH4; [done|]. intros r c Hrc.
      rewrite lookup_insert in Hrc. case_decide; [|by eapply Ha]. simplify_eq.
      destruct (decide (D !!! r = ∅)).
      * unfold randint0 in Ecol. case_decide; [|done]. simplify_eq.
        pose proof (Z.mod_pos_bound (Z.of_nat (rnd k)) (n - 1 + 1)). lia.
      * apply choice_elem_of, best_cols_of_spec, elem_of_set_iter in Ecol.
        by apply (HD r).
  - intros E. destruct (IH _ _ E) as (IH1 & IH2 & IH3 & IH4). split_and!; [done| | |done].
    + intros r Hr. apply elem_of_cons in Hr as [->|Hr]; [|by apply IH2].
      destruct (a !! row) as [c|] eqn:Ea; [|done]. exists c.
      by apply (lookup_weaken a).
    + intros r Hr. apply IH3 in Hr as [Hr|Hr]; [by left|right; by right].
Qed.

Lemma seed_is_Some rows n D (a : assignment) rnd k :
  (∀ r, r ∈ rows → 0 ≤ r < n) → is_Some (seed rows n D a rnd k).
Proof.
  revert a k. induction rows as [|row rows IH]; intros a k Hrows; [by eexists|].
  rewrite seed_cons.
  assert (∀ r, r ∈ rows → 0 ≤ r < n) as Hrows' by (intros r Hr; apply Hrows; by right).
  destruct (decide (a !! row = None)); [|by apply IH].
  destruct (decide (D !!! row = ∅)) as [Hemp|Hne].
  - pose proof (Hrows row ltac:(left)).
    destruct (randint0_spec (rnd k) (n - 1)) as (c & -> & _); [lia|]. simpl. by apply IH.
  - destruct (choice_is_Some (rnd k)
                (best_cols_of (λ col, count_conflicts row col a) (set_iter (D !!! row))))
      as [c ->].
    + apply best_cols_of_spec. intros E. by apply set_iter_nil in E.
    + simpl. by apply IH.
Qed.

Lemma seed_all_assigned rows n D (a : assignment) rnd k :
  (∀ r, r ∈ rows → is_Some (a !! r)) → seed rows n D a rnd k = Some (a, k).
Proof.
  induction rows as [|row rows IH]; intros Hall; [done|].
  rewrite seed_cons. destruct (Hall row) as [c Hc]; [left|].
  rewrite decide_False by congruence. apply IH. intros r Hr. apply Hall. by right.
Qed.

Lemma conflicted_rows_spec rows fixed (a : assignment) l :
  conflicted_rows rows fixed a = Some l →
  ∀ r, r ∈ l ↔ (r ∈ rows ∧ (r ∉ fixed) ∧
                ∃ c, a !! r = Some c ∧ (0 < count_conflicts r c a)%nat).
Proof.
  revert l. induction rows as [|row rows IH]; intros l; simpl.
  { intros [= <-] r. split; [by intros ?%elem_of_nil|]. by intros [?%elem_of_nil _]. }
  destruct (decide (row ∉ fixed)) as [Hfree|Hfixed].
  - destruct (a !! row) as [col|] eqn:Ea; simpl; [|done].
    destruct (conflicted_rows rows fixed a) as [rest|]; simpl; [|done].
    specialize (IH rest eq_refl). intros [= <-] r.
    destruct (decide (0 < count_conflicts row col a)%nat) as [Hpos|Hzero].
    + rewrite !elem_of_cons, IH. naive_solver.
    + rewrite IH, elem_of_cons. naive_solver.
  - intros E r. rewrite (IH l E), elem_of_cons. naive_solver.
Qed.

Lemma conflicted_rows_is_Some rows fixed (a : assignment) :
  (∀ r, r ∈ rows → r ∉ fixed → is_Some (a !! r)) →
  is_Some (conflicted_rows rows fixed a).
Proof.
  induction rows as [|row rows IH]; intros Hall; simpl; [by eexists|].
  destruct IH as [rest Hrest]; [intros r Hr; apply Hall; by right|].
  destruct (decide (row ∉ fixed)) as [Hfree|Hfixed]; [|by eexists].
  destruct (Hall row) as [c Hc]; [left|done|]. rewrite Hc, Hrest. simpl. by eexists.
Qed.

Lemma conflicted_rows_all_fixed rows fixed (a : assignment) :
  (∀ r, r ∈ rows → r ∈ fixed) → conflicted_rows rows fixed a = Some [].
Proof.
  induction rows as [|row rows IH]; intros Hall; simpl; [done|].
  rewrite decide_False by (intros Hn; apply Hn, Hall; left).
  apply IH. intros r Hr. apply Hall. by right.
Qed.

Lemma repair_S steps n fixed (a : assignment) rnd k :
  repair (S steps) n fixed a rnd k =
  match conflicted_rows (range n) fixed a with
  | None => Raised
  | Some [] => Solution a
  | Some rows =>
      match choice (rnd k) rows with
      | None => Raised
      | Some row =>
          match choice (rnd (S k))
                  (best_cols_of (λ col, count_conflicts row col (<[row := col]> a))
                     (range n)) with
          | None => Raised
          | Some col => repair steps n fixed (<[row := col]> a) rnd (S (S k))
          end
      end
  end.
Proof. reflexivity. Qed.

(** One repair move: the row is a conflicted free row of the board and
    the column a column of the board. *)
Lemma repair_S_inv steps n fixed (a : assignment) rnd k res :
  repair (S steps) n fixed a rnd k = res →
  (conflicted_rows (range n) fixed a = None ∧ res = Raised) ∨
  (conflicted_rows (range n) fixed a = Some [] ∧ res = Solution a) ∨
  (∃ rows, conflicted_rows (range n) fixed a = Some rows ∧ rows ≠ [] ∧
     ((res = Raised ∧
       (choice (rnd k) rows = None ∨
        ∃ row, choice (rnd k) rows = Some row ∧
               choice (rnd (S k))
                 (best_cols_of (λ col, count_conflicts row col (<[row := col]> a))
                    (range n)) = None)) ∨
      (∃ row col, row ∈ rows ∧ 0 ≤ col < n ∧
                  res = repair steps n fixed (<[row := col]> a) rnd (S (S k))))).
Proof.
  rewrite repair_S. intros <-.
  destruct (conflicted_rows (range n) fixed a) as [[|r0 rows]|] eqn:Ec; [by auto..| |by auto].
  right. right. exists (r0 :: rows). split; [done|]. split; [done|].
  destruct (choice (rnd k) (r0 :: rows)) as [row|] eqn:Erow; [|by auto].
  destruct (choice (rnd (S k)) _) as [col|] eqn:Ecol.
  - right. exists row, col. split; [by apply choice_elem_of in Erow|]. split; [|done].
    apply choice_elem_of, best_cols_of_spec, elem_of_range in Ecol. done.
  - left. split; [done|]. right. eauto.
Qed.

(** What a successful repair loop hands back. *)
Lemma repair_Solution steps n fixed (a : assignment) rnd k A :
  repair steps n fixed a rnd k = Solution A →
  (∀ r, r ∈ fixed → A !! r = a !! r) ∧
  (∀ r, is_Some (A !! r) ↔ is_Some (a !! r)) ∧
  (on_board n a → on_board n A) ∧
  conflicted_rows (range n) fixed A = Some [].
Proof.
  revert a k. induction steps as [|steps IH]; intros a k E; [done|].
  apply repair_S_inv in E as [(_ & ?)|[(Ec & ?)|(rows & Ec & _ & Hcase)]]; [done| |].
  { by simplify_eq. }
  destruct Hcase as [(? & _)|(row & col & Hrow & Hcol & E)]; [done|].
  symmetry in E. destruct (IH _ _ E) as (IH1 & IH2 & IH3 & IH4).
  apply (conflicted_rows_spec _ _ _ _ Ec) in Hrow as (_ & Hfree & c & Hc & _).
  split_and!; [| | |done].
  - intros r Hr. rewrite IH1 by done. apply lookup_insert_ne. congruence.
  - intros r. rewrite IH2, lookup_insert. case_decide; [subst; split; eauto|done].
  - intros Ha. apply IH3. intros r c' Hrc. rewrite lookup_insert in Hrc.
    case_decide; [by simplify_eq|by eapply Ha].
Qed.

Lemma repair_no_raise steps n fixed (a : assignment) rnd k :
  (∀ r, 0 ≤ r < n → r ∉ fixed → is_Some (a !! r)) →
  repair steps n fixed a rnd k ≠ Raised ∧ repair steps n fixed a rnd k ≠ OutOfFuel.
Proof.
  revert a k. induction steps as [|steps IH]; intros a k Hall; [done|].
  destruct (repair (S steps) n fixed a rnd k) eqn:E; try done; exfalso.
  - apply repair_S_inv in E as [(Ec & _)|[(_ & ?)|(rows & Ec & Hne & Hcase)]]; [|done|].
    { destruct (conflicted_rows_is_Some (range n) fixed a) as [l Hl]; [|congruence].
      intros r Hr. apply Hall. by apply elem_of_range. }
    destruct Hcase as [(_ & [Hch|(row & Hrow & Hch)])|(row & col & Hrow & _ & E)].
    + destruct (choice_is_Some (rnd k) rows Hne). congruence.
    + apply choice_elem_of in Hrow.
      apply (conflicted_rows_spec _ _ _ _ Ec) in Hrow as (Hr & _).
      destruct (choice_is_Some (rnd (S k))
                  (best_cols_of (λ col, count_conflicts row col (<[row:=col]> a)) (range n)));
        [|congruence].
      apply best_cols_of_spec. intros Hnil. rewrite Hnil in Hr. by apply elem_of_nil in Hr.
    + destruct (IH (<[row:=col]> a) (S (S k))) as [IH1 _]; [|congruence].
      intros r Hr Hf. rewrite lookup_insert. case_decide; [eauto|by apply Hall].
  - apply repair_S_inv in E as [(_ & ?)|[(_ & ?)|(rows & Ec & Hne & Hcase)]]; [done..|].
    destruct Hcase as [(? & _)|(row & col & Hrow & _ & E)]; [done|].
    destruct (IH (<[row:=col]> a) (S (S k))) as [_ IH2]; [|congruence].
    intros r Hr Hf. rewrite lookup_insert. case_decide; [eauto|by apply Hall].
Qed.
End MinConflictsFacts.

(** ** Min-conflicts: the whole call *)

Section MinConflictsCall.
Context `{SetIter}.

Lemma min_conflicts_Solution n (P : assignment) D max_steps rnd A :
  min_conflicts n P D max_steps rnd = Solution A →
  P ⊆ A ∧
  (∀ r, is_Some (A !! r) ↔ is_Some (P !! r) ∨ 0 ≤ r < n) ∧
  (domains_on_board n D → on_board n P → on_board n A) ∧
  (∀ row, 0 ≤ row < n → row ∉ dom P →
          ∃ col, A !! row = Some col ∧ count_conflicts row col A = 0%nat).
Proof.
  unfold min_conflicts.
  destruct (seed (range n) n D P rnd 0) as [[a k]|] eqn:Es; [|done].
  destruct (seed_spec _ _ _ _ _ _ _ _ Es) as (Hsub & Hall & Honly & Hboard).
  intros Er. destruct (repair_Solution _ _ _ _ _ _ _ Er) as (Hfix & Hdom & Hb & Hc).
  assert (∀ r, is_Some (A !! r) ↔ is_Some (P !! r) ∨ 0 ≤ r < n) as Hkeys.
  { intros r. rewrite Hdom. split.
    - intros Hr. apply Honly in Hr as [?|Hr]; [by left|right]. by apply elem_of_range.
    - intros [[c Hr]|Hr].
      + exists c. by apply (lookup_weaken P).
      + apply Hall. by apply elem_of_range. }
  split_and!; [|done|by auto|].
  - apply map_subseteq_spec. intros r c Hr.
    rewrite Hfix by (apply elem_of_dom; eauto). by apply (lookup_weaken P).
  - intros row Hrow Hfree.
    destruct (proj2 (Hkeys row) (or_intror Hrow)) as [col Hcol].
    exists col. split; [done|].
    destruct (decide (0 < count_conflicts row col A)%nat) as [Hpos|Hzero]; [|lia].
    assert (row ∈ ([] : list Z)) as Hin; [|by apply elem_of_nil in Hin].
    apply (conflicted_rows_spec _ _ _ _ Hc). rewrite elem_of_range. eauto.
Qed.

Lemma min_conflicts_no_raise n (P : assignment) D max_steps rnd :
  min_conflicts n P D max_steps rnd ≠ Raised ∧
  min_conflicts n P D max_steps rnd ≠ OutOfFuel.
Proof.
  unfold min_conflicts.
  destruct (seed_is_Some (range n) n D P rnd 0) as [[a k] Es].
  { intros r Hr. by apply elem_of_range. }
  rewrite Es. apply repair_no_raise. intros r Hr _.
  destruct (seed_spec _ _ _ _ _ _ _ _ Es) as (_ & Hall & _). apply Hall.
  by apply elem_of_range.
Qed.

(** With every row of the board fixed there is nothing to seed and no
    row for the repair loop to look at. *)
Lemma min_conflicts_all_fixed n (P : assignment) D max_steps rnd :
  (∀ r, 0 ≤ r < n → is_Some (P !! r)) → 0 < max_steps →
  min_conflicts n P D max_steps rnd = Solution P.
Proof.
  intros Hall Hsteps. unfold min_conflicts. rewrite seed_all_assigned.
  2: { intros r Hr. apply Hall. by apply elem_of_range. }
  destruct (Z.to_nat max_steps) as [|steps] eqn:E; [lia|].
  rewrite repair_S, conflicted_rows_all_fixed; [done|].
  intros r Hr. apply elem_of_dom, Hall. by apply elem_of_range.
Qed.

Lemma zero_conflicts_of_counts n (A : assignment) :
  (∀ r, is_Some (A !! r) → 0 ≤ r < n) →
  (∀ row, 0 ≤ row < n → ∃ col, A !! row = Some col ∧ count_conflicts row col A = 0%nat) →
  zero_conflicts A.
Proof.
  intros Hrows Hzero r1 c1 r2 c2 H1 H2 Hne.
  destruct (Hzero r2) as (c & Hc & Hcount); [apply Hrows; eauto|].
  assert (c = c2) as -> by congruence.
  rewrite count_conflicts_zero in Hcount. specialize (Hcount r1 c1 H1 Hne).
  unfold Attacks in Hcount. lia.
Qed.
End MinConflictsCall.

(** ** The claims about [solve] *)

(** The budgets built into the embedding are never used up: [solve]
    does not answer [OutOfFuel], whatever its arguments. *)
Lemma solve_fuel_suffices `{SetIter} n (P : assignment) rnd : solve n P rnd ≠ OutOfFuel.
Proof.
  unfold solve. destruct (decide (n ≤ 100)); [|apply min_conflicts_no_raise].
  unfold backtrack_search.
  destruct (ac3_is_Some n (NQueensCSP n P)) as [[[] D'] ->]; [|done].
  apply backtrack_fuel. pose proof (length_unassigned_le n P). lia.
Qed.


(** C1, amended.  On an empty board of size 4 to 100 [solve] returns a
    complete assignment of the rows [0 .. n-1] to columns of the board in
    which every two distinct rows have different columns and lie on
    different diagonals.  Above 100 the min-conflicts path either reports
    no solution or returns such an assignment; it raises nothing. *)
Theorem solve_empty_board `{SetIter} (n : Z) (rnd : nat → nat) :
  4 ≤ n →
  (n ≤ 100 → ∃ A, solve n ∅ rnd = Solution A ∧ is_solution n A) ∧
  (100 < n → solve n ∅ rnd = NoSolution ∨
             ∃ A, solve n ∅ rnd = Solution A ∧ is_solution n A).
Proof.
  intros Hn. split; intros Hsize.
  - rewrite solve_small by done.
    destruct (backtrack_search_correct n ∅) as [[_ Hnone]|(A & E & HA & _)]; [lia|..].
    + intros r [c Hr]. by rewrite lookup_empty in Hr.
    + intros r c Hr. by rewrite lookup_empty in Hr.
    + exfalso. apply (Hnone (placement n)); [apply placement_is_solution; lia|].
      apply map_empty_subseteq.
    + eauto.
  - rewrite solve_large by done.
    destruct (min_conflicts_no_raise n ∅ (NQueensCSP n ∅) (n * 100) rnd) as [Hnr Hnf].
    destruct (min_conflicts n ∅ (NQueensCSP n ∅) (n * 100) rnd) as [A| | |] eqn:E;
      [|by left|done..].
    right. exists A. split; [done|].
    destruct (min_conflicts_Solution _ _ _ _ _ _ E) as (_ & Hkeys & Hb & Hzero).
    assert (∀ r, is_Some (A !! r) ↔ 0 ≤ r < n) as Hkeys'.
    { intros r. rewrite Hkeys, lookup_empty. split; [intros [[? ?]|?]; done|auto]. }
    split_and!.
    + apply set_eq. intros r.
      by rewrite elem_of_dom, Hkeys', elem_of_list_to_set, elem_of_range.
    + apply Hb; [|intros r c Hr; by rewrite lookup_empty in Hr].
      apply NQueensCSP_on_board. intros r c Hr. by rewrite lookup_empty in Hr.
    + apply (zero_conflicts_of_counts n); [intros r; apply Hkeys'|].
      intros row Hrow. apply Hzero; [done|]. rewrite dom_empty_L. set_solver.
Qed.

(** The amended C1 on the 8-board of the test suite. *)
Lemma solve_empty_board_witness :
  ∃ A, solve 8 ∅ (λ _, 0%nat) = Solution A ∧ is_solution 8 A.
Proof.
  apply (proj1 (solve_empty_board 8 (λ _, 0%nat) ltac:(lia))). lia.
Defined.

(** ** A run of min-conflicts that never converges *)

Lemma choice_first {A} (x : A) (l : list A) : choice 0 (x :: l) = Some x.
Proof. unfold choice. by rewrite Nat.Div0.mod_0_l. Qed.

Section FirstPick.
Context `{SetIter}.

(** Under [first_pick] a repair step moves the first conflicted row to
    the first of its best columns. *)
Lemma repair_first_pick steps n fixed (a : assignment) k row col :
  conflicted_rows (range n) fixed a ≫= head = Some row →
  head (best_cols_of (λ col, count_conflicts row col (<[row := col]> a)) (range n))
    = Some col →
  repair (S steps) n fixed a first_pick k
  = repair steps n fixed (<[row := col]> a) first_pick (S (S k)).
Proof.
  intros Hrow Hcol. rewrite repair_S.
  destruct (conflicted_rows (range n) fixed a) as [[|r rows]|]; simplify_eq/=.
  unfold first_pick at 1 2. rewrite choice_first.
  destruct (best_cols_of _ _) as [|c cols]; simplify_eq/=.
  by rewrite choice_first.
Qed.

(** If that column is the one the row already has, the state never
    changes again and the step budget runs out. *)
Lemma repair_first_pick_stuck steps n fixed (a : assignment) k row col :
  conflicted_rows (range n) fixed a ≫= head = Some row →
  head (best_cols_of (λ col, count_conflicts row col (<[row := col]> a)) (range n))
    = Some col →
  a !! row = Some col →
  repair steps n fixed a first_pick k = NoSolution.
Proof.
  intros Hrow Hcol Hsame. revert k. induction steps as [|steps IH]; intros k; [done|].
  rewrite (repair_first_pick _ _ _ _ _ row col) by done.
  rewrite insert_id by done. apply IH.
Qed.
End FirstPick.

(** C1, as stated, fails above 100: on the empty 101-board, when every
    random choice falls on the first candidate, the seeding and two repair
    moves lead to an assignment in which row 2 is in conflict yet already
    sits on its best column; the remaining 10098 steps change nothing and
    [solve] reports no solution. *)
Lemma solve_101_reports_no_solution : solve 101 ∅ first_pick = NoSolution.
Proof.
  rewrite solve_large by lia. unfold min_conflicts.
  assert (seed (range 101) 101 (NQueensCSP 101 ∅) ∅ first_pick 0 = Some (seeded_101, 101%nat))
    as -> by (vm_compute; reflexivity).
  replace (Z.to_nat (101 * 100)) with (S (S (Z.to_nat 10098))) by lia.
  rewrite (repair_first_pick _ _ _ _ _ 0 72) by (vm_compute; reflexivity).
  rewrite (repair_first_pick _ _ _ _ _ 1 68) by (vm_compute; reflexivity).
  fold stuck_101.
  apply (repair_first_pick_stuck _ _ _ _ _ 2 4); vm_compute; reflexivity.
Qed.

(** C2, as stated, fails for n = 1: the single queen at (0, 0) is a valid
    placement and [solve] returns it. *)
Lemma solve_1_returns_the_queen : solve 1 ∅ first_pick = Solution {[0 := 0]}.
Proof. vm_compute. reflexivity. Qed.

(** C2, amended.  With no partial assignment [solve] reports no solution
    for n = 2 and for n = 3, and for n = 1 it returns the assignment
    [{0: 0}]; this holds for every set iteration order. *)
Theorem solve_tiny_boards `{SetIter} (rnd : nat → nat) :
  solve 1 ∅ rnd = Solution {[0 := 0]} ∧
  solve 2 ∅ rnd = NoSolution ∧
  solve 3 ∅ rnd = NoSolution.
Proof.
  assert (rows_on_board 1 ∅ ∧ rows_on_board 2 ∅ ∧ rows_on_board 3 ∅) as (R1 & R2 & R3).
  { split_and!; intros r [c Hr]; by rewrite lookup_empty in Hr. }
  assert (on_board 1 ∅ ∧ on_board 2 ∅ ∧ on_board 3 ∅) as (B1 & B2 & B3).
  { split_and!; intros r c Hr; by rewrite lookup_empty in Hr. }
  rewrite !solve_small by lia. split_and!.
  - destruct (backtrack_search_correct 1 ∅) as [[_ Hnone]|(A & -> & (Hc & Hb & _) & _)];
      [lia|done..| |].
    + exfalso. apply (Hnone {[0 := 0]}); [|apply map_empty_subseteq].
      apply check_solution_sound. vm_compute. reflexivity.
    + f_equal. apply map_eq. intros r. destruct (decide (r = 0)) as [->|Hr].
      * destruct (complete_lookup 1 A 0 Hc) as [c Hc0]; [lia|].
        specialize (Hb 0 c Hc0). rewrite Hc0, lookup_singleton_eq. f_equal. lia.
      * rewrite lookup_singleton_ne by done. apply not_elem_of_dom.
        rewrite Hc, elem_of_list_to_set, elem_of_range. lia.
  - destruct (backtrack_search_correct 2 ∅) as [[-> _]|(A & _ & (Hc & Hb & Hz) & _)];
      [lia|done..|].
    exfalso.
    destruct (complete_lookup 2 A 0 Hc) as [c0 H0]; [lia|].
    destruct (complete_lookup 2 A 1 Hc) as [c1 H1]; [lia|].
    pose proof (Hb _ _ H0). pose proof (Hb _ _ H1).
    pose proof (Hz 0 c0 1 c1 H0 H1). lia.
  - destruct (backtrack_search_correct 3 ∅) as [[-> _]|(A & _ & (Hc & Hb & Hz) & _)];
      [lia|done..|].
    exfalso.
    destruct (complete_lookup 3 A 0 Hc) as [c0 H0]; [lia|].
    destruct (complete_lookup 3 A 1 Hc) as [c1 H1]; [lia|].
    destruct (complete_lookup 3 A 2 Hc) as [c2 H2]; [lia|].
    pose proof (Hb _ _ H0). pose proof (Hb _ _ H1). pose proof (Hb _ _ H2).
    pose proof (Hz 0 c0 1 c1 H0 H1). pose proof (Hz 1 c1 2 c2 H1 H2).
    pose proof (Hz 0 c0 2 c2 H0 H2). lia.
Qed.

(** C5.  When the partial assignment is itself a complete valid placement
    for a board of size [n], [solve] returns exactly that assignment, on
    either path and whatever the random draws. *)
Theorem solve_returns_given_solution `{SetIter} (n : Z) (P : assignment)
    (rnd : nat → nat) :
  0 ≤ n → is_solution n P → solve n P rnd = Solution P.
Proof.
  intros Hn (Hc & Hb & Hz). destruct (decide (n ≤ 100)) as [Hsmall|Hlarge].
  - rewrite solve_small by done.
    destruct (backtrack_search_correct n P) as [[_ Hnone]|(A & -> & (HcA & _) & Hsub)];
      [done| |done| |].
    + intros r Hr. apply elem_of_dom in Hr.
      by rewrite Hc, elem_of_list_to_set, elem_of_range in Hr.
    + by destruct (Hnone P).
    + f_equal. symmetry. apply map_eq. intros r.
      destruct (P !! r) as [c|] eqn:E; [symmetry; by apply (lookup_weaken P)|].
      symmetry. apply not_elem_of_dom. rewrite HcA, <- Hc. by apply not_elem_of_dom.
  - rewrite solve_large by lia. apply min_conflicts_all_fixed; [|lia].
    intros r Hr. by apply (complete_lookup n).
Qed.

(** C5 on the known 4-queens placement of the test suite. *)
Lemma solve_returns_given_solution_witness :
  solve 4 {[0 := 1; 1 := 3; 2 := 0; 3 := 2]} first_pick
  = Solution {[0 := 1; 1 := 3; 2 := 0; 3 := 2]}.
Proof.
  apply (solve_returns_given_solution 4 {[0 := 1; 1 := 3; 2 := 0; 3 := 2]} first_pick);
    [lia|].
  apply check_solution_sound. vm_compute. reflexivity.
Defined.

(** C7.  Whatever [solve] returns agrees with the partial assignment on
    every row the partial assignment fixes, on the backtracking path and on
    the min-conflicts path alike (and whether or not the fixed columns lie
    on the board). *)
Theorem solve_keeps_partial_assignment `{SetIter} (n : Z) (P A : assignment)
    (rnd : nat → nat) :
  solve n P rnd = Solution A → ∀ r c, P !! r = Some c → A !! r = Some c.
Proof.
  intros E. apply map_subseteq_spec. revert E. unfold solve.
  destruct (decide (n ≤ 100)).
  - unfold backtrack_search.
    destruct (ac3 n (NQueensCSP n P)) as [[[] D']|]; [|done..].
    pose proof (backtrack_frame (S (Z.to_nat n)) n P D') as Hpost.
    destruct (backtrack (S (Z.to_nat n)) n P D') as [[res a'] D''].
    unfold frame_post in Hpost. simpl in Hpost |- *. intros ->. by destruct Hpost as [-> ?].
  - intros E. by destruct (min_conflicts_Solution _ _ _ _ _ _ E) as (? & _).
Qed.

(** C7 on the 8-board with one queen fixed in the corner, as in the test
    suite. *)
Lemma solve_keeps_partial_assignment_witness :
  ∃ A, solve 8 {[0 := 0]} first_pick = Solution A ∧ A !! 0 = Some 0.
Proof.
  destruct (solve 8 {[0 := 0]} first_pick) as [A| | |] eqn:E;
    [|vm_compute in E; discriminate E..].
  exists A. split; [done|].
  apply (solve_keeps_partial_assignment 8 {[0 := 0]} A first_pick E 0 0).
  apply lookup_singleton_eq.
Defined.

(** ** Fixed rows that attack each other *)

Lemma column_0_lookup n r : 0 ≤ r < n → column_0 n !! r = Some 0.
Proof.
  intros Hr. unfold column_0. apply elem_of_list_to_map.
  - rewrite <- list_fmap_compose. simpl. rewrite list_fmap_id. apply NoDup_range.
  - apply list_elem_of_fmap. exists r. split; [done|]. by apply elem_of_range.
Qed.

(** C8.  [min_conflicts] returns an assignment only when every row of the
    board outside the partial assignment has a column with no conflict
    against any other row; the fixed rows are never examined.  So on the
    6-board with rows 0 and 1 fixed on one diagonal, [{0: 0, 1: 1}], the
    call (default budget, first candidate at every random choice) returns
    an assignment that contains the two attacking queens. *)
Theorem min_conflicts_examines_free_rows_only :
  (∀ (H : SetIter) n (P : assignment) D max_steps rnd A,
     min_conflicts n P D max_steps rnd = Solution A →
     ∀ row, 0 ≤ row < n → row ∉ dom P →
       ∃ col, A !! row = Some col ∧ count_conflicts row col A = 0%nat ∧
              ∀ r c, A !! r = Some c → r ≠ row → ¬ Attacks r c row col) ∧
  (min_conflicts 6 {[0 := 0; 1 := 1]} (NQueensCSP 6 {[0 := 0; 1 := 1]}) 1000 first_pick
   = Solution {[0 := 0; 1 := 1; 2 := 3; 3 := 5; 4 := 2; 5 := 4]} ∧
   Attacks 0 0 1 1).
Proof.
  split.
  - intros H n P D max_steps rnd A E row Hrow Hfree.
    destruct (min_conflicts_Solution _ _ _ _ _ _ E) as (_ & _ & _ & Hzero).
    destruct (Hzero row Hrow Hfree) as (col & Hcol & Hcount).
    exists col. split_and!; [done..|]. by apply count_conflicts_zero.
  - split; [vm_compute; reflexivity|]. unfold Attacks. lia.
Qed.

(** C8 on the run it exhibits: row 2, which is free, has no conflict in the
    returned assignment. *)
Lemma min_conflicts_examines_free_rows_only_witness :
  ∃ col, ({[0 := 0; 1 := 1; 2 := 3; 3 := 5; 4 := 2; 5 := 4]} : assignment) !! 2 = Some col ∧
         count_conflicts 2 col {[0 := 0; 1 := 1; 2 := 3; 3 := 5; 4 := 2; 5 := 4]} = 0%nat ∧
         ∀ r c, ({[0 := 0; 1 := 1; 2 := 3; 3 := 5; 4 := 2; 5 := 4]} : assignment) !! r = Some c →
                r ≠ 2 → ¬ Attacks r c 2 col.
Proof.
  apply (proj1 min_conflicts_examines_free_rows_only ascending 6 {[0 := 0; 1 := 1]}
           (NQueensCSP 6 {[0 := 0; 1 := 1]}) 1000 first_pick).
  - vm_compute. reflexivity.
  - lia.
  - intros Hin. apply elem_of_dom in Hin as [c Hc]. vm_compute in Hc. discriminate Hc.
Defined.

(** C6.  On the backtracking path (n ≤ 100) the claim holds: two fixed rows
    of the board that share a column or a diagonal make [solve] report no
    solution.  On the min-conflicts path (n > 100) it does not: with every
    row of the 101-board fixed at column 0 [solve] returns that very
    assignment, whatever the random draws; and with only rows 0 and 1
    fixed, on one diagonal, there is a run that returns an assignment
    containing both. *)
Theorem solve_conflicting_partial_assignment :
  (∀ (H : SetIter) n (P : assignment) rnd r1 c1 r2 c2,
     n ≤ 100 → 0 ≤ r1 < n → 0 ≤ r2 < n → r1 ≠ r2 →
     P !! r1 = Some c1 → P !! r2 = Some c2 → Attacks r1 c1 r2 c2 →
     solve n P rnd = NoSolution) ∧
  (∀ (H : SetIter) rnd, solve 101 (column_0 101) rnd = Solution (column_0 101)) ∧
  (∃ A, solve 101 {[0 := 0; 1 := 1]} half_pick = Solution A ∧
        A !! 0 = Some 0 ∧ A !! 1 = Some 1).
Proof.
  split_and!.
  - intros H n P rnd r1 c1 r2 c2 Hn Hr1 Hr2 Hne H1 H2 Hatt.
    rewrite solve_small by done. unfold backtrack_search.
    destruct (ac3_is_Some n (NQueensCSP n P)) as [[b D'] Eac].
    rewrite Eac. by rewrite (ac3_detects_conflict n P r1 c1 r2 c2 b D').
  - intros H rnd. rewrite solve_large by lia. apply min_conflicts_all_fixed; [|lia].
    intros r Hr. rewrite column_0_lookup by done. eauto.
  - assert (is_Solution (solve 101 {[0 := 0; 1 := 1]} half_pick) = true) as Hsol
      by (vm_compute; reflexivity).
    destruct (solve 101 {[0 := 0; 1 := 1]} half_pick) as [A| | |] eqn:E;
      [|discriminate Hsol..].
    exists A. split; [reflexivity|]. rewrite solve_large in E by lia.
    destruct (min_conflicts_Solution _ _ _ _ _ _ E) as (Hsub & _). clear E Hsol.
    split; apply (lookup_weaken {[0 := 0; 1 := 1]} A); done.
Qed.

(** ** Columns beyond the board *)

(** C3, as stated, fails: [NQueensCSP] does not filter its partial
    assignment.  Given [{0: 10}] on the 4-board it keeps row 0 fixed at
    column 10 and [solve] returns an assignment with the queen of row 0 off
    the board, while with row 0 absent it returns a placement on the
    board. *)
Lemma solve_keeps_off_board_column :
  solve 4 {[0 := 10]} first_pick = Solution {[0 := 10; 1 := 0; 2 := 3; 3 := 1]} ∧
  solve 4 (delete 0 {[0 := 10]}) first_pick = Solution {[0 := 1; 1 := 3; 2 := 0; 3 := 2]} ∧
  solve 4 {[0 := 10]} first_pick ≠ solve 4 (delete 0 {[0 := 10]}) first_pick.
Proof.
  assert (solve 4 {[0 := 10]} first_pick = Solution {[0 := 10; 1 := 0; 2 := 3; 3 := 1]})
    as E1 by (vm_compute; reflexivity).
  assert (solve 4 (delete 0 {[0 := 10]}) first_pick
          = Solution {[0 := 1; 1 := 3; 2 := 0; 3 := 2]}) as E2 by (vm_compute; reflexivity).
  split_and!; [exact E1|exact E2|]. rewrite E1, E2. intros Heq.
  apply (f_equal (λ res, match res with Solution a => a !! 0 | _ => None end)) in Heq.
  vm_compute in Heq. discriminate Heq.
Qed.

Section ReadInputFacts.
Variable strip : string → string.
Variable int : string → option Z.

Lemma read_input_fold (N : Z) (l : list string) (s : Z) (pa0 : assignment) :
  let pa := foldl (λ (pa : assignment) (rl : Z * string),
                     match int rl.2 with
                     | Some col => if decide (0 ≤ col < N) then <[rl.1 := col]> pa else pa
                     | None => pa
                     end) pa0 (zip (seqZ s (Z.of_nat (length l))) l) in
  (∀ (i : nat) line, l !! i = Some line →
     pa !! (s + Z.of_nat i) =
     match int line with
     | Some col => if decide (0 ≤ col < N) then Some col else pa0 !! (s + Z.of_nat i)
     | None => pa0 !! (s + Z.of_nat i)
     end) ∧
  (∀ r, r < s ∨ s + Z.of_nat (length l) ≤ r → pa !! r = pa0 !! r).
Proof.
  revert s pa0. induction l as [|line0 l IH]; intros s pa0.
  { simpl. split; [intros i line Hi; by rewrite lookup_nil in Hi|done]. }
  cbn [length]. rewrite seqZ_cons by lia.
  replace (Z.pred (Z.of_nat (S (length l)))) with (Z.of_nat (length l)) by lia.
  cbn [zip zip_with foldl]. cbn [fst snd].
  set (pa1 := match int line0 with
              | Some col => if decide (0 ≤ col < N) then <[s := col]> pa0 else pa0
              | None => pa0
              end).
  destruct (IH (Z.succ s) pa1) as [IH1 IH2].
  assert (∀ r, r ≠ s → pa1 !! r = pa0 !! r) as Hne.
  { intros r Hr. unfold pa1. destruct (int line0) as [col|]; [|done].
    destruct (decide (0 ≤ col < N)); [|done]. by rewrite lookup_insert_ne. }
  split.
  - intros [|i] line Hi.
    + injection Hi as ->. rewrite Z.add_0_r, IH2 by lia. unfold pa1.
      destruct (int line) as [col|]; [|done].
      destruct (decide (0 ≤ col < N)); [|done]. by rewrite lookup_insert_eq.
    + simpl in Hi. specialize (IH1 i line Hi).
      replace (s + Z.of_nat (S i)) with (Z.succ s + Z.of_nat i) by lia.
      rewrite IH1, Hne by lia. done.
  - intros r Hr. rewrite IH2 by lia. apply Hne. lia.
Qed.

(** C3, amended.  It is [read_input] that treats a column outside
    [[0, n)] as unassigned: the partial assignment it builds holds, for
    the row of each non-blank line, the integer on that line when it lies
    in [[0, n)], and nothing otherwise (a line that is no integer
    included); so every row and column it hands to the solver lies on the
    board, and no error is raised. *)
Theorem read_input_ignores_off_board_columns (lines : list string) :
  (∀ (row : nat) line,
     stripped_lines strip lines !! row = Some line →
     (read_input strip int lines).1 !! Z.of_nat row =
     match int line with
     | Some col =>
         if decide (0 ≤ col < (read_input strip int lines).2) then Some col else None
     | None => None
     end) ∧
  (∀ r c, (read_input strip int lines).1 !! r = Some c →
          0 ≤ r < (read_input strip int lines).2 ∧
          0 ≤ c < (read_input strip int lines).2).
Proof.
  unfold read_input. cbn [fst snd]. unfold range.
  set (l := stripped_lines strip lines).
  destruct (read_input_fold (Z.of_nat (length l)) l 0 ∅) as [H1 H2].
  set (n := Z.of_nat (length l)) in *. split.
  - intros row line Hrow. specialize (H1 row line Hrow).
    rewrite Z.add_0_l in H1. rewrite H1, lookup_empty. done.
  - intros r c Hrc.
    destruct (decide (0 ≤ r < n)) as [Hr|Hr].
    + split; [done|].
      destruct (lookup_lt_is_Some_2 l (Z.to_nat r)) as [line Hline]; [lia|].
      specialize (H1 _ _ Hline). rewrite Z.add_0_l, Z2Nat.id in H1 by lia.
      rewrite H1, lookup_empty in Hrc. destruct (int line) as [col|]; [|done].
      destruct (decide (0 ≤ col < n)); by simplify_eq.
    + rewrite H2, lookup_empty in Hrc by lia. done.
Qed.
End ReadInputFacts.

(** ** The scenarios of the repository's test suite, run on the embedding *)

(** [test_small_board]: the placement found on the empty 8-board. *)
Example test_small_board :
  solve 8 ∅ first_pick
  = Solution {[0 := 0; 1 := 5; 2 := 7; 3 := 2; 4 := 6; 5 := 3; 6 := 1; 7 := 4]} ∧
  check_solution 8 {[0 := 0; 1 := 5; 2 := 7; 3 := 2; 4 := 6; 5 := 3; 6 := 1; 7 := 4]} = true.
Proof. split; vm_compute; reflexivity. Qed.

(** [test_invalid_board]: two fixed queens on one diagonal of the 4-board. *)
Example test_invalid_board : solve 4 {[0 := 0; 1 := 1]} first_pick = NoSolution.
Proof. vm_compute. reflexivity. Qed.

(** [test_input_parsing], [test_invalid_input] and [test_partial_input]:
    the files [1 3 0 2], [0 foo -5 3] and [0 -1 2 -1], one value per
    line. *)
Example test_input_parsing :
  read_input ascii_strip ascii_int (with_newline <$> ["1"; "3"; "0"; "2"])
  = ({[0 := 1; 1 := 3; 2 := 0; 3 := 2]}, 4).
Proof. vm_compute. reflexivity. Qed.

Example test_invalid_input :
  read_input ascii_strip ascii_int (with_newline <$> ["0"; "foo"; "-5"; "3"])
  = ({[0 := 0; 3 := 3]}, 4).
Proof. vm_compute. reflexivity. Qed.

Example test_partial_input :
  read_input ascii_strip ascii_int (with_newline <$> ["0"; "-1"; "2"; "-1"])
  = ({[0 := 0; 2 := 2]}, 4).
Proof. vm_compute. reflexivity. Qed.

(** * Further properties of the code

    The results below go beyond the claims above: they describe the
    domain store [__init__] builds, what [revise], [ac3],
    [forward_check] and the two ordering heuristics compute, how the
    conflict counters relate, which inputs [solve] decides, and what
    [read_input], [print_solution] and [main] do with a file. *)

(** ** The domain store built by [__init__] *)
Lemma spared_iff_not_Attacks n row col r x :
  0 ≤ x < n → spared n col (Z.abs (r - row)) x ↔ ¬ Attacks row col r x.
Proof.
  intros Hx. unfold spared, Attacks. split.
  - intros (H1 & H2 & H3) [->|Habs]; [done|]. lia.
  - intros Hna. split_and!; [intros ->; apply Hna; by left|..];
      intros [-> _]; apply Hna; right; lia.
Qed.

(** X1.  After [__init__] (which ends with [initialize_domains]) every
    row of the board has a domain; the domain of a row fixed by the
    partial assignment is the singleton of its column; the domain of a
    free row holds exactly the columns of the board that no fixed queen
    attacks (whether or not the fixed queens are on the board). *)
Theorem NQueensCSP_domains (n : Z) (P : assignment) (r : Z) :
  0 ≤ r < n →
  is_Some (NQueensCSP n P !! r) ∧
  (∀ c, P !! r = Some c → NQueensCSP n P !!! r = {[c]}) ∧
  (P !! r = None →
   ∀ x, x ∈ NQueensCSP n P !!! r ↔
        0 ≤ x < n ∧ ∀ row col, P !! row = Some col → ¬ Attacks row col r x).
Proof.
  intros Hr. split_and!.
  - apply elem_of_dom. rewrite NQueensCSP_dom, elem_of_list_to_set.
    by apply elem_of_range.
  - intros c Hc. by apply NQueensCSP_fixed.
  - intros Hfree x. unfold NQueensCSP. rewrite initialize_domains_elem.
    rewrite lookup_total_alt, fresh_domains_lookup, decide_True, Hfree by done.
    cbn. rewrite elem_of_list_to_set, elem_of_range. split.
    + intros [Hx Hsp]. split; [done|]. intros row col Hrow.
      apply spared_iff_not_Attacks with (n := n); [done|]. by apply Hsp.
    + intros [Hx Hna]. split; [done|]. intros _ _ row col Hrow.
      apply spared_iff_not_Attacks; [done|]. by apply Hna.
Qed.

(** X1 on the 4-board with a queen fixed at row 0, column 1, for row 2. *)
Lemma NQueensCSP_domains_witness :
  0 ≤ 2 < 4 ∧
  is_Some (NQueensCSP 4 {[0 := 1]} !! 2) ∧
  (∀ c, ({[0 := 1]} : assignment) !! 2 = Some c → NQueensCSP 4 {[0 := 1]} !!! 2 = {[c]}) ∧
  (({[0 := 1]} : assignment) !! 2 = None →
   ∀ x, x ∈ NQueensCSP 4 {[0 := 1]} !!! 2 ↔
        0 ≤ x < 4 ∧ ∀ row col, ({[0 := 1]} : assignment) !! row = Some col →
                               ¬ Attacks row col 2 x).
Proof. split; [lia|]. apply (NQueensCSP_domains 4 {[0 := 1]} 2). lia. Defined.

(** ** [revise] *)

Section ReviseFacts.
Context `{SetIter}.

Lemma revise_elem n D i j b D' x :
  (∀ y, y ∈ D !!! i → 0 ≤ y < n) →
  revise n D i j = (b, D') →
  x ∈ D' !!! i ↔ x ∈ D !!! i ∧ ∃ w, w ∈ D !!! j ∧ ¬ Attacks i x j w.
Proof.
  intros Hon Hrev. unfold revise in Hrev.
  destruct (decide (size (D !!! j) = 1%nat)) as [Hsz|Hsz].
  - destruct (set_iter (D !!! j)) as [|c l] eqn:Hit.
    { apply set_iter_nil in Hit. rewrite Hit, size_empty in Hsz. done. }
    destruct (set_iter_singleton _ _ _ Hsz Hit) as [Hj _].
    injection Hrev as <- <-.
    rewrite alter_const_total by apply discard_attacked_subseteq.
    rewrite discard_attacked_elem, Hj. split.
    + intros (Hx & Hsp). split; [done|]. exists c. split; [set_solver|].
      rewrite Attacks_sym. by apply (spared_iff_not_Attacks n j c i x); [apply Hon|].
    + intros (Hx & w & Hw & Hna). apply elem_of_singleton in Hw as ->.
      split; [done|]. rewrite Attacks_sym in Hna.
      by apply (spared_iff_not_Attacks n j c i x) in Hna; [|apply Hon].
  - destruct (revise_general_shape D i j) as (X & Heq & HX & _).
    rewrite Heq in Hrev. injection Hrev as _ <-.
    rewrite alter_const_total by (intros y Hy; by apply HX in Hy as [? _]).
    rewrite HX. split.
    + intros [Hx Hnall]. split; [done|].
      destruct (decide (set_Exists (λ w, ¬ Attacks i x j w) (D !!! j))) as [Hex|Hex].
      { destruct Hex as (w & Hw & Hna). eauto. }
      exfalso. apply Hnall. intros w Hw.
      destruct (decide (Attacks i x j w)); [done|].
      exfalso. apply Hex. by exists w.
    + intros (Hx & w & Hw & Hna). split; [done|]. intros Hall. apply Hna. by apply Hall.
Qed.

Lemma revise_filter n (D : domain_map) i j :
  ∃ keep : Z → Prop,
    ∀ D0 : domain_map, D0 !!! j = D !!! j →
      ∀ x, x ∈ (revise n D0 i j).2 !!! i ↔ x ∈ D0 !!! i ∧ keep x.
Proof.
  destruct (decide (size (D !!! j) = 1%nat)) as [Hsz|Hsz].
  - destruct (set_iter (D !!! j)) as [|c l] eqn:Hit.
    { apply set_iter_nil in Hit. rewrite Hit, size_empty in Hsz. done. }
    exists (λ x, x ≠ c ∧ ¬ (x = c + Z.abs (i - j) ∧ c + Z.abs (i - j) < n) ∧
                 ¬ (x = c - Z.abs (i - j) ∧ 0 ≤ c - Z.abs (i - j))).
    intros D0 Hj x. unfold revise. rewrite Hj, decide_True, Hit by done. cbn [snd].
    rewrite alter_const_total by apply discard_attacked_subseteq.
    apply discard_attacked_elem.
  - exists (λ x, ¬ ∀ w, w ∈ D !!! j → Attacks i x j w).
    intros D0 Hj x. unfold revise. rewrite Hj, decide_False by done.
    destruct (revise_general_shape D0 i j) as (X & Heq & HX & _).
    rewrite Heq. cbn [snd].
    rewrite alter_const_total by (intros y Hy; by apply HX in Hy as [? _]).
    rewrite HX, Hj. done.
Qed.

End ReviseFacts.

(** X2.  [revise] returns [True] exactly when it changed row_i's set, as
    its docstring says; it only ever removes columns from that set, leaves
    every other row of the store as it was and neither adds nor drops a
    row. *)
Theorem revise_reports_change `{SetIter} (n : Z) (D : domain_map) (row_i row_j : Z) :
  ((revise n D row_i row_j).1 = true ↔ (revise n D row_i row_j).2 !!! row_i ≠ D !!! row_i) ∧
  (revise n D row_i row_j).2 !!! row_i ⊆ D !!! row_i ∧
  (∀ r, r ≠ row_i → (revise n D row_i row_j).2 !! r = D !! r) ∧
  dom (revise n D row_i row_j).2 = dom D.
Proof.
  destruct (revise_shape n D row_i row_j) as (X & Heq & Hsub & Hf & Ht).
  destruct (revise n D row_i row_j) as [b D'] eqn:Hrev. cbn [fst snd] in *.
  injection Heq as ->. rewrite alter_const_total by done. split_and!.
  - destruct b.
    + split; [intros _; by apply Ht|done].
    + split; [done|]. intros Hne. destruct Hne. by apply Hf.
  - done.
  - intros r Hr. by rewrite lookup_alter_ne.
  - apply dom_alter_L.
Qed.

(** X3.  When the columns of row_i lie on the board, [revise] keeps
    exactly the columns of row_i that have a support in row_j, that is a
    column of row_j they do not attack, in the singleton branch and in the
    general branch alike.  In particular an empty row_j empties row_i. *)
Theorem revise_leaves_supported_columns `{SetIter} (n : Z) (D : domain_map)
    (row_i row_j : Z) :
  (∀ y, y ∈ D !!! row_i → 0 ≤ y < n) →
  (∀ x, x ∈ (revise n D row_i row_j).2 !!! row_i ↔
        x ∈ D !!! row_i ∧ ∃ w, w ∈ D !!! row_j ∧ ¬ Attacks row_i x row_j w) ∧
  (D !!! row_j = ∅ → (revise n D row_i row_j).2 !!! row_i = ∅).
Proof.
  intros Hon.
  assert (∀ x, x ∈ (revise n D row_i row_j).2 !!! row_i ↔
        x ∈ D !!! row_i ∧ ∃ w, w ∈ D !!! row_j ∧ ¬ Attacks row_i x row_j w) as Hspec.
  { intros x. destruct (revise n D row_i row_j) as [b D'] eqn:Hrev.
    by apply (revise_elem n D row_i row_j b D'). }
  split; [done|]. intros Hempty. apply set_eq. intros x. rewrite Hspec, Hempty. set_solver.
Qed.

(** X3 on the 4-board with a queen fixed at row 1, column 2. *)
Lemma revise_leaves_supported_columns_witness :
  (∀ y, y ∈ NQueensCSP 4 {[1 := 2]} !!! 0 → 0 ≤ y < 4) ∧
  (∀ x, x ∈ (revise 4 (NQueensCSP 4 {[1 := 2]}) 0 1).2 !!! 0 ↔
        x ∈ NQueensCSP 4 {[1 := 2]} !!! 0 ∧
        ∃ w, w ∈ NQueensCSP 4 {[1 := 2]} !!! 1 ∧ ¬ Attacks 0 x 1 w) ∧
  (NQueensCSP 4 {[1 := 2]} !!! 1 = ∅ → (revise 4 (NQueensCSP 4 {[1 := 2]}) 0 1).2 !!! 0 = ∅).
Proof.
  assert (∀ y, y ∈ NQueensCSP 4 {[1 := 2]} !!! 0 → 0 ≤ y < 4) as Hon.
  { intros y. replace (NQueensCSP 4 {[1 := 2]} !!! 0) with ({[0]} : gset Z)
      by (vm_compute; reflexivity). rewrite elem_of_singleton. lia. }
  split; [exact Hon|]. exact (revise_leaves_supported_columns 4 _ 0 1 Hon).
Defined.

(** X4.  [revise] is idempotent: revising row_i against row_j a second
    time changes nothing and returns [False]. *)
Theorem revise_idempotent `{SetIter} (n : Z) (D : domain_map) (row_i row_j : Z) :
  row_i ≠ row_j →
  revise n (revise n D row_i row_j).2 row_i row_j = (false, (revise n D row_i row_j).2).
Proof.
  intros Hne. destruct (revise_filter n D row_i row_j) as [keep Hkeep].
  destruct (revise n D row_i row_j) as [b D1] eqn:E1. cbn [snd].
  pose proof (revise_spec _ _ _ _ _ _ E1) as (_ & Hother & _).
  assert (D1 !!! row_j = D !!! row_j) as Hj by (apply Hother; done).
  pose proof (Hkeep D eq_refl) as H1. rewrite E1 in H1. cbn [snd] in H1.
  pose proof (Hkeep D1 Hj) as H2.
  destruct (revise n D1 row_i row_j) as [b2 D2] eqn:E2. cbn [snd] in H2.
  pose proof (revise_spec _ _ _ _ _ _ E2) as (_ & _ & Hsame & Hchanged).
  destruct b2; [|by rewrite Hsame].
  destruct (Hchanged eq_refl). apply set_eq. intros x. rewrite H2, H1. tauto.
Qed.

(** X4 on the 4-board with a queen fixed at row 1, column 2. *)
Lemma revise_idempotent_witness :
  revise 4 (revise 4 (NQueensCSP 4 {[1 := 2]}) 0 1).2 0 1
  = (false, (revise 4 (NQueensCSP 4 {[1 := 2]}) 0 1).2).
Proof. apply (revise_idempotent 4 (NQueensCSP 4 {[1 := 2]}) 0 1). lia. Defined.

(** ** [ac3] *)

Section ArcConsistency.
Context `{SetIter}.

Lemma ac3_loop_nil fuel n D : ac3_loop fuel n [] D = Some (true, D).
Proof. by destruct fuel. Qed.

Lemma ac3_loop_dom fuel n queue D b D' :
  ac3_loop fuel n queue D = Some (b, D') → dom D' = dom D.
Proof.
  revert queue D. induction fuel as [|fuel IH]; intros [|[i j] queue] D Hrun;
    try (injection Hrun as <- <-; done); try done.
  rewrite ac3_loop_cons in Hrun.
  pose proof (revise_shape n D i j) as (X & Heq & _).
  assert (dom (revise n D i j).2 = dom D) as Hdom.
  { rewrite Heq. cbn [snd]. apply dom_alter_L. }
  destruct (revise n D i j).1.
  - destruct (decide _); [by injection Hrun as <- <-|]. by rewrite (IH _ _ Hrun).
  - by rewrite (IH _ _ Hrun).
Qed.

Lemma arcs_small n : n ≤ 1 → arcs n = [].
Proof.
  intros Hn. unfold arcs. destruct (decide (n ≤ 0)) as [Hle|Hgt].
  - replace (range n) with (@nil Z); [done|]. symmetry. apply seqZ_nil. lia.
  - replace n with 1 by lia. reflexivity.
Qed.

(** The invariant of the work queue: every pair of distinct rows that is
    not waiting in the queue is arc consistent. *)
Lemma ac3_loop_arc_consistent fuel n queue D D' :
  domains_on_board n D →
  Forall (λ p, 0 ≤ p.1 < n ∧ 0 ≤ p.2 < n ∧ p.1 ≠ p.2) queue →
  (∀ i j, 0 ≤ i < n → 0 ≤ j < n → i ≠ j → (i, j) ∉ queue → arc_consistent D i j) →
  ac3_loop fuel n queue D = Some (true, D') →
  ∀ i j, 0 ≤ i < n → 0 ≤ j < n → i ≠ j → arc_consistent D' i j.
Proof.
  revert queue D. induction fuel as [|fuel IH]; intros [|[i j] queue] D Hon Hq Hinv Hrun.
  - injection Hrun as <-. intros a b ???. apply Hinv; try done. apply not_elem_of_nil.
  - done.
  - injection Hrun as <-. intros a b ???. apply Hinv; try done. apply not_elem_of_nil.
  - rewrite ac3_loop_cons in Hrun.
    apply Forall_cons in Hq as [(Hi & Hj & Hij) Hq]. cbn [fst snd] in Hi, Hj, Hij.
    destruct (revise n D i j) as [b D1] eqn:Hrev. cbn [fst snd] in Hrun.
    pose proof (revise_spec n D i j b D1 Hrev) as (Hsub & Hother & Hsame & _).
    pose proof (λ x, revise_elem n D i j b D1 x (Hon i) Hrev) as Hel.
    assert (domains_on_board n D1) as Hon1.
    { intros r c Hc. destruct (decide (r = i)) as [->|Hr].
      - apply (Hon i). by apply Hsub.
      - rewrite Hother in Hc by done. by apply (Hon r). }
    assert (arc_consistent D1 i j) as Hcij.
    { intros x Hx. apply Hel in Hx as (_ & w & Hw & Hna).
      exists w. by rewrite Hother by done. }
    destruct b.
    + destruct (decide (D1 !!! i = ∅)); [done|].
      refine (IH _ _ Hon1 _ _ Hrun).
      * apply Forall_app. split; [done|]. apply Forall_forall. intros [k r] Hkr.
        apply elem_of_neighbours in Hkr as (Hk & -> & Hki & _).
        apply elem_of_range in Hk. done.
      * intros a b Ha Hb Hab Hnin.
        rewrite elem_of_app in Hnin.
        destruct (decide ((a, b) = (i, j))) as [[= -> ->]|Hne]; [done|].
        assert (arc_consistent D a b) as Hc.
        { apply Hinv; try done. rewrite elem_of_cons. tauto. }
        destruct (decide (a = i)) as [->|Hai].
        { intros x Hx. apply Hsub in Hx. destruct (Hc x Hx) as (w & Hw & Hna).
          exists w. by rewrite Hother by done. }
        destruct (decide (b = i)) as [->|Hbi].
        { assert (a = j) as ->.
          { destruct (decide (a = j)); [done|]. exfalso. apply Hnin. right.
            apply elem_of_neighbours. rewrite elem_of_range. done. }
          intros y Hy. rewrite Hother in Hy by done.
          destruct (Hc y Hy) as (x & Hx & Hna). exists x. split; [|done].
          apply Hel. split; [done|]. exists y. split; [done|]. by rewrite Attacks_sym. }
        intros x Hx. rewrite Hother in Hx by done.
        destruct (Hc x Hx) as (w & Hw & Hna). exists w. by rewrite Hother by done.
    + rewrite (Hsame eq_refl) in *. refine (IH _ _ Hon Hq _ Hrun).
      intros a b Ha Hb Hab Hnin.
      destruct (decide ((a, b) = (i, j))) as [[= -> ->]|Hne]; [done|].
      apply Hinv; try done. rewrite elem_of_cons. tauto.
Qed.

End ArcConsistency.

(** X5.  [ac3] only ever shrinks domains: every row's set after the call
    is a subset of the one before, and the store has the same rows.  On a
    board of at most one row there is no pair to revise: the call returns
    [True] and changes nothing. *)
Theorem ac3_only_shrinks `{SetIter} (n : Z) (D : domain_map) :
  ∃ b D', ac3 n D = Some (b, D') ∧ dom D' = dom D ∧ (∀ r, D' !!! r ⊆ D !!! r) ∧
          (n ≤ 1 → b = true ∧ D' = D).
Proof.
  destruct (ac3_is_Some n D) as [[b D'] Hrun]. exists b, D'. split; [done|].
  unfold ac3 in Hrun. split_and!.
  - by apply ac3_loop_dom in Hrun.
  - exact (ac3_loop_subseteq _ _ _ _ _ _ Hrun).
  - intros Hn. rewrite arcs_small, ac3_loop_nil in Hrun by done. by injection Hrun as <- <-.
Qed.

(** X6.  [ac3] never removes a column that a valid placement uses: if a
    complete conflict-free placement takes each of its columns from the
    domains, [ac3] returns [True] and the placement still takes each of
    its columns from the domains afterwards.  So a [False] answer means
    that no placement fits the domains. *)
Theorem ac3_keeps_solutions `{SetIter} (n : Z) (D : domain_map) (sol : assignment) :
  complete n sol → zero_conflicts sol →
  (∀ r c, 0 ≤ r < n → sol !! r = Some c → c ∈ D !!! r) →
  ∃ D', ac3 n D = Some (true, D') ∧
        ∀ r c, 0 ≤ r < n → sol !! r = Some c → c ∈ D' !!! r.
Proof.
  intros Hc Hz Hoff. destruct (ac3_is_Some n D) as [[b D'] Hrun].
  unfold ac3 in *.
  assert (offers n D ∅ sol) as Ho by (intros r c Hr _; by apply Hoff).
  destruct (ac3_loop_keeps _ n _ D b D' sol (arcs_proper n) Hc Hz Ho Hrun) as [-> Hoff'].
  exists D'. split; [done|]. intros r c Hr Hs. by apply Hoff'.
Qed.

(** X6 on the empty 4-board and the placement of the test suite. *)
Lemma ac3_keeps_solutions_witness :
  ∃ D', ac3 4 (NQueensCSP 4 ∅) = Some (true, D') ∧
        ∀ r c, 0 ≤ r < 4 → ({[0 := 1; 1 := 3; 2 := 0; 3 := 2]} : assignment) !! r = Some c →
               c ∈ D' !!! r.
Proof.
  assert (is_solution 4 {[0 := 1; 1 := 3; 2 := 0; 3 := 2]}) as (Hc & Hb & Hz)
    by (apply check_solution_sound; vm_compute; reflexivity).
  apply (ac3_keeps_solutions 4 (NQueensCSP 4 ∅) {[0 := 1; 1 := 3; 2 := 0; 3 := 2]} Hc Hz).
  intros r c Hr Hs.
  apply (NQueensCSP_offers 4 ∅ {[0 := 1; 1 := 3; 2 := 0; 3 := 2]}); try done.
  apply map_empty_subseteq.
Defined.

(** X7.  When [ac3] returns [True] on a store whose columns lie on the
    board, every pair of distinct rows of the board is arc consistent:
    each column left to a row can be paired with a column of any other row
    that it does not attack.  Consequently the rows are then all empty or
    all non-empty. *)
Theorem ac3_arc_consistent `{SetIter} (n : Z) (D D' : domain_map) :
  domains_on_board n D → ac3 n D = Some (true, D') →
  (∀ i j, 0 ≤ i < n → 0 ≤ j < n → i ≠ j → arc_consistent D' i j) ∧
  ((∀ r, 0 ≤ r < n → D' !!! r = ∅) ∨ (∀ r, 0 ≤ r < n → D' !!! r ≠ ∅)).
Proof.
  intros Hon Hrun. unfold ac3 in Hrun.
  assert (∀ i j, 0 ≤ i < n → 0 ≤ j < n → i ≠ j → arc_consistent D' i j) as Harc.
  { refine (ac3_loop_arc_consistent _ n (arcs n) D D' Hon (arcs_proper n) _ Hrun).
    intros i j Hi Hj Hij Hnin. destruct Hnin. apply elem_of_arcs.
    by rewrite !elem_of_range. }
  split; [done|].
  destruct (decide (Exists (λ r, D' !!! r = ∅) (range n))) as [Hex|Hnex].
  - left. apply Exists_exists in Hex as (e & He & Hempty). apply elem_of_range in He.
    intros r Hr. destruct (decide (r = e)) as [->|Hre]; [done|].
    apply set_eq. intros x. split; [|set_solver]. intros Hx.
    destruct (Harc r e Hr He Hre x Hx) as (w & Hw & _). set_solver.
  - right. intros r Hr Hempty. apply Hnex, Exists_exists. exists r.
    by rewrite elem_of_range.
Qed.

(** X7 on the 4-board with a queen fixed at row 0, column 1, where [ac3]
    leaves one column in each row. *)
Lemma ac3_arc_consistent_witness :
  (∀ i j, 0 ≤ i < 4 → 0 ≤ j < 4 → i ≠ j →
          arc_consistent {[0 := {[1]}; 1 := {[3]}; 2 := {[0]}; 3 := {[2]}]} i j) ∧
  ((∀ r, 0 ≤ r < 4 →
         ({[0 := {[1]}; 1 := {[3]}; 2 := {[0]}; 3 := {[2]}]} : domain_map) !!! r = ∅) ∨
   (∀ r, 0 ≤ r < 4 →
         ({[0 := {[1]}; 1 := {[3]}; 2 := {[0]}; 3 := {[2]}]} : domain_map) !!! r ≠ ∅)).
Proof.
  apply (ac3_arc_consistent 4 (NQueensCSP 4 {[0 := 1]})).
  - apply NQueensCSP_on_board. intros r c Hrc.
    apply lookup_singleton_Some in Hrc as [_ <-]. lia.
  - vm_compute. reflexivity.
Defined.

(** ** The heuristics: [select_unassigned_variable] and [order_domain_values] *)
Lemma py_min_first_least {A} (key : A → nat) l m :
  py_min key l = Some m →
  ∃ l1 l2, l = l1 ++ m :: l2 ∧
           (∀ y, y ∈ l1 → (key m < key y)%nat) ∧
           (∀ y, y ∈ l2 → (key m ≤ key y)%nat).
Proof.
  destruct l as [|x l]; [done|]. cbn [py_min]. intros [= <-].
  induction l as [|z l IH] using rev_ind.
  { exists [], []. split; [done|]. split; intros y Hy; by apply elem_of_nil in Hy. }
  rewrite foldl_app. cbn [foldl].
  set (m := foldl (λ best y, if (key y <? key best)%nat then y else best) x l) in *.
  destruct IH as (l1 & l2 & Heq & H1 & H2).
  destruct (key z <? key m)%nat eqn:Hlt.
  - apply Nat.ltb_lt in Hlt. exists (x :: l), []. split; [by rewrite app_comm_cons|].
    split; [|intros y Hy; by apply elem_of_nil in Hy].
    intros y Hy. rewrite Heq in Hy.
    apply elem_of_app in Hy as [Hy|Hy]; [apply H1 in Hy; lia|].
    apply elem_of_cons in Hy as [->|Hy]; [done|]. apply H2 in Hy. lia.
  - apply Nat.ltb_ge in Hlt. exists l1, (l2 ++ [z]). split.
    { rewrite app_comm_cons, Heq, <- app_assoc. done. }
    split; [done|]. intros y Hy.
    apply elem_of_app in Hy as [Hy|Hy]; [by apply H2|].
    apply list_elem_of_singleton in Hy as ->. done.
Qed.

Lemma StronglySorted_seqZ m n : StronglySorted Z.lt (seqZ m n).
Proof.
  destruct (decide (0 < n)) as [Hn|Hn].
  2: { replace (seqZ m n) with (@nil Z); [constructor|].
       symmetry. apply seqZ_nil. lia. }
  remember (Z.to_nat n) as k eqn:Hk. revert m n Hn Hk.
  induction k as [|k IH]; intros m n Hn Hk; [lia|].
  rewrite seqZ_cons by done. apply StronglySorted_cons. split.
  - apply Forall_forall. intros y Hy. apply elem_of_seqZ in Hy. lia.
  - destruct (decide (0 < Z.pred n)) as [Hp|Hp].
    + apply IH; lia.
    + rewrite seqZ_nil by lia. constructor.
Qed.

Lemma StronglySorted_filter {A} (R : relation A) (P : A → Prop) `{∀ x, Decision (P x)} l :
  StronglySorted R l → StronglySorted R (filter P l).
Proof.
  induction 1 as [|x l Hs IH Hall]; [constructor|].
  rewrite filter_cons. destruct (decide (P x)); [|done].
  constructor; [done|]. apply Forall_forall. intros y Hy.
  apply list_elem_of_filter in Hy as [_ Hy]. rewrite Forall_forall in Hall. by apply Hall.
Qed.

(** X8.  [select_unassigned_variable] returns a row of the board that the
    assignment leaves free, whose domain is no larger than that of any
    other free row, and the lowest-numbered one among those of smallest
    domain.  It raises (the [ValueError] of [min] on an empty list)
    exactly when every row of the board is assigned. *)
Theorem select_unassigned_variable_mrv `{SetIter} (n : Z) (D : domain_map)
    (a : assignment) :
  match select_unassigned_variable n D a with
  | Some row =>
      0 ≤ row < n ∧ a !! row = None ∧
      ∀ r, 0 ≤ r < n → a !! r = None →
           (size (D !!! row) ≤ size (D !!! r))%nat ∧
           (r < row → (size (D !!! row) < size (D !!! r))%nat)
  | None => ∀ r, 0 ≤ r < n → is_Some (a !! r)
  end.
Proof.
  destruct (select_unassigned_variable n D a) as [row|] eqn:Hsel.
  2: { exact (select_unassigned_variable_None _ _ _ Hsel). }
  pose proof (select_unassigned_variable_Some _ _ _ _ Hsel) as [Hrow Hfree].
  apply elem_of_range in Hrow. split; [done|]. split; [done|].
  unfold select_unassigned_variable in Hsel.
  apply py_min_first_least in Hsel as (l1 & l2 & Heq & H1 & H2).
  assert (StronglySorted Z.lt (l1 ++ row :: l2)) as Hsorted.
  { rewrite <- Heq. apply StronglySorted_filter, StronglySorted_seqZ. }
  intros r Hr Hfr.
  assert (r ∈ l1 ++ row :: l2) as Hin by (rewrite <- Heq; by apply elem_of_unassigned).
  apply elem_of_app in Hin as [Hin|Hin].
  { specialize (H1 _ Hin). split; [lia|done]. }
  apply elem_of_cons in Hin as [->|Hin]; [split; lia|].
  split; [by apply H2|]. intros Hlt.
  apply StronglySorted_app_1_r, StronglySorted_cons in Hsorted as [Hall _].
  rewrite Forall_forall in Hall. specialize (Hall _ Hin). lia.
Qed.

Lemma insert_by_key_fmap {A B} (g : A → B) (key : B → nat) x l :
  insert_by_key key (g x) (g <$> l) = g <$> insert_by_key (key ∘ g) x l.
Proof.
  induction l as [|y l IH]; [done|]. cbn [fmap list_fmap insert_by_key].
  unfold compose at 1 2. destruct (key (g x) <=? key (g y))%nat; [done|].
  cbn [fmap list_fmap]. f_equal. apply IH.
Qed.

Lemma stable_sort_fmap {A B} (g : A → B) (key : B → nat) l :
  stable_sort key (g <$> l) = g <$> stable_sort (key ∘ g) l.
Proof.
  unfold stable_sort. induction l as [|x l IH]; [done|].
  cbn [fmap list_fmap foldr]. fold (g <$> l). rewrite IH. apply insert_by_key_fmap.
Qed.

Lemma insert_by_key_sorted {A} (key : A → nat) x l :
  StronglySorted (λ y z, (key y ≤ key z)%nat) l →
  StronglySorted (λ y z, (key y ≤ key z)%nat) (insert_by_key key x l).
Proof.
  induction 1 as [|y l Hs IH Hall]; [repeat constructor|].
  cbn [insert_by_key]. destruct (key x <=? key y)%nat eqn:Hle.
  - apply Nat.leb_le in Hle. constructor; [by constructor|].
    constructor; [done|]. eapply Forall_impl; [exact Hall|]. cbn. lia.
  - apply Nat.leb_gt in Hle. constructor; [done|].
    apply Forall_forall. intros z Hz.
    rewrite insert_by_key_perm in Hz. apply elem_of_cons in Hz as [->|Hz]; [lia|].
    rewrite Forall_forall in Hall. by apply Hall.
Qed.

Lemma stable_sort_sorted {A} (key : A → nat) l :
  StronglySorted (λ y z, (key y ≤ key z)%nat) (stable_sort key l).
Proof.
  unfold stable_sort. induction l as [|x l IH]; [constructor|].
  cbn [foldr]. by apply insert_by_key_sorted.
Qed.

Lemma insert_by_key_filter {A} (key : A → nat) (k : nat) x l :
  filter (λ y, key y = k) (insert_by_key key x l) =
  filter (λ y, key y = k) (x :: l).
Proof.
  induction l as [|y l IH]; [done|]. cbn [insert_by_key].
  destruct (key x <=? key y)%nat eqn:Hle; [done|]. apply Nat.leb_gt in Hle.
  rewrite (filter_cons _ y), IH, !(filter_cons _ x), (filter_cons _ y).
  destruct (decide (key x = k)), (decide (key y = k)); try done. lia.
Qed.

Lemma stable_sort_stable {A} (key : A → nat) (k : nat) l :
  filter (λ y, key y = k) (stable_sort key l) = filter (λ y, key y = k) l.
Proof.
  unfold stable_sort. induction l as [|x l IH]; [done|].
  cbn [foldr]. rewrite insert_by_key_filter, !(filter_cons _ x), IH. done.
Qed.

Section OrderDomainValues.
Context `{SetIter}.

Lemma order_domain_values_eq n D row a :
  order_domain_values n D row a =
  stable_sort (lcv_conflicts n D row a) (set_iter (D !!! row)).
Proof.
  unfold order_domain_values.
  rewrite (stable_sort_fmap (λ col, (col, lcv_conflicts n D row a col)) snd).
  rewrite <- list_fmap_compose. apply list_fmap_id.
Qed.

End OrderDomainValues.

(** X9.  [order_domain_values] returns every column of the row's domain
    exactly once, in ascending order of the conflict count of lines
    249-258, and columns of equal count keep the order in which the set
    was iterated. *)
Theorem order_domain_values_sorted `{SetIter} (n : Z) (D : domain_map) (row : Z)
    (a : assignment) :
  order_domain_values n D row a ≡ₚ elements (D !!! row) ∧
  StronglySorted (λ c1 c2, (lcv_conflicts n D row a c1 ≤ lcv_conflicts n D row a c2)%nat)
    (order_domain_values n D row a) ∧
  ∀ k, filter (λ c, lcv_conflicts n D row a c = k) (order_domain_values n D row a)
       = filter (λ c, lcv_conflicts n D row a c = k) (set_iter (D !!! row)).
Proof.
  rewrite order_domain_values_eq. split_and!.
  - rewrite stable_sort_perm. apply set_iter_perm.
  - apply stable_sort_sorted.
  - intros k. apply stable_sort_stable.
Qed.

(** ** [forward_check] and the conflict count of the LCV heuristic *)

Section ForwardCheckExact.
Context `{SetIter}.

Lemma forward_check_loop_exact rows row col a D pruned ok D1 lp :
  NoDup rows →
  forward_check_loop rows row col a D pruned = (ok, D1, lp) →
  (∀ r, r ∉ rows ∨ ¬ (r ≠ row ∧ a !! r = None) → D1 !!! r = D !!! r) ∧
  (ok = true → ∀ o, o ∈ rows → o ≠ row → a !! o = None →
     D1 !!! o ≠ ∅ ∧ ∀ x, x ∈ D1 !!! o ↔ x ∈ D !!! o ∧ ¬ Attacks row col o x).
Proof.
  revert D pruned. induction rows as [|o rows IH]; intros D pruned Hnd Hrun.
  { injection Hrun as <- <- <-. split; [done|]. intros _ o Ho. by apply elem_of_nil in Ho. }
  apply NoDup_cons in Hnd as [Ho Hnd]. rewrite forward_check_loop_cons in Hrun.
  destruct (decide (o ≠ row ∧ a !! o = None)) as [Hcond|Hcond].
  - destruct (prune_row row col o D pruned) as [D' pruned'] eqn:Hp. cbn [fst snd] in Hrun.
    pose proof (λ x, prune_row_total _ _ _ _ _ _ _ x Hp) as Hat.
    pose proof (λ r, prune_row_total_ne _ _ _ _ _ _ _ r Hp) as Hne.
    destruct (decide (D' !!! o = ∅)) as [Hempty|Hnonempty].
    + injection Hrun as <- <- <-. split; [|done].
      intros r Hr. apply Hne. intros ->. destruct Hr as [Hr|Hr]; [|done].
      apply Hr. by left.
    + destruct (IH _ _ Hnd Hrun) as [IH1 IH2]. split.
      * intros r Hr. rewrite IH1.
        { apply Hne. intros ->. destruct Hr as [Hr|Hr]; [|done]. apply Hr. by left. }
        destruct Hr as [Hr|Hr]; [|by right]. left. intros Hin. apply Hr. by right.
      * intros -> o' Ho' Hrow Hfree. apply elem_of_cons in Ho' as [->|Ho'].
        { rewrite (IH1 o) by (by left). split; [done|]. intros x. apply Hat. }
        destruct (IH2 eq_refl o' Ho' Hrow Hfree) as [Hn Hx]. split; [done|].
        intros x. rewrite Hx, Hne; [done|]. intros ->. done.
  - destruct (IH _ _ Hnd Hrun) as [IH1 IH2]. split.
    + intros r Hr. apply IH1. destruct Hr as [Hr|Hr]; [|by right].
      destruct (decide (r = o)) as [->|Hro]; [by right|].
      left. intros Hin. apply Hr. by right.
    + intros -> o' Ho' Hrow Hfree. apply elem_of_cons in Ho' as [->|Ho']; [by destruct Hcond|].
      by apply IH2.
Qed.

Lemma inner_count_fold (P : Z → Prop) `{∀ x, Decision (P x)} (l : list Z) (acc : nat) :
  foldl (λ conflicts x, if decide (P x) then S conflicts else conflicts) acc l
  = (acc + length (filter P l))%nat.
Proof.
  revert acc. induction l as [|x l IH]; intros acc; [cbn; lia|].
  cbn [foldl]. rewrite IH, filter_cons. destruct (decide (P x)); cbn [length]; lia.
Qed.

Lemma lcv_conflicts_sum n D row a col :
  lcv_conflicts n D row a col =
  sum_list ((λ o, if decide (o ≠ row ∧ a !! o = None)
                  then length (filter (Attacks row col o) (set_iter (D !!! o)))
                  else 0%nat) <$> range n).
Proof.
  unfold lcv_conflicts. generalize (range n) as rows. intros rows.
  assert (∀ acc,
    foldl (λ conflicts other_row,
             if decide (other_row ≠ row ∧ a !! other_row = None)
             then foldl (λ conflicts other_col,
                           if decide (Attacks row col other_row other_col)
                           then S conflicts else conflicts)
                        conflicts (set_iter (D !!! other_row))
             else conflicts) acc rows
    = (acc + sum_list ((λ o, if decide (o ≠ row ∧ a !! o = None)
                  then length (filter (Attacks row col o) (set_iter (D !!! o)))
                  else 0%nat) <$> rows))%nat) as Hgen.
  { induction rows as [|o rows IH]; intros acc; [cbn; lia|].
    cbn [foldl fmap list_fmap sum_list sum_list_with]. rewrite IH. unfold id.
    destruct (decide (o ≠ row ∧ a !! o = None)); [|lia].
    rewrite inner_count_fold. symmetry. apply Nat.add_assoc. }
  apply Hgen.
Qed.

Lemma size_pruned (X Y : gset Z) (P : Z → Prop) `{∀ x, Decision (P x)} :
  (∀ x, x ∈ Y ↔ x ∈ X ∧ ¬ P x) →
  size X = (size Y + length (filter P (set_iter X)))%nat.
Proof.
  intros HY.
  assert (length (filter P (set_iter X)) = size (filter P X)) as ->.
  { rewrite <- (size_list_to_set (C := gset Z)) by apply NoDup_filter, NoDup_set_iter.
    f_equal. apply set_eq. intros x.
    rewrite elem_of_list_to_set, list_elem_of_filter, elem_of_set_iter, elem_of_filter. done. }
  rewrite <- size_union.
  - f_equal. apply set_eq. intros x. rewrite elem_of_union, HY, elem_of_filter.
    destruct (decide (P x)); tauto.
  - intros x Hx1 Hx2. apply HY in Hx1 as [_ Hx1]. apply elem_of_filter in Hx2 as [Hx2 _]. done.
Qed.

Lemma sum_list_fmap_ext_in {A} (f g : A → nat) (l : list A) :
  (∀ x, x ∈ l → f x = g x) → sum_list (f <$> l) = sum_list (g <$> l).
Proof.
  intros Heq. f_equal. apply list_fmap_ext. intros i x Hx. apply Heq.
  by eapply list_elem_of_lookup_2.
Qed.

Lemma forward_check_loop_count rows row col a D pruned D1 lp :
  NoDup rows →
  forward_check_loop rows row col a D pruned = (true, D1, lp) →
  sum_list ((λ r, size (D !!! r)) <$> rows) =
  (sum_list ((λ r, size (D1 !!! r)) <$> rows) +
   sum_list ((λ o, if decide (o ≠ row ∧ a !! o = None)
                   then length (filter (Attacks row col o) (set_iter (D !!! o)))
                   else 0%nat) <$> rows))%nat.
Proof.
  revert D pruned. induction rows as [|o rows IH]; intros D pruned Hnd Hrun; [done|].
  pose proof (forward_check_loop_exact _ _ _ _ _ _ _ _ _ Hnd Hrun) as [Hsame Hexact].
  apply NoDup_cons in Hnd as [Ho Hnd]. rewrite forward_check_loop_cons in Hrun.
  cbn [fmap list_fmap sum_list sum_list_with].
  destruct (decide (o ≠ row ∧ a !! o = None)) as [Hcond|Hcond].
  - destruct (prune_row row col o D pruned) as [D' pruned'] eqn:Hp. cbn [fst snd] in Hrun.
    pose proof (λ r, prune_row_total_ne _ _ _ _ _ _ _ r Hp) as Hne.
    destruct (decide (D' !!! o = ∅)); [done|].
    specialize (IH _ _ Hnd Hrun).
    rewrite (sum_list_fmap_ext_in (λ r, size (D !!! r)) (λ r, size (D' !!! r)) rows).
    2: { intros r Hr. rewrite Hne; [done|]. intros ->. done. }
    rewrite IH.
    rewrite (sum_list_fmap_ext_in
               (λ o0, if decide (o0 ≠ row ∧ a !! o0 = None)
                      then length (filter (Attacks row col o0) (set_iter (D' !!! o0)))
                      else 0%nat)
               (λ o0, if decide (o0 ≠ row ∧ a !! o0 = None)
                      then length (filter (Attacks row col o0) (set_iter (D !!! o0)))
                      else 0%nat) rows).
    2: { intros r Hr. rewrite Hne; [done|]. intros ->. done. }
    destruct Hcond as [Hrow Hfree].
    destruct (Hexact eq_refl o (list_elem_of_here _ _) Hrow Hfree) as [_ Hx].
    rewrite (size_pruned (D !!! o) (D1 !!! o) (Attacks row col o) Hx). unfold id. lia.
  - specialize (IH _ _ Hnd Hrun). rewrite IH, (Hsame o) by (by right). unfold id. lia.
Qed.

End ForwardCheckExact.

(** X10.  [forward_check] only removes columns.  It touches no row that
    is assigned, is the row just placed, or lies off the board.  When it
    returns [True], every other free row of the board is left with exactly
    the columns that the queen at [(row, col)] does not attack, and with
    at least one.  When it returns [False], some free row of the board has
    been emptied. *)
Theorem forward_check_prunes_attacked `{SetIter} (n row col : Z) (a : assignment)
    (D D1 : domain_map) (pruned lp : pruning) (ok : bool) :
  forward_check n row col a D pruned = (ok, D1, lp) →
  (∀ r, D1 !!! r ⊆ D !!! r) ∧
  (∀ r, ¬ (0 ≤ r < n ∧ r ≠ row ∧ a !! r = None) → D1 !!! r = D !!! r) ∧
  (ok = true → ∀ o, 0 ≤ o < n → o ≠ row → a !! o = None →
     D1 !!! o ≠ ∅ ∧ ∀ x, x ∈ D1 !!! o ↔ x ∈ D !!! o ∧ ¬ Attacks row col o x) ∧
  (ok = false → ∃ o, 0 ≤ o < n ∧ o ≠ row ∧ a !! o = None ∧ D1 !!! o = ∅).
Proof.
  intros Hrun. unfold forward_check in Hrun.
  pose proof (forward_check_loop_spec _ _ _ _ _ _ _ _ _ Hrun) as (Hsub & _ & Hfail).
  pose proof (forward_check_loop_exact _ _ _ _ _ _ _ _ _ (NoDup_range n) Hrun)
    as [Hsame Hexact].
  split_and!; [done|..].
  - intros r Hr. apply Hsame. rewrite elem_of_range.
    destruct (decide (0 ≤ r < n)); [right|left]; tauto.
  - intros Hok o Ho. apply (Hexact Hok). by apply elem_of_range.
  - intros Hok. destruct (Hfail Hok) as (o & Ho & ?). exists o.
    by rewrite <- elem_of_range.
Qed.

(** X10 for a queen placed at row 0, column 1 of the empty 4-board. *)
Lemma forward_check_prunes_attacked_witness :
  (∀ r, (forward_check 4 0 1 {[0 := 1]} (NQueensCSP 4 ∅) ∅).1.2 !!! r ⊆ NQueensCSP 4 ∅ !!! r) ∧
  (∀ r, ¬ (0 ≤ r < 4 ∧ r ≠ 0 ∧ ({[0 := 1]} : assignment) !! r = None) →
        (forward_check 4 0 1 {[0 := 1]} (NQueensCSP 4 ∅) ∅).1.2 !!! r = NQueensCSP 4 ∅ !!! r) ∧
  (true = true → ∀ o, 0 ≤ o < 4 → o ≠ 0 → ({[0 := 1]} : assignment) !! o = None →
     (forward_check 4 0 1 {[0 := 1]} (NQueensCSP 4 ∅) ∅).1.2 !!! o ≠ ∅ ∧
     ∀ x, x ∈ (forward_check 4 0 1 {[0 := 1]} (NQueensCSP 4 ∅) ∅).1.2 !!! o ↔
          x ∈ NQueensCSP 4 ∅ !!! o ∧ ¬ Attacks 0 1 o x) ∧
  (true = false → ∃ o, 0 ≤ o < 4 ∧ o ≠ 0 ∧ ({[0 := 1]} : assignment) !! o = None ∧
     (forward_check 4 0 1 {[0 := 1]} (NQueensCSP 4 ∅) ∅).1.2 !!! o = ∅).
Proof.
  apply (forward_check_prunes_attacked 4 0 1 {[0 := 1]} (NQueensCSP 4 ∅) _ ∅
           (forward_check 4 0 1 {[0 := 1]} (NQueensCSP 4 ∅) ∅).2 true).
  vm_compute. reflexivity.
Defined.

(** X11.  The count by which [order_domain_values] ranks a column is the
    number of columns that [forward_check] removes once that column is
    committed: after a successful forward check the domain sizes of the
    board have dropped by exactly that count. *)
Theorem lcv_conflicts_counts_pruned `{SetIter} (n row col : Z) (a : assignment)
    (D D1 : domain_map) (pruned lp : pruning) :
  forward_check n row col (<[row := col]> a) D pruned = (true, D1, lp) →
  total_size n D = (total_size n D1 + lcv_conflicts n D row a col)%nat.
Proof.
  intros Hrun. unfold forward_check in Hrun. unfold total_size.
  rewrite (forward_check_loop_count _ _ _ _ _ _ _ _ (NoDup_range n) Hrun).
  f_equal. rewrite lcv_conflicts_sum. apply sum_list_fmap_ext_in. intros o _.
  destruct (decide (o = row)) as [->|Hne].
  - rewrite !decide_False by tauto. done.
  - rewrite lookup_insert_ne by done. done.
Qed.

(** X11 for a queen placed at row 0, column 1 of the empty 4-board. *)
Lemma lcv_conflicts_counts_pruned_witness :
  total_size 4 (NQueensCSP 4 ∅) =
  Nat.add (total_size 4 (forward_check 4 0 1 {[0 := 1]} (NQueensCSP 4 ∅) ∅).1.2)
          (lcv_conflicts 4 (NQueensCSP 4 ∅) 0 ∅ 1).
Proof.
  apply (lcv_conflicts_counts_pruned 4 0 1 ∅ (NQueensCSP 4 ∅) _ ∅
           (forward_check 4 0 1 {[0 := 1]} (NQueensCSP 4 ∅) ∅).2).
  vm_compute. reflexivity.
Defined.

(** ** The conflict tests: [count_conflicts] and [is_consistent] *)
Lemma count_conflicts_delete row col (a : assignment) :
  count_conflicts row col (delete row a) = count_conflicts row col a.
Proof.
  destruct (a !! row) as [c|] eqn:Hrow.
  2: { by rewrite delete_id. }
  unfold count_conflicts.
  rewrite <- (insert_delete_id a row c Hrow) at 2.
  rewrite (map_to_list_insert (delete row a) row c) by apply lookup_delete_eq.
  rewrite filter_cons. cbn [fst snd]. destruct (decide _) as [[Hne _]|_]; done.
Qed.

(** X12.  [count_conflicts(row, col, assignment)] does not look at what
    the assignment holds for [row] itself: the count is the same with the
    row reassigned or removed, so the temporary assignment of lines
    441-447 has no effect on it; and it is at most the number of other
    rows assigned. *)
Theorem count_conflicts_ignores_own_row (row col x : Z) (a : assignment) :
  count_conflicts row col (<[row := x]> a) = count_conflicts row col a ∧
  count_conflicts row col (delete row a) = count_conflicts row col a ∧
  (count_conflicts row col a ≤ size (delete row a))%nat.
Proof.
  split_and!.
  - rewrite <- (count_conflicts_delete row col (<[row := x]> a)), delete_insert_eq.
    apply count_conflicts_delete.
  - apply count_conflicts_delete.
  - rewrite <- count_conflicts_delete. unfold count_conflicts.
    etrans; [apply length_filter|]. by rewrite length_map_to_list.
Qed.

(** X13.  [is_consistent(row, col, assignment)] holds exactly when
    [count_conflicts] is zero and the assignment does not already place
    [row] at [col]: unlike [count_conflicts], [is_consistent] also tests
    the entry of [row] itself. *)
Theorem is_consistent_count_conflicts (row col : Z) (a : assignment) :
  is_consistent row col a = true ↔
  count_conflicts row col a = 0%nat ∧ a !! row ≠ Some col.
Proof.
  rewrite is_consistent_true, count_conflicts_zero. split.
  - intros Hall. split; [intros r c Hr _; by apply Hall|].
    intros Hrow. apply (Hall _ _ Hrow). by left.
  - intros [Hall Hrow] r c Hr Hatt. destruct (decide (r = row)) as [->|Hne].
    + destruct Hatt as [->|Habs]; [done|].
      apply Hrow. rewrite Hr. f_equal. lia.
    + by apply (Hall r c).
Qed.

Lemma filter_none {A} (P : A → Prop) `{∀ x, Decision (P x)} (l : list A) :
  (∀ x, x ∈ l → ¬ P x) → filter P l = [].
Proof.
  induction l as [|x l IH]; [done|]. intros Hall. rewrite filter_cons.
  destruct (decide (P x)) as [HP|_].
  - destruct (Hall x); [by left|done].
  - apply IH. intros y Hy. apply Hall. by right.
Qed.

Lemma filter_iff_on {A} (P Q : A → Prop) `{∀ x, Decision (P x)} `{∀ x, Decision (Q x)}
    (l : list A) :
  (∀ x, x ∈ l → P x ↔ Q x) → filter P l = filter Q l.
Proof.
  induction l as [|x l IH]; [done|]. intros Hall. rewrite !filter_cons.
  rewrite IH by (intros y Hy; apply Hall; by right).
  destruct (decide (P x)) as [HP|HP], (decide (Q x)) as [HQ|HQ]; try done.
  - destruct HQ. apply Hall; [by left|done].
  - destruct HP. apply Hall; [by left|done].
Qed.

Lemma best_cols_of_state (f : Z → nat) (cols : list Z) :
  let st := foldl (λ (acc : option nat * list Z) col,
                     let conflicts := f col in
                     match acc.1 with
                     | None => (Some conflicts, [col])
                     | Some min_conflicts =>
                         if (conflicts <? min_conflicts)%nat then (Some conflicts, [col])
                         else if (conflicts =? min_conflicts)%nat then (acc.1, acc.2 ++ [col])
                         else acc
                     end) (None, []) cols in
  st.2 = filter (λ x, Forall (λ y, (f x ≤ f y)%nat) cols) cols ∧
  match st.1 with
  | None => cols = []
  | Some m => (∀ y, y ∈ cols → (m ≤ f y)%nat) ∧ ∃ x, x ∈ cols ∧ f x = m
  end.
Proof.
  induction cols as [|c cols IH] using rev_ind; [done|].
  cbn zeta in *. rewrite foldl_app. cbn [foldl].
  destruct (foldl _ (None, []) cols) as [[m|] best] eqn:Hst; cbn [fst snd] in *.
  2: { destruct IH as [_ ->]. cbn. rewrite decide_True by (by repeat constructor).
       split; [done|]. split; [|exists c; split; [by left|done]].
       intros y Hy. apply list_elem_of_singleton in Hy as ->. done. }
  destruct IH as [Hbest [Hmin (w & Hw & Hfw)]].
  assert (∀ x, x ∈ cols →
            Forall (λ y, (f x ≤ f y)%nat) (cols ++ [c]) ↔
            Forall (λ y, (f x ≤ f y)%nat) cols ∧ (m ≤ f c)%nat) as Hold.
  { intros x Hx. pose proof (Hmin _ Hx) as Hmx.
    rewrite Forall_app, Forall_singleton. split.
    - intros [Hall Hc]. split; [done|]. rewrite Forall_forall in Hall.
      specialize (Hall _ Hw). lia.
    - intros [Hall Hc]. split; [done|]. rewrite Forall_forall in Hall.
      specialize (Hall _ Hw). lia. }
  assert (Forall (λ y, (f c ≤ f y)%nat) (cols ++ [c]) ↔ (f c ≤ m)%nat) as Hnew.
  { rewrite Forall_app, Forall_singleton, Forall_forall. split.
    - intros [Hall _]. specialize (Hall _ Hw). lia.
    - intros Hle. split; [|done]. intros y Hy. specialize (Hmin _ Hy). lia. }
  rewrite filter_app, (filter_cons _ c), filter_nil.
  destruct (f c <? m)%nat eqn:Hlt; [apply Nat.ltb_lt in Hlt|apply Nat.ltb_ge in Hlt].
  - cbn [fst snd]. rewrite filter_none by (intros x Hx; rewrite (Hold x Hx); lia).
    rewrite decide_True by (apply Hnew; lia). split; [done|]. split.
    + intros y Hy. apply elem_of_app in Hy as [Hy|Hy]; [specialize (Hmin _ Hy); lia|].
      apply list_elem_of_singleton in Hy as ->. done.
    + exists c. split; [|done]. apply elem_of_app. right. by left.
  - assert (filter (λ x, Forall (λ y, (f x ≤ f y)%nat) (cols ++ [c])) cols = best) as ->.
    { rewrite Hbest. apply filter_iff_on. intros x Hx. rewrite (Hold x Hx). tauto. }
    destruct (f c =? m)%nat eqn:Heq; [apply Nat.eqb_eq in Heq|apply Nat.eqb_neq in Heq];
      cbn [fst snd].
    + rewrite decide_True by (apply Hnew; lia). split; [done|]. split.
      * intros y Hy. apply elem_of_app in Hy as [Hy|Hy]; [by apply Hmin|].
        apply list_elem_of_singleton in Hy as ->. lia.
      * exists w. split; [|done]. apply elem_of_app. by left.
    + rewrite decide_False by (rewrite Hnew; lia). rewrite app_nil_r. split; [done|]. split.
      * intros y Hy. apply elem_of_app in Hy as [Hy|Hy]; [by apply Hmin|].
        apply list_elem_of_singleton in Hy as ->. lia.
      * exists w. split; [|done]. apply elem_of_app. by left.
Qed.

(** X14.  The running minimum of [min_conflicts] (lines 399-408 and
    436-454) collects exactly the candidate columns whose conflict count
    is least among the candidates, in the order of the candidates; the
    list is empty only when there is no candidate. *)
Theorem best_cols_of_least (conflicts_of : Z → nat) (cols : list Z) :
  best_cols_of conflicts_of cols =
  filter (λ col, Forall (λ other, (conflicts_of col ≤ conflicts_of other)%nat) cols) cols ∧
  (cols ≠ [] → best_cols_of conflicts_of cols ≠ []).
Proof.
  split; [apply best_cols_of_state|]. apply best_cols_of_spec.
Qed.

(** ** Which inputs [solve] decides *)
Lemma solve_nonpositive `{SetIter} n (P : assignment) rnd :
  n ≤ 0 → solve n P rnd = if decide (len P = n) then Solution P else Raised.
Proof.
  intros Hn. unfold solve. rewrite decide_True by lia. unfold backtrack_search, ac3.
  assert (range n = []) as Hrange by (apply seqZ_nil; lia).
  unfold arcs. rewrite Hrange. cbn [mbind list_bind].
  unfold ac3_fuel. cbn [ac3_loop]. rewrite backtrack_S.
  destruct (decide (len P = n)); [done|].
  unfold select_unassigned_variable, unassigned. rewrite Hrange. done.
Qed.

Lemma solve_dict_or_None `{SetIter} n (P : assignment) rnd :
  0 ≤ n → rows_on_board n P →
  solve n P rnd = NoSolution ∨
  ∃ A, solve n P rnd = Solution A ∧ P ⊆ A ∧ ∀ r, 0 ≤ r < n → is_Some (A !! r).
Proof.
  intros Hn Hrows.
  pose proof (solve_fuel_suffices n P rnd) as Hfuel.
  assert (solve n P rnd ≠ Raised) as Hraise.
  { unfold solve. destruct (decide (n ≤ 100)); [|apply min_conflicts_no_raise].
    unfold backtrack_search.
    destruct (ac3 n (NQueensCSP n P)) as [[[] D']|]; [|done..].
    by apply backtrack_no_raise. }
  destruct (solve n P rnd) as [A| | |] eqn:E; [|by left|done..].
  right. exists A. split; [done|]. revert E. unfold solve.
  destruct (decide (n ≤ 100)).
  - unfold backtrack_search.
    destruct (ac3 n (NQueensCSP n P)) as [[[] D']|] eqn:Eac; [|done..].
    pose proof (backtrack_frame (S (Z.to_nat n)) n P D') as Hpost.
    assert (∀ fuel a D A a' D', rows_on_board n a →
              backtrack fuel n a D = (Solution A, a', D') →
              ∀ r, 0 ≤ r < n → is_Some (A !! r)) as Hfull.
    { clear -Hn. induction fuel as [|fuel IH]; intros a D A a' D' Hr E; [done|].
      apply backtrack_S_inv in E
        as [(Hlen & HA & _)|[(_ & _ & ?)|(_ & row & Hrow & Hfree & Hcase)]]; [|done|].
      { injection HA as <-. intros r Hr'.
        by apply (complete_lookup n A r); [apply complete_of_len|]. }
      destruct Hcase as [(? & _)|(_ & col & Hcol & Ea)]; [done|].
      apply attempt_success in Ea as (_ & D1 & lp & _ & Er); [|done].
      refine (IH _ _ _ _ _ _ Er).
      intros r Hr'. rewrite lookup_insert in Hr'. case_decide; [lia|auto]. }
    destruct (backtrack (S (Z.to_nat n)) n P D') as [[res a'] D''] eqn:E.
    unfold frame_post in Hpost. cbn [fst snd] in Hpost |- *. intros ->.
    destruct Hpost as [-> Hsub]. split; [done|]. by apply (Hfull _ _ _ _ _ _ Hrows E).
  - intros E. apply min_conflicts_Solution in E as (Hsub & Hkeys & _).
    split; [done|]. intros r Hr. apply Hkeys. by right.
Qed.

(** X15.  On a board of at most 100 rows, with a partial assignment whose
    rows and columns lie on the board, [solve] decides the problem: it
    returns [None] exactly when no valid placement extends the partial
    assignment, and otherwise returns a valid placement that extends
    it. *)
Theorem solve_small_board_decides `{SetIter} (n : Z) (P : assignment) (rnd : nat → nat) :
  0 ≤ n ≤ 100 → rows_on_board n P → on_board n P →
  (solve n P rnd = NoSolution ∧ ∀ sol, is_solution n sol → ¬ P ⊆ sol) ∨
  (∃ A, solve n P rnd = Solution A ∧ is_solution n A ∧ P ⊆ A).
Proof.
  intros [Hn Hle] Hrows Hcols. rewrite solve_small by done.
  by apply backtrack_search_correct.
Qed.

(** X15 on the 6-board with a queen fixed at row 0, column 1. *)
Lemma solve_small_board_decides_witness :
  (solve 6 {[0 := 1]} first_pick = NoSolution ∧
   ∀ sol, is_solution 6 sol → ¬ ({[0 := 1]} : assignment) ⊆ sol) ∨
  (∃ A, solve 6 {[0 := 1]} first_pick = Solution A ∧ is_solution 6 A ∧
        ({[0 := 1]} : assignment) ⊆ A).
Proof.
  apply (solve_small_board_decides 6 {[0 := 1]} first_pick); [lia|..].
  - intros r [c Hr]. apply lookup_singleton_Some in Hr as [<- _]. lia.
  - intros r c Hr. apply lookup_singleton_Some in Hr as [_ <-]. lia.
Defined.

(** X16.  Whatever the board size, if the partial assignment lies on the
    board and its queens do not attack each other, any dict that [solve]
    returns is a valid complete placement extending it (on the
    min-conflicts path too, where the fixed rows are never examined). *)
Theorem solve_sound `{SetIter} (n : Z) (P A : assignment) (rnd : nat → nat) :
  rows_on_board n P → on_board n P → zero_conflicts P →
  solve n P rnd = Solution A → is_solution n A ∧ P ⊆ A.
Proof.
  intros Hrows Hcols Hz. unfold solve. destruct (decide (n ≤ 100)) as [Hle|Hgt].
  - unfold backtrack_search.
    destruct (ac3 n (NQueensCSP n P)) as [[[] D']|] eqn:Eac; [|done..].
    assert (domains_on_board n D') as HD.
    { intros r c Hc. unfold ac3 in Eac.
      apply (ac3_loop_subseteq _ _ _ _ _ _ Eac) in Hc.
      by apply (NQueensCSP_on_board n P Hcols r). }
    pose proof (backtrack_frame (S (Z.to_nat n)) n P D') as Hpost.
    destruct (backtrack (S (Z.to_nat n)) n P D') as [[res a'] D''] eqn:E.
    unfold frame_post in Hpost. cbn [fst snd] in Hpost |- *. intros ->.
    destruct Hpost as [-> Hsub]. split; [|done].
    by apply (backtrack_sound _ _ _ _ _ _ _ Hrows Hcols Hz HD E).
  - intros E. apply min_conflicts_Solution in E as (Hsub & Hkeys & Hb & Hfree).
    split; [|done].
    assert (on_board n A) as HbA by (by apply Hb; [apply NQueensCSP_on_board|]).
    assert (∀ r, is_Some (A !! r) → 0 ≤ r < n) as HrA.
    { intros r Hr. apply Hkeys in Hr as [Hr|Hr]; [by apply Hrows|done]. }
    split_and!; [|done|].
    + apply set_eq. intros r. rewrite elem_of_dom, elem_of_list_to_set, elem_of_range.
      split; [apply HrA|]. intros Hr. apply Hkeys. by right.
    + intros r1 c1 r2 c2 H1 H2 Hne.
      assert (¬ Attacks r1 c1 r2 c2) as Hna; [|unfold Attacks in Hna; lia].
      destruct (P !! r1) as [c1'|] eqn:HP1.
      * destruct (P !! r2) as [c2'|] eqn:HP2.
        { pose proof (lookup_weaken _ _ _ _ HP1 Hsub). pose proof (lookup_weaken _ _ _ _ HP2 Hsub).
          simplify_eq. by apply (zero_conflicts_not_Attacks P). }
        destruct (Hfree r2) as (c & Hc & Hcount); [apply HrA; eauto|by apply not_elem_of_dom|].
        simplify_eq. rewrite count_conflicts_zero in Hcount. by apply Hcount.
      * destruct (Hfree r1) as (c & Hc & Hcount); [apply HrA; eauto|by apply not_elem_of_dom|].
        simplify_eq. rewrite count_conflicts_zero in Hcount.
        rewrite Attacks_sym. by apply Hcount.
Qed.

(** X16 on the 8-board with a queen fixed in the corner. *)
Lemma solve_sound_witness :
  is_solution 8 {[0 := 0; 1 := 5; 2 := 7; 3 := 2; 4 := 6; 5 := 3; 6 := 1; 7 := 4]} ∧
  ({[0 := 0]} : assignment) ⊆ {[0 := 0; 1 := 5; 2 := 7; 3 := 2; 4 := 6; 5 := 3; 6 := 1; 7 := 4]}.
Proof.
  apply (solve_sound 8 {[0 := 0]} _ first_pick).
  - intros r [c Hr]. apply lookup_singleton_Some in Hr as [<- _]. lia.
  - intros r c Hr. apply lookup_singleton_Some in Hr as [_ <-]. lia.
  - intros r1 c1 r2 c2 H1 H2 Hne.
    apply lookup_singleton_Some in H1 as [<- _]. apply lookup_singleton_Some in H2 as [<- _].
    done.
  - vm_compute. reflexivity.
Defined.

(** X17.  For a board size that is not negative and a partial assignment
    whose rows lie on the board, [solve] raises nothing: it returns
    [None], or a dict that extends the partial assignment and assigns
    every row of the board. *)
Theorem solve_never_raises `{SetIter} (n : Z) (P : assignment) (rnd : nat → nat) :
  0 ≤ n → rows_on_board n P →
  solve n P rnd = NoSolution ∨
  ∃ A, solve n P rnd = Solution A ∧ P ⊆ A ∧ ∀ r, 0 ≤ r < n → is_Some (A !! r).
Proof. apply solve_dict_or_None. Qed.

(** X17 on the 4-board of the test suite with two queens on one diagonal. *)
Lemma solve_never_raises_witness :
  solve 4 {[0 := 0; 1 := 1]} first_pick = NoSolution ∨
  ∃ A, solve 4 {[0 := 0; 1 := 1]} first_pick = Solution A ∧
       ({[0 := 0; 1 := 1]} : assignment) ⊆ A ∧ ∀ r, 0 ≤ r < 4 → is_Some (A !! r).
Proof.
  apply (solve_never_raises 4 {[0 := 0; 1 := 1]} first_pick); [lia|].
  intros r [c Hr]. apply lookup_insert_Some in Hr as [[<- _]|[_ Hr]]; [lia|].
  apply lookup_singleton_Some in Hr as [<- _]. lia.
Defined.

(** X18.  The degenerate sizes.  With a negative [n], [solve] raises: no
    row is left to select and [min] is applied to an empty list.  With
    [n = 0] it returns the empty dict when there is no partial assignment
    and raises in the same way otherwise. *)
Theorem solve_degenerate_sizes `{SetIter} (n : Z) (P : assignment) (rnd : nat → nat) :
  (n < 0 → solve n P rnd = Raised) ∧
  (n = 0 → P = ∅ → solve n P rnd = Solution ∅) ∧
  (n = 0 → P ≠ ∅ → solve n P rnd = Raised).
Proof.
  split_and!.
  - intros Hn. rewrite solve_nonpositive by lia. rewrite decide_False; [done|].
    unfold len. lia.
  - intros -> ->. rewrite solve_nonpositive by lia. done.
  - intros -> HP. rewrite solve_nonpositive by lia. rewrite decide_False; [done|].
    unfold len. intros Hsz. apply HP, map_size_empty_iff. lia.
Qed.

(** X19.  With a step budget that is not positive the repair loop of
    [min_conflicts] is never entered and the call returns [None], even
    when the partial assignment is already a valid complete placement. *)
Theorem min_conflicts_zero_budget `{SetIter} (n : Z) (P : assignment) (max_steps : Z)
    (rnd : nat → nat) :
  max_steps ≤ 0 → min_conflicts n P (NQueensCSP n P) max_steps rnd = NoSolution.
Proof.
  intros Hsteps. unfold min_conflicts.
  destruct (seed_is_Some (range n) n (NQueensCSP n P) P rnd 0) as [[a k] ->].
  { intros r Hr. by apply elem_of_range. }
  replace (Z.to_nat max_steps) with 0%nat by lia. done.
Qed.

(** X19 on the complete placement of the test suite. *)
Lemma min_conflicts_zero_budget_witness :
  min_conflicts 4 {[0 := 1; 1 := 3; 2 := 0; 3 := 2]}
    (NQueensCSP 4 {[0 := 1; 1 := 3; 2 := 0; 3 := 2]}) 0 first_pick = NoSolution.
Proof.
  apply (min_conflicts_zero_budget 4 {[0 := 1; 1 := 3; 2 := 0; 3 := 2]} 0 first_pick). lia.
Defined.

(** ** The oracle of the test suite *)
Lemma is_valid_solution_true (a : assignment) :
  is_valid_solution a = true ↔ zero_conflicts a.
Proof.
  unfold is_valid_solution. rewrite forallb_forall. split.
  - intros Hall r1 c1 r2 c2 H1 H2 Hne.
    specialize (Hall (r1, c1)). rewrite forallb_forall in Hall.
    assert (negb (bool_decide ((r1, c1).1 ≠ (r2, c2).1 ∧
              Attacks (r1, c1).1 (r1, c1).2 (r2, c2).1 (r2, c2).2)) = true) as Hb.
    { apply Hall; apply list_elem_of_In, elem_of_map_to_list; done. }
    apply negb_true_iff, bool_decide_eq_false in Hb. cbn [fst snd] in Hb.
    unfold Attacks in Hb. split; [intros ->; apply Hb; auto|intros Habs; apply Hb; auto].
  - intros Hz [r1 c1] H1. apply forallb_forall. intros [r2 c2] H2.
    apply list_elem_of_In, elem_of_map_to_list in H1, H2.
    apply negb_true_iff, bool_decide_eq_false. cbn [fst snd]. intros [Hne Hatt].
    by apply (zero_conflicts_not_Attacks a r1 c1 r2 c2).
Qed.

(** X20.  [is_valid_solution] of the test suite accepts a dict exactly
    when no two of its rows share a column or a diagonal, which is also
    exactly when [count_conflicts] is zero for every queen of the dict.
    It checks neither that the dict is complete nor that it lies on the
    board. *)
Theorem is_valid_solution_spec (a : assignment) :
  (is_valid_solution a = true ↔ zero_conflicts a) ∧
  (is_valid_solution a = true ↔
   ∀ r c, a !! r = Some c → count_conflicts r c a = 0%nat).
Proof.
  split; [apply is_valid_solution_true|]. rewrite is_valid_solution_true. split.
  - intros Hz r c Hr. apply count_conflicts_zero. intros r' c' Hr' Hne.
    by apply (zero_conflicts_not_Attacks a).
  - intros Hall r1 c1 r2 c2 H1 H2 Hne.
    specialize (Hall r2 c2 H2). rewrite count_conflicts_zero in Hall.
    specialize (Hall r1 c1 H1 Hne). unfold Attacks in Hall. lia.
Qed.

(** ** [read_input] and blank lines *)

Section ReadInputBlank.
Variable strip : string → string.
Variable int : string → option Z.

(** X21.  A line that is empty once stripped is skipped by [read_input]
    altogether: it does not count towards [n] and does not shift the
    rows of the lines after it. *)
Theorem read_input_skips_blank_lines (before after : list string) (blank : string) :
  strip blank = EmptyString →
  read_input strip int (before ++ blank :: after) = read_input strip int (before ++ after).
Proof.
  intros Hblank. unfold read_input, stripped_lines.
  rewrite !filter_app, filter_cons, decide_False by (by intros []). done.
Qed.

End ReadInputBlank.

(** X21 on a file of four values with a blank line after the first. *)
Lemma read_input_skips_blank_lines_witness :
  read_input ascii_strip ascii_int
    ((with_newline <$> ["0"]) ++ with_newline " " :: (with_newline <$> ["2"; "-1"; "1"]))
  = read_input ascii_strip ascii_int
    ((with_newline <$> ["0"]) ++ (with_newline <$> ["2"; "-1"; "1"])).
Proof.
  apply (read_input_skips_blank_lines ascii_strip ascii_int). vm_compute. reflexivity.
Defined.

(** ** What [print_solution] prints *)
Lemma print_each_spec text rows (solution : assignment) out :
  match (print_each text rows solution out).2 with
  | None =>
      (∀ r, r ∈ rows → is_Some (solution !! r)) ∧
      (print_each text rows solution out).1 =
        out ++ ((λ r, text r (solution !!! r)) <$> rows)
  | Some row =>
      ∃ before after, rows = before ++ row :: after ∧ solution !! row = None ∧
        (∀ r, r ∈ before → is_Some (solution !! r)) ∧
        (print_each text rows solution out).1 =
          out ++ ((λ r, text r (solution !!! r)) <$> before)
  end.
Proof.
  revert out. induction rows as [|row rows IH]; intros out.
  { cbn. split; [intros r Hr; by apply elem_of_nil in Hr|by rewrite app_nil_r]. }
  cbn [print_each]. destruct (solution !! row) as [col|] eqn:Hrow.
  - specialize (IH (out ++ [text row col])).
    assert (solution !!! row = col) as Hcol by (by rewrite lookup_total_alt, Hrow).
    destruct (print_each text rows solution (out ++ [text row col])).2 as [bad|].
    + destruct IH as (before & after & -> & Hbad & Hbefore & Hout).
      exists (row :: before), after. split_and!; [done|done| |].
      * intros r Hr. apply elem_of_cons in Hr as [->|Hr]; [eauto|by apply Hbefore].
      * rewrite Hout, <- app_assoc. cbn. by rewrite Hcol.
    + destruct IH as [Hall Hout]. split.
      * intros r Hr. apply elem_of_cons in Hr as [->|Hr]; [eauto|by apply Hall].
      * rewrite Hout, <- app_assoc. cbn. by rewrite Hcol.
  - cbn. exists [], rows. split_and!; [done|done| |by rewrite app_nil_r].
    intros r Hr. by apply elem_of_nil in Hr.
Qed.

Lemma print_solution_ok (solution : assignment) n :
  (∀ r, 0 ≤ r < n → is_Some (solution !! r)) →
  print_solution solution n =
    ([newline +:+ "Solution for " +:+ pretty n +:+ "x" +:+ pretty n +:+ " board:"] ++
     ((λ r, row_line r (solution !!! r)) <$> range n) ++
     (if decide (n ≤ 50)
      then [newline +:+ "Visual representation:"] ++
           ((λ r, board_line n (solution !!! r)) <$> range n)
      else []),
     None).
Proof.
  intros Hall. unfold print_solution.
  assert (∀ text out, print_each text (range n) solution out =
            (out ++ ((λ r, text r (solution !!! r)) <$> range n), None)) as Heach.
  { intros text out. pose proof (print_each_spec text (range n) solution out) as Hspec.
    destruct (print_each text (range n) solution out) as [out' [bad|]]; cbn [fst snd] in Hspec.
    - destruct Hspec as (before & after & Hrows & Hbad & _).
      destruct (Hall bad) as [c Hc]; [|congruence].
      apply elem_of_range. rewrite Hrows. apply elem_of_app. right. by left.
    - by destruct Hspec as [_ ->]. }
  rewrite Heach. destruct (decide (n ≤ 50)).
  - rewrite Heach. by rewrite <- !app_assoc.
  - by rewrite app_nil_r.
Qed.

(** X22.  [print_solution] raises [KeyError] exactly when the dict lacks
    a row of the board, at the first such row and after the heading and
    the lines of the rows before it have been printed.  Otherwise it
    prints the heading, one line [Row r -> Column c] per row in order,
    and, for [n <= 50] only, the caption and one board line per row. *)
Theorem print_solution_output (solution : assignment) (n : Z) :
  match (print_solution solution n).2 with
  | None =>
      (∀ r, 0 ≤ r < n → is_Some (solution !! r)) ∧
      (print_solution solution n).1 =
        [newline +:+ "Solution for " +:+ pretty n +:+ "x" +:+ pretty n +:+ " board:"] ++
        ((λ r, row_line r (solution !!! r)) <$> range n) ++
        (if decide (n ≤ 50)
         then [newline +:+ "Visual representation:"] ++
              ((λ r, board_line n (solution !!! r)) <$> range n)
         else [])
  | Some row =>
      0 ≤ row < n ∧ solution !! row = None ∧
      (∀ r, 0 ≤ r < row → is_Some (solution !! r)) ∧
      (print_solution solution n).1 =
        [newline +:+ "Solution for " +:+ pretty n +:+ "x" +:+ pretty n +:+ " board:"] ++
        ((λ r, row_line r (solution !!! r)) <$> range row)
  end.
Proof.
  destruct (decide (Forall (λ r, is_Some (solution !! r)) (range n))) as [Hall|Hmiss];
    rewrite Forall_forall in *.
  { rewrite print_solution_ok by (intros r Hr; by apply Hall, elem_of_range).
    cbn [fst snd]. split; [|done]. intros r Hr. by apply Hall, elem_of_range. }
  unfold print_solution.
  pose proof (print_each_spec row_line (range n) solution
    [newline +:+ "Solution for " +:+ pretty n +:+ "x" +:+ pretty n +:+ " board:"]) as Hspec.
  destruct (print_each row_line (range n) solution _) as [out [bad|]]; cbn [fst snd] in *.
  2: { by destruct Hspec as [Hall _]. }
  destruct Hspec as (before & after & Hrows & Hbad & Hbefore & ->).
  assert (before = range bad ∧ 0 ≤ bad < n) as [-> Hb].
  { assert (bad ∈ range n) as Hin by (rewrite Hrows, elem_of_app; right; by left).
    apply elem_of_range in Hin. split; [|done].
    unfold range in *.
    replace n with (bad + (n - bad)) in Hrows by lia.
    rewrite seqZ_app, (seqZ_cons (0 + bad)) in Hrows by lia.
    assert (length before = length (seqZ 0 bad)) as Hlen.
    { destruct (decide (length before = length (seqZ 0 bad))) as [|Hne]; [done|].
      exfalso.
      pose proof (f_equal (λ l, l !! length before) Hrows) as Hk. cbn beta in Hk.
      rewrite (lookup_app_r before), Nat.sub_diag in Hk by done. cbn in Hk.
      destruct (decide (length before < length (seqZ 0 bad))%nat) as [Hlt|Hge].
      - rewrite lookup_app_l in Hk by done.
        apply lookup_seqZ in Hk as [Hk _]. rewrite length_seqZ in Hlt. lia.
      - rewrite lookup_app_r in Hk by lia.
        destruct (length before - length (seqZ 0 bad))%nat as [|k] eqn:Hd; [lia|].
        cbn in Hk. apply lookup_seqZ in Hk as [Hk _]. lia. }
    symmetry. by apply app_inj_1 in Hrows as [-> _]. }
  split; [done|]. split; [done|]. split; [|done].
  intros r Hr. apply Hbefore. by apply elem_of_range.
Qed.

Lemma string_length_app (s1 s2 : string) :
  String.length (s1 +:+ s2) = (String.length s1 + String.length s2)%nat.
Proof.
  induction s1 as [|c s1 IH]; [done|].
  change (S (String.length (s1 +:+ s2)) = S (String.length s1 + String.length s2)).
  by rewrite IH.
Qed.

Lemma board_cells_fold (cell : Z → string) (l : list Z) :
  (∀ x, String.length (cell x) = 2%nat) →
  String.length (foldl (λ line col, line +:+ cell col) EmptyString l) = (2 * length l)%nat ∧
  ∀ (i : nat) x, l !! i = Some x →
    String.get (2 * i) (foldl (λ line col, line +:+ cell col) EmptyString l)
      = String.get 0 (cell x) ∧
    String.get (2 * i + 1) (foldl (λ line col, line +:+ cell col) EmptyString l)
      = String.get 1 (cell x).
Proof.
  intros Hcell. induction l as [|y l [IHlen IHget]] using rev_ind.
  { split; [done|]. intros i x Hi. by rewrite lookup_nil in Hi. }
  rewrite foldl_app. cbn [foldl].
  set (line := foldl (λ line col, line +:+ cell col) EmptyString l) in *.
  split.
  - rewrite string_length_app, IHlen, Hcell, length_app. cbn. lia.
  - intros i x Hi. apply lookup_app_Some in Hi as [Hi|[Hge Hi]].
    + destruct (IHget i x Hi) as [H0 H1].
      pose proof (lookup_lt_Some _ _ _ Hi) as Hlt.
      rewrite <- !String.append_correct1 by lia. done.
    + apply list_lookup_singleton_Some in Hi as [Hi ->].
      assert (i = length l) as -> by lia.
      rewrite (String.append_correct2 line (cell x) 0),
        (String.append_correct2 line (cell x) 1), IHlen.
      split; f_equal; lia.
Qed.

(** X23.  A board line has two characters per column of the board: a [Q]
    followed by a space at the queen's column, a dot followed by a space
    everywhere else.  A queen whose column is off the board therefore
    leaves a line of dots. *)
Theorem board_line_shows_queen (n queen : Z) :
  String.length (board_line n queen) = Z.to_nat (2 * n) ∧
  ∀ col, 0 ≤ col < n →
    String.get (Z.to_nat (2 * col)) (board_line n queen)
      = Some (if decide (queen = col) then "Q"%char else "."%char) ∧
    String.get (Z.to_nat (2 * col + 1)) (board_line n queen) = Some " "%char.
Proof.
  destruct (board_cells_fold (λ col, if decide (queen = col) then "Q " else ". ") (range n))
    as [Hlen Hget].
  { intros x. by destruct (decide (queen = x)). }
  unfold board_line. split.
  - rewrite Hlen, length_range. lia.
  - intros col Hcol.
    destruct (Hget (Z.to_nat col) col) as [H0 H1].
    { unfold range. apply lookup_seqZ. lia. }
    replace (Z.to_nat (2 * col)) with (2 * Z.to_nat col)%nat by lia.
    replace (Z.to_nat (2 * col + 1)) with (2 * Z.to_nat col + 1)%nat by lia.
    rewrite H0, H1. by destruct (decide (queen = col)).
Qed.

(** ** The program as a whole: [main] *)

Section MainFacts.
Context `{SetIter}.
Variable strip : string → string.
Variable int : string → option Z.
Variable readlines : string → string + list string.
Variable elapsed : string.
Variable error_text : string.

Lemma read_input_on_board lines :
  0 ≤ (read_input strip int lines).2 ∧
  rows_on_board (read_input strip int lines).2 (read_input strip int lines).1 ∧
  on_board (read_input strip int lines).2 (read_input strip int lines).1.
Proof.
  assert (∀ r c, (read_input strip int lines).1 !! r = Some c →
            0 ≤ r < (read_input strip int lines).2 ∧
            0 ≤ c < (read_input strip int lines).2) as Hall.
  { unfold read_input. cbn [fst snd]. unfold range.
    set (l := stripped_lines strip lines).
    destruct (read_input_fold int (Z.of_nat (length l)) l 0 ∅) as [H1 H2].
    set (n := Z.of_nat (length l)) in *. intros r c Hrc.
    destruct (decide (0 ≤ r < n)) as [Hr|Hr].
    - split; [done|].
      destruct (lookup_lt_is_Some_2 l (Z.to_nat r)) as [line Hline]; [lia|].
      specialize (H1 _ _ Hline). rewrite Z.add_0_l, Z2Nat.id in H1 by lia.
      rewrite H1, lookup_empty in Hrc. destruct (int line) as [col|]; [|done].
      destruct (decide (0 ≤ col < n)); by simplify_eq.
    - rewrite H2, lookup_empty in Hrc by lia. done. }
  split_and!.
  - unfold read_input. cbn [snd]. lia.
  - intros r [c Hr]. by apply (Hall r c).
  - intros r c Hr. by apply (Hall r c).
Qed.

Lemma read_input_blank lines :
  (∀ line, line ∈ lines → strip line = EmptyString) → read_input strip int lines = (∅, 0).
Proof.
  intros Hblank. unfold read_input, stripped_lines.
  assert (filter (λ line, strip line ≠ EmptyString) lines = []) as ->; [|done].
  induction lines as [|line lines IH]; [done|].
  rewrite filter_cons, decide_False.
  - apply IH. intros l Hl. apply Hblank. by right.
  - intros Hne. apply Hne, Hblank. by left.
Qed.

Lemma main_output_cases (prog input_file : string) (lines : list string) (rnd : nat → nat) :
  readlines input_file = inr lines →
  ∃ body,
    main strip int readlines elapsed error_text [prog; input_file] rnd =
      ["Reading input from " +:+ input_file;
       "Board size: " +:+ pretty (read_input strip int lines).2 +:+ "x" +:+
         pretty (read_input strip int lines).2;
       "Partial assignment: " +:+ dict_repr (read_input strip int lines).1] ++
      (if decide ((read_input strip int lines).2 < 10 ∨ 1000 < (read_input strip int lines).2)
       then ["Warning: Board size n=" +:+ pretty (read_input strip int lines).2 +:+
             " is outside the specified constraints (10 <= n <= 1000)"]
       else []) ++
      ["Solved in " +:+ elapsed +:+ " seconds"] ++ body ∧
    ((body = ["No solution found."] ∧
      ((read_input strip int lines).2 = 0 ∨
       solve (read_input strip int lines).2 (read_input strip int lines).1 rnd = NoSolution)) ∨
     (0 < (read_input strip int lines).2 ∧
      ∃ A, solve (read_input strip int lines).2 (read_input strip int lines).1 rnd
             = Solution A ∧
           (read_input strip int lines).1 ⊆ A ∧
           (∀ r, 0 ≤ r < (read_input strip int lines).2 → is_Some (A !! r)) ∧
           print_solution A (read_input strip int lines).2 = (body, None))).
Proof.
  intros Hfile. unfold main. rewrite Hfile. cbn zeta.
  destruct (read_input_on_board lines) as (Hn & Hrows & Hcols).
  set (P := (read_input strip int lines).1) in *.
  set (n := (read_input strip int lines).2) in *.
  destruct (solve_dict_or_None n P rnd Hn Hrows) as [E|(A & E & Hsub & Hall)]; rewrite E.
  { exists ["No solution found."]. split; [done|]. left. auto. }
  destruct (decide (A = ∅)) as [->|Hne].
  { exists ["No solution found."]. split; [done|]. left. split; [done|]. left.
    destruct (decide (n = 0)) as [|Hn0]; [done|].
    destruct (Hall 0) as [c Hc]; [lia|]. by rewrite lookup_empty in Hc. }
  assert (0 < n) as Hpos.
  { destruct (decide (0 < n)) as [|Hn0]; [done|]. exfalso.
    rewrite solve_nonpositive in E by lia. destruct (decide (len P = n)); [|done].
    injection E as <-. apply Hne. apply map_size_empty_iff. unfold len in *. lia. }
  rewrite (print_solution_ok A n Hall). cbn [fst snd]. rewrite app_nil_r.
  eexists. split; [reflexivity|]. right. split; [done|]. exists A.
  split_and!; try done. by apply print_solution_ok.
Qed.

(** X24.  When the input file can be read, [main] never reaches its
    [except] clause: it prints the file name, the board size, the partial
    assignment, the warning when [n] is below 10 or above 1000, the
    timing line of [solve], and then either [No solution found.] (when
    [solve] returned [None], or the empty dict of the empty board) or the
    complete output of [print_solution] for a dict that extends the
    partial assignment and assigns every row. *)
Theorem main_prints_verdict (prog input_file : string) (lines : list string)
    (rnd : nat → nat) :
  readlines input_file = inr lines →
  ∃ body,
    main strip int readlines elapsed error_text [prog; input_file] rnd =
      ["Reading input from " +:+ input_file;
       "Board size: " +:+ pretty (read_input strip int lines).2 +:+ "x" +:+
         pretty (read_input strip int lines).2;
       "Partial assignment: " +:+ dict_repr (read_input strip int lines).1] ++
      (if decide ((read_input strip int lines).2 < 10 ∨ 1000 < (read_input strip int lines).2)
       then ["Warning: Board size n=" +:+ pretty (read_input strip int lines).2 +:+
             " is outside the specified constraints (10 <= n <= 1000)"]
       else []) ++
      ["Solved in " +:+ elapsed +:+ " seconds"] ++ body ∧
    ((body = ["No solution found."] ∧
      ((read_input strip int lines).2 = 0 ∨
       solve (read_input strip int lines).2 (read_input strip int lines).1 rnd = NoSolution)) ∨
     (0 < (read_input strip int lines).2 ∧
      ∃ A, solve (read_input strip int lines).2 (read_input strip int lines).1 rnd
             = Solution A ∧
           (read_input strip int lines).1 ⊆ A ∧
           (∀ r, 0 ≤ r < (read_input strip int lines).2 → is_Some (A !! r)) ∧
           print_solution A (read_input strip int lines).2 = (body, None))).
Proof. apply main_output_cases. Qed.

(** X25.  For a file of at most 100 non-blank lines the verdict of
    [main] is exact: it prints [No solution found.] when the board is
    empty or no valid placement extends the partial assignment read from
    the file, and otherwise prints a valid placement that extends it. *)
Theorem main_small_board (prog input_file : string) (lines : list string)
    (rnd : nat → nat) :
  readlines input_file = inr lines →
  (read_input strip int lines).2 ≤ 100 →
  ∃ body,
    main strip int readlines elapsed error_text [prog; input_file] rnd =
      ["Reading input from " +:+ input_file;
       "Board size: " +:+ pretty (read_input strip int lines).2 +:+ "x" +:+
         pretty (read_input strip int lines).2;
       "Partial assignment: " +:+ dict_repr (read_input strip int lines).1] ++
      (if decide ((read_input strip int lines).2 < 10)
       then ["Warning: Board size n=" +:+ pretty (read_input strip int lines).2 +:+
             " is outside the specified constraints (10 <= n <= 1000)"]
       else []) ++
      ["Solved in " +:+ elapsed +:+ " seconds"] ++ body ∧
    ((body = ["No solution found."] ∧
      ((read_input strip int lines).2 = 0 ∨
       ∀ sol, is_solution (read_input strip int lines).2 sol →
              ¬ (read_input strip int lines).1 ⊆ sol)) ∨
     (0 < (read_input strip int lines).2 ∧
      ∃ A, is_solution (read_input strip int lines).2 A ∧
           (read_input strip int lines).1 ⊆ A ∧
           print_solution A (read_input strip int lines).2 = (body, None))).
Proof.
  intros Hfile Hle.
  destruct (main_output_cases prog input_file lines rnd Hfile) as (body & -> & Hbody).
  destruct (read_input_on_board lines) as (Hn & Hrows & Hcols).
  set (P := (read_input strip int lines).1) in *.
  set (n := (read_input strip int lines).2) in *.
  exists body. split.
  { destruct (decide (n < 10 ∨ 1000 < n)) as [Hw|Hw], (decide (n < 10)) as [Hw'|Hw'];
      try done; lia. }
  assert (solve n P rnd = backtrack_search n P (NQueensCSP n P)) as Hsmall
    by (by apply solve_small).
  destruct (backtrack_search_correct n P Hn Hrows Hcols) as [[E Hnone]|(A' & E & Hsol & Hsub')];
    rewrite <- Hsmall in E.
  - destruct Hbody as [[-> _]|(_ & A & EA & _)]; [|congruence]. left. auto.
  - destruct Hbody as [[-> [Hn0|EN]]|(Hpos & A & EA & _ & _ & Hprint)].
    + left. auto.
    + congruence.
    + right. split; [done|]. exists A'. assert (A = A') as -> by congruence. done.
Qed.

(** X26.  On a file with no line left after stripping (an empty file
    included) [main] reports a board of size 0 with the out-of-range
    warning and then [No solution found.]: [solve] returns the empty
    dict, which [if solution:] takes for no solution. *)
Theorem main_blank_file (prog input_file : string) (lines : list string)
    (rnd : nat → nat) :
  readlines input_file = inr lines →
  (∀ line, line ∈ lines → strip line = EmptyString) →
  main strip int readlines elapsed error_text [prog; input_file] rnd =
    ["Reading input from " +:+ input_file;
     "Board size: 0x0";
     "Partial assignment: {}";
     "Warning: Board size n=0 is outside the specified constraints (10 <= n <= 1000)";
     "Solved in " +:+ elapsed +:+ " seconds";
     "No solution found."].
Proof.
  intros Hfile Hblank. unfold main. rewrite Hfile, (read_input_blank lines Hblank).
  cbn zeta. cbn [fst snd]. rewrite solve_nonpositive by lia.
  rewrite (decide_True (P := 0 < 10 ∨ 1000 < 0)) by lia.
  rewrite (decide_True (P := len (∅ : assignment) = 0)) by done.
  rewrite (decide_True (P := (∅ : assignment) = ∅)) by done.
  reflexivity.
Qed.

End MainFacts.

(** X24 on a file that fixes a queen at row 0, column 1 of the 4-board. *)
Lemma main_prints_verdict_witness :
  ∃ body,
    main ascii_strip ascii_int (λ _, inr one_queen_file) "0.00" "" ["n_queens.py"; "in.txt"]
         first_pick =
      ["Reading input from " +:+ "in.txt";
       "Board size: " +:+ pretty (read_input ascii_strip ascii_int one_queen_file).2 +:+ "x" +:+
         pretty (read_input ascii_strip ascii_int one_queen_file).2;
       "Partial assignment: " +:+ dict_repr (read_input ascii_strip ascii_int one_queen_file).1] ++
      (if decide ((read_input ascii_strip ascii_int one_queen_file).2 < 10 ∨
                  1000 < (read_input ascii_strip ascii_int one_queen_file).2)
       then ["Warning: Board size n=" +:+
             pretty (read_input ascii_strip ascii_int one_queen_file).2 +:+
             " is outside the specified constraints (10 <= n <= 1000)"]
       else []) ++
      ["Solved in " +:+ "0.00" +:+ " seconds"] ++ body ∧
    ((body = ["No solution found."] ∧
      ((read_input ascii_strip ascii_int one_queen_file).2 = 0 ∨
       solve (read_input ascii_strip ascii_int one_queen_file).2
             (read_input ascii_strip ascii_int one_queen_file).1 first_pick = NoSolution)) ∨
     (0 < (read_input ascii_strip ascii_int one_queen_file).2 ∧
      ∃ A, solve (read_input ascii_strip ascii_int one_queen_file).2
                 (read_input ascii_strip ascii_int one_queen_file).1 first_pick
             = Solution A ∧
           (read_input ascii_strip ascii_int one_queen_file).1 ⊆ A ∧
           (∀ r, 0 ≤ r < (read_input ascii_strip ascii_int one_queen_file).2 →
                 is_Some (A !! r)) ∧
           print_solution A (read_input ascii_strip ascii_int one_queen_file).2
             = (body, None))).
Proof.
  exact (main_prints_verdict ascii_strip ascii_int (λ _, inr one_queen_file) "0.00" ""
           "n_queens.py" "in.txt" one_queen_file first_pick eq_refl).
Defined.

(** X25 on the same file. *)
Lemma main_small_board_witness :
  ∃ body,
    main ascii_strip ascii_int (λ _, inr one_queen_file) "0.00" "" ["n_queens.py"; "in.txt"]
         first_pick =
      ["Reading input from " +:+ "in.txt";
       "Board size: " +:+ pretty (read_input ascii_strip ascii_int one_queen_file).2 +:+ "x" +:+
         pretty (read_input ascii_strip ascii_int one_queen_file).2;
       "Partial assignment: " +:+ dict_repr (read_input ascii_strip ascii_int one_queen_file).1] ++
      (if decide ((read_input ascii_strip ascii_int one_queen_file).2 < 10)
       then ["Warning: Board size n=" +:+
             pretty (read_input ascii_strip ascii_int one_queen_file).2 +:+
             " is outside the specified constraints (10 <= n <= 1000)"]
       else []) ++
      ["Solved in " +:+ "0.00" +:+ " seconds"] ++ body ∧
    ((body = ["No solution found."] ∧
      ((read_input ascii_strip ascii_int one_queen_file).2 = 0 ∨
       ∀ sol, is_solution (read_input ascii_strip ascii_int one_queen_file).2 sol →
              ¬ (read_input ascii_strip ascii_int one_queen_file).1 ⊆ sol)) ∨
     (0 < (read_input ascii_strip ascii_int one_queen_file).2 ∧
      ∃ A, is_solution (read_input ascii_strip ascii_int one_queen_file).2 A ∧
           (read_input ascii_strip ascii_int one_queen_file).1 ⊆ A ∧
           print_solution A (read_input ascii_strip ascii_int one_queen_file).2
             = (body, None))).
Proof.
  apply (main_small_board ascii_strip ascii_int (λ _, inr one_queen_file) "0.00" ""
           "n_queens.py" "in.txt" one_queen_file first_pick eq_refl).
  vm_compute. discriminate.
Defined.

(** X26 on a file of two blank lines. *)
Lemma main_blank_file_witness :
  main ascii_strip ascii_int (λ _, inr [with_newline ""; with_newline "  "]) "0.00" ""
       ["n_queens.py"; "in.txt"] first_pick =
    ["Reading input from " +:+ "in.txt";
     "Board size: 0x0";
     "Partial assignment: {}";
     "Warning: Board size n=0 is outside the specified constraints (10 <= n <= 1000)";
     "Solved in " +:+ "0.00" +:+ " seconds";
     "No solution found."].
Proof.
  apply (main_blank_file ascii_strip ascii_int
           (λ _, inr [with_newline ""; with_newline "  "]) "0.00" ""
           "n_queens.py" "in.txt" [with_newline ""; with_newline "  "] first_pick eq_refl).
  intros line Hline.
  apply elem_of_cons in Hline as [->|Hline]; [vm_compute; reflexivity|].
  apply list_elem_of_singleton in Hline as ->. vm_compute. reflexivity.
Defined.
